(** * A shallow embedding of the consola log dispatch engine

    The development follows the TypeScript sources:
    - [src/constants.ts]  : [LogLevels], [LogTypes]
    - [src/core.ts]       : the log utilities [isPlainObject], [isLogObj]
    - [src/consola.ts]    : [Consola], [_normalizeLogLevel], [_wrapLogFn],
                            [_logFn], [resolveLog], [pauseLogs], [resumeLogs],
                            [withDefaults], [withTag], [addReporter],
                            [removeReporter], [setReporters], [wrapConsole],
                            [restoreConsole], [_wrapStream], [_restoreStream]
    - [src/utils/box.ts]  : [box]
    - [src/utils/tree.ts] : [formatTree], [_buildTree]
    - [src/utils/color.ts] : [replaceClose], [clearBleed], [filterEmpty],
                            [init], [colorDefs], [createColors], [getColor],
                            [colorize]
    - [src/utils/string.ts] : [centerAlign], [rightAlign], [leftAlign],
                            [align]
    - [src/utils/stream.ts] : [writeStream]

    Modelling conventions.
    - A JavaScript number used as a level or a time is an integer or one of
      the two infinities ([num]); NaN and fractions are left out.
    - Values follow the declared TypeScript types: a plain object is read
      through the [InputLogObject] interface, its declared fields typed as
      the interface types them, every other key kept in [extra].
    - [new Date()] is an input of the model (the [now] argument).
    - The defaults of a call-site are a value.  In the source the log
      object shares the [args] array of the defaults, and a call that
      merges a log object without [args] of its own adds the message and
      the additional text to that array in place.  The model is that of
      the kinds that carry no [args] of their own: a statement about the
      options after a call, or about several calls of one call-site, has
      the hypothesis [args d = None].
    - [toLowerCase] maps the letters [A] to [Z], which is
      [String.prototype.toLowerCase] on ASCII strings; what is stated
      about the case of a type is stated for ASCII types ([is_ascii]).
    - [JSON.stringify] is a parameter, and so are the colour functions
      and [stripAnsi] where [box] and [formatTree] use them: they are
      ECMAScript built-ins or depend on the process environment.  The
      colour functions themselves are modelled on strings held as lists of
      code units, with the colour support as an argument.
    - A reporter is known by its index; calling [reporter.log] appends an
      event to the output trace.  The global [console] is a finite map
      from property names to the functions they hold, a stream the pair
      of its [write] and [__write] properties.  Mocked call-sites
      ([mockTypes]) are not modelled. *)

From Stdlib Require Import ZArith String Ascii List Bool Lia DecimalString.
From stdpp Require Import base option list strings gmap.
Import ListNotations.
Local Open Scope string_scope.
Local Open Scope Z_scope.
Local Open Scope list_scope.

(** ** Numbers *)

Module Num.

(** A JavaScript number restricted to the integers and the infinities. *)
Inductive num : Type :=
| NInf
| Fin (z : Z)
| PInf.

Definition eqb (a b : num) : bool :=
  match a, b with
  | NInf, NInf | PInf, PInf => true
  | Fin x, Fin y => Z.eqb x y
  | _, _ => false
  end.

(** [a > b] *)
Definition gtb (a b : num) : bool :=
  match a, b with
  | NInf, _ => false
  | Fin _, NInf => true
  | Fin x, Fin y => Z.ltb y x
  | Fin _, PInf => false
  | PInf, PInf => false
  | PInf, _ => true
  end.

(** Truthiness of a number: only [0] is falsy (NaN is left out). *)
Definition truthy (a : num) : bool :=
  match a with
  | Fin 0 => false
  | _ => true
  end.

End Num.
Export Num(num, NInf, Fin, PInf).

(** ** Values and log objects *)

(** [InputLogObject] of [src/types.ts], over the type [V] of values: all
    declared fields are optional; [message], which the code only tests for
    truthiness and moves into [args], may hold any value; [extra] holds
    every other key of the object, in insertion order ([stack], [title],
    [icon], ...). *)
Record InputLogObject_ (V : Type) : Type := mkInput {
  level : option num;
  tag : option string;
  type : option string;
  message : option V;
  additional : option (string + list string);
  args : option (list V);
  date : option Z;
  extra : list (string * V)
}.
Arguments mkInput {V}.
Arguments level {V}.
Arguments tag {V}.
Arguments type {V}.
Arguments message {V}.
Arguments additional {V}.
Arguments args {V}.
Arguments date {V}.
Arguments extra {V}.

(** The values a call-site can receive ([any]). *)
#[warnings="-register-all"] Inductive value : Type :=
| VUndef
| VNull
| VBool (b : bool)
| VNum (n : num)
| VStr (s : string)
| VBigInt (z : Z)
| VArr (xs : list value)
| VObj (o : InputLogObject_ value)        (* a plain object *)
| VErr (msg stack : string).              (* an Error instance *)

Definition InputLogObject : Type := InputLogObject_ value.

Definition emptyObj : InputLogObject :=
  mkInput None None None None None None None [].

(** JavaScript truthiness. *)
Definition truthy (v : value) : bool :=
  match v with
  | VUndef | VNull => false
  | VBool b => b
  | VNum n => Num.truthy n
  | VStr s => negb (String.eqb s "")
  | VBigInt z => negb (Z.eqb z 0)
  | VArr _ | VObj _ | VErr _ _ => true
  end.

Definition truthy_str (o : option string) : bool :=
  match o with
  | Some s => negb (String.eqb s "")
  | None => false
  end.

(** Property lookup in the undeclared keys: the first binding wins, a
    missing key reads [undefined]. *)
Fixpoint lookup_extra (k : string) (ps : list (string * value)) : value :=
  match ps with
  | [] => VUndef
  | (k', v) :: ps' => if String.eqb k k' then v else lookup_extra k ps'
  end.

Fixpoint has_extra (k : string) (ps : list (string * value)) : bool :=
  match ps with
  | [] => false
  | (k', _) :: ps' => String.eqb k k' || has_extra k ps'
  end.

(** [target[k] = v]: an existing key keeps its place, a new one goes last. *)
Fixpoint set_extra (k : string) (v : value) (ps : list (string * value))
  : list (string * value) :=
  match ps with
  | [] => [(k, v)]
  | (k', v') :: ps' =>
      if String.eqb k k' then (k', v) :: ps' else (k', v') :: set_extra k v ps'
  end.

Definition assign_extra (target src : list (string * value))
  : list (string * value) :=
  fold_left (fun acc kv => set_extra (fst kv) (snd kv) acc) src target.

(** ** [src/utils/log.ts] *)

(** [Object.prototype.toString.call(obj) === "[object Object]"] *)
Definition isPlainObject (obj : value) : bool :=
  match obj with
  | VObj _ => true
  | _ => false
  end.

(** Truthiness of [arg.message], [arg.args] and [arg.stack]. *)
Definition truthy_message (o : InputLogObject) : bool :=
  match message o with
  | Some m => truthy m
  | None => false
  end.

Definition truthy_args (o : InputLogObject) : bool :=
  match args o with
  | Some _ => true           (* an array, even empty, is truthy *)
  | None => false
  end.

Definition truthy_stack (o : InputLogObject) : bool :=
  truthy (lookup_extra "stack" (extra o)).

Definition isLogObj (arg : value) : bool :=
  match arg with
  | VObj o =>
      if negb (truthy_message o) && negb (truthy_args o) then false
      else if truthy_stack o then false
      else true
  | _ => false                (* [!isPlainObject(arg)] *)
  end.

(** ** Strings *)

Definition nl : string := String (ascii_of_nat 10) EmptyString.

(** [s.split("\n")] *)
Fixpoint split_nl_aux (cur : string) (s : string) : list string :=
  match s with
  | EmptyString => [cur]
  | String c s' =>
      if Ascii.eqb c (ascii_of_nat 10) then cur :: split_nl_aux "" s'
      else split_nl_aux (cur +:+ String c "") s'
  end.

Definition split_nl (s : string) : list string := split_nl_aux "" s.

(** [xs.join(sep)] *)
Fixpoint join (sep : string) (xs : list string) : string :=
  match xs with
  | [] => ""
  | [x] => x
  | x :: rest => x +:+ sep +:+ join sep rest
  end.

(** [s.toLowerCase()] on the ASCII letters. *)
Definition lower_ascii (c : ascii) : ascii :=
  let n := nat_of_ascii c in
  if (Nat.leb 65 n && Nat.leb n 90)%bool then ascii_of_nat (n + 32) else c.

Fixpoint toLowerCase (s : string) : string :=
  match s with
  | EmptyString => EmptyString
  | String c s' => String (lower_ascii c) (toLowerCase s')
  end.

(** ** [src/constants.ts] *)

Definition LogLevels : list (string * num) :=
  [ ("silent", NInf);
    ("fatal", Fin 0); ("error", Fin 0);
    ("warn", Fin 1);
    ("log", Fin 2);
    ("info", Fin 3); ("success", Fin 3); ("fail", Fin 3); ("ready", Fin 3);
    ("start", Fin 3); ("box", Fin 3);
    ("debug", Fin 4);
    ("trace", Fin 5);
    ("verbose", PInf) ].

Definition withLevel (l : num) : InputLogObject :=
  mkInput (Some l) None None None None None None [].

Definition LogTypes : list (string * InputLogObject) :=
  [ ("silent", withLevel (Fin (-1)));
    ("fatal", withLevel (Fin 0)); ("error", withLevel (Fin 0));
    ("warn", withLevel (Fin 1));
    ("log", withLevel (Fin 2));
    ("info", withLevel (Fin 3)); ("success", withLevel (Fin 3));
    ("fail", withLevel (Fin 3)); ("ready", withLevel (Fin 3));
    ("start", withLevel (Fin 3)); ("box", withLevel (Fin 3));
    ("debug", withLevel (Fin 4));
    ("trace", withLevel (Fin 5));
    ("verbose", withLevel PInf) ].

Fixpoint lookup_type (k : string) (types : list (string * InputLogObject))
  : option InputLogObject :=
  match types with
  | [] => None
  | (k', t) :: rest => if String.eqb k k' then Some t else lookup_type k rest
  end.

(** ** [src/consola.ts]: options and state *)

(** The argument of [_normalizeLogLevel]: [LogLevel | LogType | undefined]. *)
Inductive level_input : Type :=
| LUndef
| LNum (n : num)
| LType (t : string).

Definition _normalizeLogLevel (input : level_input)
    (types : list (string * InputLogObject)) (defaultLevel : num) : num :=
  match input with
  | LUndef => defaultLevel
  | LNum n => n
  | LType t =>
      match lookup_type t types with
      | Some ty =>
          match level ty with
          | Some l => l
          | None => defaultLevel
          end
      | None => defaultLevel
      end
  end.

Definition level_input_of (l : option num) : level_input :=
  match l with
  | Some n => LNum n
  | None => LUndef
  end.

(** The log object under construction in [_logFn] and handed to the
    reporters: [date], [args] and [level] are set from its creation on. *)
Record LogObject : Type := mkLog {
  lo_date : Z;
  lo_args : list value;
  lo_level : num;
  lo_type : option string;
  lo_tag : option string;
  lo_message : option value;
  lo_additional : option (string + list string);
  lo_extra : list (string * value)
}.

Record ConsolaOptions : Type := mkOptions {
  reporters : list nat;
  types : list (string * InputLogObject);
  opt_level : num;
  defaults : InputLogObject;
  throttle : Z;
  throttleMin : Z
}.

(** [_lastLog]; [timeout] holds the due time of a pending timer whose
    callback is [resolveLog] (called without argument). *)
Record LastLog : Type := mkLast {
  serialized : option string;
  object : option LogObject;
  count : option Z;
  time : option Z;
  timeout : option Z
}.

Record Consola : Type := mkConsola {
  options : ConsolaOptions;
  _lastLog : LastLog
}.

Definition emptyLast : LastLog := mkLast None None None None None.

(** [reporter.log(logObj, ctx)] by the reporter of the given index. *)
Definition event : Type := (nat * LogObject)%type.

(** [{ ...a, ...b }] on log objects. *)
Definition or_else {A} (x y : option A) : option A :=
  match x with
  | Some _ => x
  | None => y
  end.

Definition spread (a b : InputLogObject) : InputLogObject :=
  mkInput (or_else (level b) (level a))
          (or_else (tag b) (tag a))
          (or_else (type b) (type a))
          (or_else (message b) (message a))
          (or_else (additional b) (additional a))
          (or_else (args b) (args a))
          (or_else (date b) (date a))
          (assign_extra (extra a) (extra b)).

(** The [defaults] object a call-site of kind [k] closes over:
    [{ type, ...this.options.defaults, ...types[type] }]. *)
Definition kind_defaults (o : ConsolaOptions) (k : string) (ty : InputLogObject)
  : InputLogObject :=
  spread (spread (mkInput None None (Some k) None None None None [])
                 (defaults o))
         ty.

(** [new Consola(options)] for [options : Partial<ConsolaOptions>]. *)
Record PartialOptions : Type := mkPartial {
  p_reporters : option (list nat);
  p_types : option (list (string * InputLogObject));
  p_level : level_input;
  p_defaults : option InputLogObject;
  p_throttle : option Z;
  p_throttleMin : option Z
}.

(** [defu(custom, LogTypes)] on a table of kinds: the keys of [LogTypes]
    come first, each entry of [custom] is completed by the level of the
    [LogTypes] entry of the same name. *)
Definition defu_entry (custom : list (string * InputLogObject))
    (kt : string * InputLogObject) : string * InputLogObject :=
  match lookup_type (fst kt) custom with
  | Some t => (fst kt, spread (snd kt) t)
  | None => kt
  end.

Definition defu_types (custom : list (string * InputLogObject))
  : list (string * InputLogObject) :=
  map (defu_entry custom) LogTypes
  ++ filter (fun kt => negb (bool_decide (is_Some (lookup_type (fst kt) LogTypes))))
            custom.

Definition new_Consola (o : PartialOptions) : Consola :=
  let types0 := default LogTypes (p_types o) in
  mkConsola
    (mkOptions (default [] (p_reporters o))
               (match p_types o with
                | Some t => defu_types t
                | None => LogTypes
                end)
               (_normalizeLogLevel (p_level o) types0 (Fin 3))
               (default emptyObj (p_defaults o))
               (default 1000 (p_throttle o))
               (default 5 (p_throttleMin o)))
    emptyLast.

Definition to_partial (o : ConsolaOptions) : PartialOptions :=
  mkPartial (Some (reporters o)) (Some (types o)) (LNum (opt_level o))
            (Some (defaults o)) (Some (throttle o)) (Some (throttleMin o)).

(** [get level()] and [set level(level)] *)
Definition get_level (c : Consola) : num := opt_level (options c).

Definition set_level (c : Consola) (l : level_input) : Consola :=
  let o := options c in
  mkConsola
    (mkOptions (reporters o) (types o)
               (_normalizeLogLevel l (types o) (opt_level o))
               (defaults o) (throttle o) (throttleMin o))
    (_lastLog c).

(** [create(options)]: [new Consola({ ...this.options, ...options })]; the
    callers below pass every key of [this.options]. *)
Definition create (c : Consola) (o : ConsolaOptions) : Consola :=
  new_Consola (to_partial o).

Definition withDefaults (c : Consola) (d : InputLogObject) : Consola :=
  let o := options c in
  create c (mkOptions (reporters o) (types o) (opt_level o)
                      (spread (defaults o) d) (throttle o) (throttleMin o)).

Definition withTag (c : Consola) (t : string) : Consola :=
  withDefaults c
    (mkInput None
       (Some (if truthy_str (tag (defaults (options c)))
              then default "" (tag (defaults (options c))) +:+ ":" +:+ t
              else t))
       None None None None None []).

Definition addReporter (c : Consola) (r : nat) : Consola :=
  let o := options c in
  mkConsola
    (mkOptions (reporters o ++ [r]) (types o) (opt_level o) (defaults o)
               (throttle o) (throttleMin o))
    (_lastLog c).

(** ** [src/consola.ts]: dispatch *)

(** [`${n}`] for an integer. *)
Definition show_Z (n : Z) : string := NilZero.string_of_int (Z.to_int n).

(** What [_logFn] leaves behind: the instance, the reporter calls it made,
    and its return value ([false] when the record is dropped). *)
Record Result : Type := mkResult {
  r_state : Consola;
  r_events : list event;
  r_ret : value
}.

Definition set_lastLog (c : Consola) (l : LastLog) : Consola :=
  mkConsola (options c) l.

(** [(defaults.level as number) || 0] *)
Definition filter_level (d : InputLogObject) : num :=
  match level d with
  | Some l => if Num.truthy l then l else Fin 0
  | None => Fin 0
  end.

(** [{ date: new Date(), args: [], ...defaults, level: ... }] *)
Definition new_logObj (c : Consola) (d : InputLogObject) (now : Z) : LogObject :=
  mkLog (default now (date d))
        (default [] (args d))
        (_normalizeLogLevel (level_input_of (level d)) (types (options c)) (Fin 3))
        (type d) (tag d) (message d) (additional d) (extra d).

(** [Object.assign(logObj, o)] *)
Definition Object_assign (l : LogObject) (o : InputLogObject) : LogObject :=
  mkLog (default (lo_date l) (date o))
        (default (lo_args l) (args o))
        (default (lo_level l) (level o))
        (or_else (type o) (lo_type l))
        (or_else (tag o) (lo_tag l))
        (or_else (message o) (lo_message l))
        (or_else (additional o) (lo_additional l))
        (assign_extra (lo_extra l) (extra o)).

Definition set_args (l : LogObject) (a : list value) : LogObject :=
  mkLog (lo_date l) a (lo_level l) (lo_type l) (lo_tag l) (lo_message l)
        (lo_additional l) (lo_extra l).

(** [!isRaw && args.length === 1 && isLogObj(args[0])] *)
Definition merges (a : list value) (isRaw : bool) : bool :=
  negb isRaw && Nat.eqb (length a) 1 && isLogObj (hd VUndef a).

Definition take_args (l : LogObject) (a : list value) (isRaw : bool)
  : LogObject :=
  if merges a isRaw then
    match hd VUndef a with
    | VObj o => Object_assign l o
    | _ => l
    end
  else set_args l a.

(** [if (logObj.message) { args.unshift(message); delete logObj.message }] *)
Definition alias_message (l : LogObject) : LogObject :=
  match lo_message l with
  | Some m =>
      if truthy m then
        mkLog (lo_date l) (m :: lo_args l) (lo_level l) (lo_type l)
              (lo_tag l) None (lo_additional l) (lo_extra l)
      else l
  | None => l
  end.

(** [if (logObj.additional) { ... args.push("\n" + additional.join("\n")) }] *)
Definition alias_additional (l : LogObject) : LogObject :=
  let push (lines : list string) :=
    mkLog (lo_date l) (lo_args l ++ [VStr (nl +:+ join nl lines)]) (lo_level l)
          (lo_type l) (lo_tag l) (lo_message l) None (lo_extra l) in
  match lo_additional l with
  | Some (inl s) => if truthy_str (Some s) then push (split_nl s) else l
  | Some (inr lines) => push lines
  | None => l
  end.

(** Lower-cased type, string tag. *)
Definition normalize_kind (l : LogObject) : LogObject :=
  mkLog (lo_date l) (lo_args l) (lo_level l)
        (Some (match lo_type l with
               | Some t => toLowerCase t
               | None => "log"
               end))
        (Some (default "" (lo_tag l)))
        (lo_message l) (lo_additional l) (lo_extra l).

(** The log object of one dispatch, as [_logFn] builds it before the
    throttle. *)
Definition build_logObj (c : Consola) (d : InputLogObject) (a : list value)
    (isRaw : bool) (now : Z) : LogObject :=
  normalize_kind
    (alias_additional (alias_message (take_args (new_logObj c d now) a isRaw))).

(** [this._log(logObj)]: every reporter, in order. *)
Definition _log (c : Consola) (l : LogObject) : list event :=
  map (fun r => (r, l)) (reporters (options c)).

(** The first half of [resolveLog]: the pending repeats. *)
Definition flush_repeats (c : Consola) : Consola * list event :=
  let last := _lastLog c in
  let repeated := default 0 (count last) - throttleMin (options c) in
  match object last with
  | Some ob =>
      if 0 <? repeated then
        let a := lo_args ob
                 ++ (if 1 <? repeated
                     then [VStr ("(repeated " +:+ show_Z repeated +:+ " times)")]
                     else []) in
        (set_lastLog c (mkLast (serialized last) (object last) (Some 1)
                               (time last) (timeout last)),
         _log c (set_args ob a))
      else (c, [])
  | None => (c, [])
  end.

Definition resolveLog (c : Consola) (logObj : LogObject) (newLog : bool)
  : Consola * list event :=
  let '(c1, ev) := flush_repeats c in
  if newLog then
    let last := _lastLog c1 in
    (set_lastLog c1 (mkLast (serialized last) (Some logObj) (count last)
                            (time last) (timeout last)),
     ev ++ _log c1 logObj)
  else (c1, ev).

Section Dispatch.

(** [JSON.stringify]; [None] when it throws. *)
Variable JSON_stringify : value -> option string.

(** [[logObj.type, logObj.tag, logObj.args]] *)
Definition fingerprint (l : LogObject) : value :=
  VArr [ match lo_type l with Some t => VStr t | None => VUndef end;
         match lo_tag l with Some t => VStr t | None => VUndef end;
         VArr (lo_args l) ].

(** The throttle of [_logFn], from [clearTimeout] on. *)
Definition throttle_log (c : Consola) (logObj : LogObject) (now : Z)
  : Consola * list event :=
  let last := _lastLog c in
  let diffTime :=
    match time last with
    | Some t => lo_date logObj - t
    | None => 0
    end in
  let last1 := mkLast (serialized last) (object last) (count last)
                      (Some (lo_date logObj)) None in
  if diffTime <? throttle (options c) then
    match JSON_stringify (fingerprint logObj) with
    | Some s =>
        let isSameLog := bool_decide (serialized last = Some s) in
        let last2 := mkLast (Some s) (object last1) (count last1)
                            (time last1) (timeout last1) in
        if isSameLog then
          let n := default 0 (count last) + 1 in
          let last3 := mkLast (serialized last2) (object last2) (Some n)
                              (time last2) (timeout last2) in
          if throttleMin (options c) <? n then
            (set_lastLog c
               (mkLast (serialized last3) (object last3) (count last3)
                       (time last3) (Some (now + throttle (options c)))),
             [])
          else resolveLog (set_lastLog c last3) logObj true
        else resolveLog (set_lastLog c last2) logObj true
    | None => resolveLog (set_lastLog c last1) logObj true
    end
  else resolveLog (set_lastLog c last1) logObj true.

Definition _logFn (c : Consola) (d : InputLogObject) (a : list value)
    (isRaw : bool) (now : Z) : Result :=
  if Num.gtb (filter_level d) (get_level c) then mkResult c [] (VBool false)
  else
    let '(c', ev) := throttle_log c (build_logObj c d a isRaw now) now in
    mkResult c' ev VUndef.

(** The timer set by [_logFn] fires: [resolveLog()] without a new log. *)
Definition fire_timeout (c : Consola) : Consola * list event :=
  match timeout (_lastLog c) with
  | Some _ =>
      let last := _lastLog c in
      flush_repeats
        (set_lastLog c (mkLast (serialized last) (object last) (count last)
                               (time last) None))
  | None => (c, [])
  end.

End Dispatch.

(** ** [src/consola.ts]: the process-wide pause *)

(** One entry of the module-level [queue]: [[this, defaults, args, isRaw]].
    The instance is a reference into the store of instances. *)
Record QItem : Type := mkItem {
  q_this : nat;
  q_defaults : InputLogObject;
  q_args : list value;
  q_isRaw : bool
}.

(** The module-level [paused] and [queue], the live instances, and the
    calls made to the reporters so far. *)
Record World : Type := mkWorld {
  paused : bool;
  queue : list QItem;
  instances : gmap nat Consola;
  output : list event
}.

Section Pause.

Variable JSON_stringify : value -> option string.

(** [this._logFn(defaults, args, isRaw)] on the instance [this] of the
    store. *)
Definition call_logFn (w : World) (this : nat) (d : InputLogObject)
    (a : list value) (isRaw : bool) (now : Z) : World :=
  match instances w !! this with
  | Some c =>
      let r := _logFn JSON_stringify c d a isRaw now in
      mkWorld (paused w) (queue w) (<[this := r_state r]> (instances w))
              (output w ++ r_events r)
  | None => w
  end.

(** The call-site [_wrapLogFn(defaults, isRaw)] applied to [args]. *)
Definition _wrapLogFn (w : World) (this : nat) (d : InputLogObject)
    (isRaw : bool) (a : list value) (now : Z) : World :=
  if paused w then
    mkWorld (paused w) (queue w ++ [mkItem this d a isRaw]) (instances w)
            (output w)
  else call_logFn w this d a isRaw now.

Definition pauseLogs (w : World) : World :=
  mkWorld true (queue w) (instances w) (output w).

(** [for (const item of _queue) item[0]._logFn(item[1], item[2])]; the
    [i]-th call reads the clock at [clock i]. *)
Fixpoint drain (w : World) (_queue : list QItem) (clock : nat -> Z) : World :=
  match _queue with
  | [] => w
  | item :: rest =>
      drain (call_logFn w (q_this item) (q_defaults item) (q_args item)
                        false (clock O))
            rest (fun i => clock (S i))
  end.

Definition resumeLogs (w : World) (clock : nat -> Z) : World :=
  let _queue := queue w in
  drain (mkWorld false [] (instances w) (output w)) _queue clock.

End Pause.

(** ** A serialiser for the closed examples

    An instance of the [JSON_stringify] parameter: arrays, strings, integers,
    booleans and [null] print as JSON does (strings without escapes, of an
    object its message only); a BigInt makes it throw, as in JavaScript. *)
Definition quoted (s : string) : string :=
  String (ascii_of_nat 34) "" +:+ s +:+ String (ascii_of_nat 34) "".

Fixpoint sample_stringify (v : value) : option string :=
  match v with
  | VUndef | VNull => Some "null"
  | VBool true => Some "true"
  | VBool false => Some "false"
  | VNum (Fin z) => Some (show_Z z)
  | VNum _ => Some "null"
  | VStr s => Some (quoted s)
  | VBigInt _ => None
  | VArr xs =>
      let fix all (l : list value) : option (list string) :=
        match l with
        | [] => Some []
        | x :: l' =>
            match sample_stringify x, all l' with
            | Some s, Some ss => Some (s :: ss)
            | _, _ => None
            end
        end in
      match all xs with
      | Some ss => Some ("[" +:+ join "," ss +:+ "]")
      | None => None
      end
  | VObj o =>
      match message o with
      | Some m =>
          match sample_stringify m with
          | Some s => Some ("{" +:+ quoted "message" +:+ ":" +:+ s +:+ "}")
          | None => None
          end
      | None => Some "{}"
      end
  | VErr _ _ => Some "{}"
  end.

(** ** [src/utils/color.ts]: the colour names *)

Module Color.

(** [ColorName = keyof typeof colorDefs] *)
Inductive ColorName : Type :=
| reset | bold | dim | italic | underline | inverse | hidden | strikethrough
| black | red | green | yellow | blue | magenta | cyan | white | gray
| bgBlack | bgRed | bgGreen | bgYellow | bgBlue | bgMagenta | bgCyan | bgWhite
| blackBright | redBright | greenBright | yellowBright | blueBright
| magentaBright | cyanBright | whiteBright
| bgBlackBright | bgRedBright | bgGreenBright | bgYellowBright
| bgBlueBright | bgMagentaBright | bgCyanBright | bgWhiteBright.

End Color.

(** ** [src/utils/tree.ts] *)

Module Tree.

#[warnings="-register-all"] Inductive TreeItem : Type :=
| TStr (text : string)
| TObj (text : string) (children : option (list TreeItem))
       (color : option Color.ColorName).

Record TreeOptions : Type := mkTreeOptions {
  color : option Color.ColorName;
  prefix : option string;
  maxDepth : option Z;
  ellipsis : option string
}.

(** [`${x}`] for an optional string. *)
Definition tpl (x : option string) : string := default "undefined" x.

(** [options?.maxDepth != null && options.maxDepth <= 0] *)
Definition isLimit (options : TreeOptions) : bool :=
  match maxDepth options with
  | Some n => n <=? 0
  | None => false
  end.

Section Build.

(** [colorize] of [src/utils/color.ts]; what it returns depends on the
    colour support of the process. *)
Variable colorize : Color.ColorName -> string -> string.

(** The value returned when the depth limit is reached at [item]. *)
Definition limit_line (options : TreeOptions) (item : TreeItem) : string :=
  let ellipsis := tpl (prefix options) +:+ tpl (ellipsis options) +:+ nl in
  match item with
  | TStr _ => ellipsis
  | TObj _ _ (Some c) => colorize c ellipsis
  | TObj _ _ None => ellipsis
  end.

(** The [for] loop of [_buildTree]: [push item isLast] are the chunks
    one iteration appends. *)
Fixpoint for_items (limit : bool) (onLimit : TreeItem -> string)
    (push : TreeItem -> bool -> list string)
    (items : list TreeItem) (chunks : list string) : list string :=
  match items with
  | [] => chunks
  | item :: rest =>
      if limit then [onLimit item]
      else
        let isLast := match rest with [] => true | _ => false end in
        for_items limit onLimit push rest (chunks ++ push item isLast)
  end.

Definition child_options (options : TreeOptions) (isLast : bool)
  : TreeOptions :=
  mkTreeOptions (color options)
    (Some (tpl (prefix options) +:+ (if isLast then "  " else "│  ")))
    (match maxDepth options with
     | Some n => Some (n - 1)
     | None => None
     end)
    (ellipsis options).

(** The body of one iteration below the limit check. *)
Fixpoint push_item (options : TreeOptions) (item : TreeItem) (isLast : bool)
    {struct item} : list string :=
  let prefix :=
    if isLast then tpl (prefix options) +:+ "└─"
    else tpl (prefix options) +:+ "├─" in
  match item with
  | TStr text => [prefix +:+ text +:+ nl]
  | TObj text children color =>
      let log := prefix +:+ text +:+ nl in
      [match color with Some c => colorize c log | None => log end]
      ++ match children with
         | Some cs =>
             let o' := child_options options isLast in
             for_items (isLimit o') (limit_line o')
                       (fun it last => push_item o' it last) cs []
         | None => []
         end
  end.

Definition _buildTree (items : list TreeItem) (options : TreeOptions)
  : list string :=
  for_items (isLimit options) (limit_line options) (push_item options)
            items [].

Definition formatTree (items : list TreeItem) (options : TreeOptions)
  : string :=
  let options :=
    mkTreeOptions (color options)
                  (Some (default "  " (prefix options)))
                  (maxDepth options)
                  (Some (default "..." (ellipsis options))) in
  let tree := String.concat "" (_buildTree items options) in
  match color options with
  | Some c => colorize c tree
  | None => tree
  end.

End Build.

End Tree.

(** ** [src/utils/box.ts] *)

Module Box.

Record BoxBorderStyle : Type := mkBorder {
  tl : string; tr : string; bl : string; br : string; h : string; v : string
}.

Definition boxStylePresets : list (string * BoxBorderStyle) :=
  [ ("solid", mkBorder "┌" "┐" "└" "┘" "─" "│");
    ("double", mkBorder "╔" "╗" "╚" "╝" "═" "║");
    ("doubleSingle", mkBorder "╓" "╖" "╙" "╜" "─" "║");
    ("doubleSingleRounded", mkBorder "╭" "╮" "╰" "╯" "─" "║");
    ("singleThick", mkBorder "┏" "┓" "┗" "┛" "━" "┃");
    ("singleDouble", mkBorder "╒" "╕" "╘" "╛" "═" "│");
    ("singleDoubleRounded", mkBorder "╭" "╮" "╰" "╯" "═" "│");
    ("rounded", mkBorder "╭" "╮" "╰" "╯" "─" "│") ].

Fixpoint preset (name : string) (ps : list (string * BoxBorderStyle))
  : option BoxBorderStyle :=
  match ps with
  | [] => None
  | (k, b) :: rest => if String.eqb name k then Some b else preset name rest
  end.

Inductive valign_t : Type := top | center | bottom.

Record BoxStyle : Type := mkStyle {
  borderColor : Color.ColorName;
  borderStyle : BoxBorderStyle + string;
  valign : valign_t;
  padding : Z;
  marginLeft : Z;
  marginTop : Z;
  marginBottom : Z
}.

(** [Partial<BoxStyle>] *)
Record PartialStyle : Type := mkPartialStyle {
  p_borderColor : option Color.ColorName;
  p_borderStyle : option (BoxBorderStyle + string);
  p_valign : option valign_t;
  p_padding : option Z;
  p_marginLeft : option Z;
  p_marginTop : option Z;
  p_marginBottom : option Z
}.

Record BoxOpts : Type := mkBoxOpts {
  title : option string;
  style : option PartialStyle
}.

Definition defaultStyle : BoxStyle :=
  mkStyle Color.white (inr "rounded") center 2 1 1 1.

Definition noStyle : PartialStyle :=
  mkPartialStyle None None None None None None None.

(** [{ ...defaultStyle, ..._opts.style }] *)
Definition merge_style (s : option PartialStyle) : BoxStyle :=
  let s := default noStyle s in
  mkStyle (default (borderColor defaultStyle) (p_borderColor s))
          (default (borderStyle defaultStyle) (p_borderStyle s))
          (default (valign defaultStyle) (p_valign s))
          (default (padding defaultStyle) (p_padding s))
          (default (marginLeft defaultStyle) (p_marginLeft s))
          (default (marginTop defaultStyle) (p_marginTop s))
          (default (marginBottom defaultStyle) (p_marginBottom s)).

(** [s.length]: UTF-16 code units of a string held as UTF-8 bytes; a
    continuation byte counts for nothing, the lead byte of a four-byte
    sequence for two. *)
Fixpoint js_length (s : string) : Z :=
  match s with
  | EmptyString => 0
  | String c s' =>
      let n := nat_of_ascii c in
      (if (Nat.leb 128 n && Nat.ltb n 192)%bool then 0
       else if Nat.leb 240 n then 2 else 1) + js_length s'
  end.

Fixpoint repeat_nat (s : string) (n : nat) : string :=
  match n with
  | O => ""
  | S n' => s +:+ repeat_nat s n'
  end.

(** [s.repeat(n)]: a negative count throws a [RangeError]. *)
Definition js_repeat (s : string) (n : Z) : option string :=
  if n <? 0 then None else Some (repeat_nat s (Z.to_nat n)).

(** [Math.max(...xs)] for a non-empty list. *)
Definition max_list (xs : list Z) : Z :=
  match xs with
  | [] => 0
  | x :: rest => fold_left Z.max rest x
  end.

Section Draw.

(** [getColor] of [src/utils/color.ts] and [stripAnsi] of
    [src/utils/string.ts]. *)
Variable getColor : Color.ColorName -> string -> string.
Variable stripAnsi : string -> string.

Definition paint (c : string -> string) (b : BoxBorderStyle)
  : BoxBorderStyle :=
  mkBorder (c (tl b)) (c (tr b)) (c (bl b)) (c (br b)) (c (h b)) (c (v b)).

(** One row of the interior, [i] counted from [0]. *)
Definition row (leftSpace : string) (b : BoxBorderStyle)
    (textLines : list string) (paddingOffset width widthOffset : Z)
    (valignOffset : Z) (i : Z) : option string :=
  if (i <? valignOffset) || (valignOffset + Z.of_nat (length textLines) <=? i)
  then
    sp ← js_repeat " " widthOffset;
    Some (leftSpace +:+ v b +:+ sp +:+ v b)
  else
    let line := default "undefined" (textLines !! Z.to_nat (i - valignOffset)) in
    left ← js_repeat " " paddingOffset;
    right ← js_repeat " " (width - js_length (stripAnsi line));
    Some (leftSpace +:+ v b +:+ left +:+ line +:+ right +:+ v b).

(** The array [boxLines] of [box(text, _opts)] before it is joined;
    [None] when a [repeat] throws. *)
Definition boxLines (text : string) (_opts : BoxOpts)
  : option (list string) :=
  let st := merge_style (style _opts) in
  let textLines := split_nl text in
  let _color := getColor (borderColor st) in
  let b :=
    paint _color
      match borderStyle st with
      | inr name =>
          default (mkBorder "┌" "┐" "└" "┘" "─" "│")
                  (preset name boxStylePresets)
      | inl custom => custom
      end in
  let paddingOffset :=
    if Z.rem (padding st) 2 =? 0 then padding st else padding st + 1 in
  let height := Z.of_nat (length textLines) + paddingOffset in
  let width :=
    max_list (map (fun line => js_length (stripAnsi line)) textLines)
    + paddingOffset in
  let widthOffset := width + paddingOffset in
  leftSpace ← (if 0 <? marginLeft st then js_repeat " " (marginLeft st)
               else Some "");
  marginT ← (if 0 <? marginTop st
             then s ← js_repeat "" (marginTop st); Some [s]
             else Some []);
  topLine ←
    (if truthy_str (title _opts) then
       let t := default "" (title _opts) in
       left ← js_repeat (h b) ((width - js_length (stripAnsi t)) `div` 2);
       right ← js_repeat (h b)
                 (width - js_length (stripAnsi t)
                  - js_length (stripAnsi left) + paddingOffset);
       Some (leftSpace +:+ tl b +:+ left +:+ _color t +:+ right +:+ tr b)
     else
       hs ← js_repeat (h b) widthOffset;
       Some (leftSpace +:+ tl b +:+ hs +:+ tr b));
  let valignOffset :=
    match valign st with
    | center => (height - Z.of_nat (length textLines)) `div` 2
    | top => height - Z.of_nat (length textLines) - paddingOffset
    | bottom => height - Z.of_nat (length textLines)
    end in
  rows ← mapM (row leftSpace b textLines paddingOffset width widthOffset
                   valignOffset)
              (map Z.of_nat (seq 0 (Z.to_nat height)));
  hs ← js_repeat (h b) widthOffset;
  let bottomLine := leftSpace +:+ bl b +:+ hs +:+ br b in
  marginB ← (if 0 <? marginBottom st
             then s ← js_repeat "" (marginBottom st); Some [s]
             else Some []);
  Some (marginT ++ [topLine] ++ rows ++ [bottomLine] ++ marginB).

(** [box(text, _opts)]: [boxLines.join("\n")]. *)
Definition box (text : string) (_opts : BoxOpts) : option string :=
  join nl <$> boxLines text _opts.

End Draw.

End Box.

(** ** Sequences of calls *)

(** One call [_logFn(defaults, args, isRaw)] made at time [now]. *)
Record Dispatch : Type := mkDispatch {
  dp_defaults : InputLogObject;
  dp_args : list value;
  dp_isRaw : bool;
  dp_now : Z
}.

(** The calls of [ds] on one instance, one after the other; the reporter
    calls of each are kept apart. *)
Fixpoint dispatch_all (stringify : value -> option string) (c : Consola)
    (ds : list Dispatch) : Consola * list (list event) :=
  match ds with
  | [] => (c, [])
  | d :: rest =>
      let r := _logFn stringify c (dp_defaults d) (dp_args d) (dp_isRaw d)
                      (dp_now d) in
      let '(c', evs) := dispatch_all stringify (r_state r) rest in
      (c', r_events r :: evs)
  end.

(** One use of a call-site: the instance, the [defaults] and [isRaw] the
    call-site closes over, the arguments and the time of the call. *)
Record Call : Type := mkCall {
  cl_this : nat;
  cl_defaults : InputLogObject;
  cl_isRaw : bool;
  cl_args : list value;
  cl_now : Z
}.

Definition call_all (stringify : value -> option string) (w : World)
    (cs : list Call) : World :=
  fold_left
    (fun w c =>
       _wrapLogFn stringify w (cl_this c) (cl_defaults c) (cl_isRaw c)
                  (cl_args c) (cl_now c))
    cs w.

Definition item_of (c : Call) : QItem :=
  mkItem (cl_this c) (cl_defaults c) (cl_args c) (cl_isRaw c).

(** The world after the first [k] of the queued items were handed one by
    one to [_logFn] of their instance, the [i]-th at time [clock i]. *)
Fixpoint replayed (stringify : value -> option string) (w : World)
    (items : list QItem) (clock : nat -> Z) (k : nat) : World :=
  match k with
  | O => w
  | S k' =>
      let w' := replayed stringify w items clock k' in
      match items !! k' with
      | Some it =>
          call_logFn stringify w' (q_this it) (q_defaults it) (q_args it)
                     false (clock k')
      | None => w'
      end
  end.

(** ** Auxiliary definitions for the statements *)

Definition set_date (l : LogObject) (t : Z) : LogObject :=
  mkLog t (lo_args l) (lo_level l) (lo_type l) (lo_tag l) (lo_message l)
        (lo_additional l) (lo_extra l).

(** The date a dispatch takes from its defaults or from a merged object,
    instead of the time of the call. *)
Definition given_date (d : InputLogObject) (a : list value) (isRaw : bool)
  : option Z :=
  if merges a isRaw then
    match hd VUndef a with
    | VObj o => or_else (date o) (date d)
    | _ => date d
    end
  else date d.

(** The tag a merged log object brings. *)
Definition merged_tag (a : list value) (isRaw : bool) : option string :=
  if merges a isRaw then
    match hd VUndef a with
    | VObj o => tag o
    | _ => None
    end
  else None.

(** The left margin of [box]: [" ".repeat(marginLeft)], nothing when the
    margin is not positive. *)
Definition leftSpace_of (opts : Box.BoxOpts) : string :=
  Box.repeat_nat " " (Z.to_nat (Box.marginLeft (Box.merge_style (Box.style opts)))).

(** The colour functions of a process without colour support
    ([createColors(false)]: every entry is [String]), and [stripAnsi] on
    texts that hold no escape sequence. *)
Definition plain_color (c : Color.ColorName) (s : string) : string := s.
Definition no_escapes (s : string) : string := s.

(** ** Sample instances for the closed examples *)

(** Two reporters, the stock kinds, threshold 3, the stock throttle. *)
Definition sample_options : ConsolaOptions :=
  mkOptions [0%nat; 1%nat] LogTypes (Fin 3) emptyObj 1000 5.

Definition sample_instance : Consola := mkConsola sample_options emptyLast.

(** The [defaults] of the call-sites [log], [debug], of a kind [custom]
    configured without a level, and of a kind [quiet] of level negative
    infinity. *)
Definition sample_log : InputLogObject :=
  kind_defaults sample_options "log" (withLevel (Fin 2)).

Definition sample_debug : InputLogObject :=
  kind_defaults sample_options "debug" (withLevel (Fin 4)).

Definition sample_custom : InputLogObject :=
  kind_defaults sample_options "custom" emptyObj.

Definition sample_quiet : InputLogObject :=
  kind_defaults sample_options "quiet" (withLevel NInf).

(** [{ message: m }] *)
Definition with_message (m : value) : InputLogObject :=
  mkInput None None None (Some m) None None None [].

(** Two live instances: the sample one and its child tagged ["api"]. *)
Definition sample_world : World :=
  mkWorld false []
          {[ 0%nat := sample_instance; 1%nat := withTag sample_instance "api" ]}
          [].

(** The arguments of the reporter calls. *)
Definition rendered_args (evs : list event) : list (nat * list value) :=
  map (fun e => (fst e, lo_args (snd e))) evs.

(** ** [src/consola.ts]: the reporters of an instance *)

Definition set_reporters (c : Consola) (rs : list nat) : Consola :=
  let o := options c in
  mkConsola
    (mkOptions rs (types o) (opt_level o) (defaults o) (throttle o)
               (throttleMin o))
    (_lastLog c).

(** [reporters.indexOf(reporter)] *)
Fixpoint indexOf (r : nat) (rs : list nat) : option nat :=
  match rs with
  | [] => None
  | x :: rest => if Nat.eqb x r then Some O else S <$> indexOf r rest
  end.

(** [reporters.splice(i, 1)]: what is left, and what is removed. *)
Definition splice1 (i : nat) (rs : list nat) : list nat * list nat :=
  (take i rs ++ drop (S i) rs, take 1 (drop i rs)).

(** [removeReporter(reporter)]: with a reporter found in the list the call
    returns the removed elements ([Some]); in all other cases it returns
    [this] ([None]).  [reporter = None] is the call without argument. *)
Definition removeReporter (c : Consola) (reporter : option nat)
  : Consola * option (list nat) :=
  match reporter with
  | Some r =>
      match indexOf r (reporters (options c)) with
      | Some i =>
          let '(kept, removed) := splice1 i (reporters (options c)) in
          (set_reporters c kept, Some removed)
      | None => (c, None)
      end
  | None => (set_reporters c [], None)
  end.

(** [setReporters(reporters)]: an array, or one reporter. *)
Definition setReporters (c : Consola) (rs : list nat + nat) : Consola :=
  set_reporters c match rs with inl l => l | inr r => [r] end.

(** ** More auxiliary definitions for the statements *)

(** The object a call merges into its log object, if any. *)
Definition merged_obj (a : list value) (isRaw : bool) : option InputLogObject :=
  if merges a isRaw then
    match hd VUndef a with
    | VObj o => Some o
    | _ => None
    end
  else None.

(** The type a merged log object brings. *)
Definition merged_type (a : list value) (isRaw : bool) : option string :=
  if merges a isRaw then
    match hd VUndef a with
    | VObj o => type o
    | _ => None
    end
  else None.

(** A string of ASCII characters only, on which [toLowerCase] above is
    [String.prototype.toLowerCase]; a string with one of the letters
    [A] to [Z]. *)
Definition is_ascii (s : string) : bool :=
  forallb (fun ch => Nat.ltb (nat_of_ascii ch) 128) (list_ascii_of_string s).

Definition is_upper (ch : ascii) : bool :=
  (Nat.leb 65 (nat_of_ascii ch) && Nat.leb (nat_of_ascii ch) 90)%bool.

Definition has_upper (s : string) : bool :=
  existsb is_upper (list_ascii_of_string s).

(** [{ ...o, additional }] *)
Definition with_additional (o : InputLogObject) (ad : string + list string)
  : InputLogObject :=
  mkInput (level o) (tag o) (type o) (message o) (Some ad) (args o) (date o)
          (extra o).

(** What [message] and [additional] contribute to the arguments. *)
Definition message_args (m : option value) : list value :=
  match m with
  | Some v => if truthy v then [v] else []
  | None => []
  end.

Definition additional_args (ad : option (string + list string)) : list value :=
  match ad with
  | Some (inl s) =>
      if truthy_str (Some s) then [VStr (nl +:+ join nl (split_nl s))] else []
  | Some (inr lines) => [VStr (nl +:+ join nl lines)]
  | None => []
  end.

(** Consecutive times less than [w] apart, starting from [t]. *)
Fixpoint in_window (w : Z) (t : Z) (ts : list Z) : Prop :=
  match ts with
  | [] => True
  | t' :: rest => t' - t < w /\ in_window w t' rest
  end.

(** The suffix [resolveLog] appends for [repeated] pending repeats. *)
Definition repeated_suffix (repeated : Z) : list value :=
  if 1 <? repeated
  then [VStr ("(repeated " +:+ show_Z repeated +:+ " times)")]
  else [].

(** The calls [cs] with the [i]-th made at time [clock i]. *)
Definition retimed (cs : list Call) (clock : nat -> Z) : list Call :=
  imap (fun i c => mkCall (cl_this c) (cl_defaults c) (cl_isRaw c) (cl_args c)
                          (clock i))
       cs.

(** The sample instance after ["SPAM"] was logged at 0, 1, ..., 5 ms. *)
Definition sample_after_six : Consola :=
  fst (dispatch_all sample_stringify sample_instance
         (map (mkDispatch sample_log [VStr "SPAM"] false) [0; 1; 2; 3; 4; 5])).

(** ** [src/utils/color.ts] *)

(** In the rest of the definitions a string is the list of its UTF-16 code
    units, so that [length], [indexOf] and [slice] count as the source
    does. *)
Definition ustring : Type := list N.

Definition units (s : string) : ustring :=
  map N_of_ascii (list_ascii_of_string s).

Section Search.

Context {A : Type} `{EqDecision A}.

(** [s.indexOf(p)]: the least index at which [p] starts in [s]. *)
Fixpoint search (p s : list A) : option nat :=
  match s with
  | [] => if bool_decide (p `prefix_of` []) then Some 0%nat else None
  | _ :: s' =>
      if bool_decide (p `prefix_of` s) then Some 0%nat else S <$> search p s'
  end.

(** [s.indexOf(p, pos)] for a position that is not negative; a position
    behind the end counts as the end. *)
Definition str_indexOf (s p : list A) (pos : nat) : option nat :=
  let pos := Nat.min pos (length s) in
  (fun i => (pos + i)%nat) <$> search p (drop pos s).

(** [replaceClose(index, string, close, replace)], called with the index
    of an occurrence of [close]; [None] when the recursion does not end
    within [fuel] calls. *)
Fixpoint replaceClose_rec (fuel : nat) (index : nat)
    (string close replace : list A) : option (list A) :=
  match fuel with
  | O => None
  | S fuel' =>
      let head := take index string ++ replace in
      let tail := drop (index + length close) string in
      match str_indexOf tail close 0 with
      | None => Some (head ++ tail)
      | Some next =>
          (fun r => head ++ r)
            <$> replaceClose_rec fuel' next tail close replace
      end
  end.

(** Every call but the last one shortens the string when [close] is not
    empty; with an empty [close] the recursion has no end. *)
Definition replaceClose (index : nat) (string close replace : list A)
  : option (list A) :=
  replaceClose_rec (S (length string)) index string close replace.

(** [clearBleed(index, string, open, close, replace)]; [index < 0] is
    [None]. *)
Definition clearBleed (index : option nat) (string open close replace : list A)
  : option (list A) :=
  match index with
  | None => Some (open ++ string ++ close)
  | Some i =>
      r ← replaceClose i string close replace;
      Some (open ++ r ++ close)
  end.

(** [filterEmpty(open, close, replace = open, at = open.length + 1)]
    applied to a string. *)
Definition filterEmpty (open close : list A) (replace : option (list A))
    (string : list A) : option (list A) :=
  let replace := default open replace in
  let at_ := (length open + 1)%nat in
  match string with
  | [] => Some []
  | _ => clearBleed (str_indexOf string close at_) string open close replace
  end.

End Search.

Definition ESC : string := String (ascii_of_nat 27) "".

(** [`\u001B[${n}m`] *)
Definition code (n : nat) : ustring :=
  units (ESC +:+ "[" +:+ show_Z (Z.of_nat n) +:+ "m").

(** [init(open, close, replace)] *)
Definition init (open close : nat) (replace : option ustring)
  : ustring -> option ustring :=
  filterEmpty (code open) (code close) replace.

(** The arguments of [init] in each entry of [colorDefs]. *)
Definition color_codes (c : Color.ColorName)
  : nat * nat * option ustring :=
  match c with
  | Color.reset => (0, 0, None)
  | Color.bold => (1, 22, Some (code 22 ++ code 1))
  | Color.dim => (2, 22, Some (code 22 ++ code 2))
  | Color.italic => (3, 23, None)
  | Color.underline => (4, 24, None)
  | Color.inverse => (7, 27, None)
  | Color.hidden => (8, 28, None)
  | Color.strikethrough => (9, 29, None)
  | Color.black => (30, 39, None)
  | Color.red => (31, 39, None)
  | Color.green => (32, 39, None)
  | Color.yellow => (33, 39, None)
  | Color.blue => (34, 39, None)
  | Color.magenta => (35, 39, None)
  | Color.cyan => (36, 39, None)
  | Color.white => (37, 39, None)
  | Color.gray => (90, 39, None)
  | Color.bgBlack => (40, 49, None)
  | Color.bgRed => (41, 49, None)
  | Color.bgGreen => (42, 49, None)
  | Color.bgYellow => (43, 49, None)
  | Color.bgBlue => (44, 49, None)
  | Color.bgMagenta => (45, 49, None)
  | Color.bgCyan => (46, 49, None)
  | Color.bgWhite => (47, 49, None)
  | Color.blackBright => (90, 39, None)
  | Color.redBright => (91, 39, None)
  | Color.greenBright => (92, 39, None)
  | Color.yellowBright => (93, 39, None)
  | Color.blueBright => (94, 39, None)
  | Color.magentaBright => (95, 39, None)
  | Color.cyanBright => (96, 39, None)
  | Color.whiteBright => (97, 39, None)
  | Color.bgBlackBright => (100, 49, None)
  | Color.bgRedBright => (101, 49, None)
  | Color.bgGreenBright => (102, 49, None)
  | Color.bgYellowBright => (103, 49, None)
  | Color.bgBlueBright => (104, 49, None)
  | Color.bgMagentaBright => (105, 49, None)
  | Color.bgCyanBright => (106, 49, None)
  | Color.bgWhiteBright => (107, 49, None)
  end%nat.

Definition colorDefs (c : Color.ColorName) : ustring -> option ustring :=
  let '(open, close, replace) := color_codes c in init open close replace.

(** [createColors(useColor)]: without colours every entry is [String],
    which gives a string back as it is. *)
Definition createColors (useColor : bool) (c : Color.ColorName)
  : ustring -> option ustring :=
  if useColor then colorDefs c else Some.

(** [getColor(color, fallback)]: [colors[color] || colors[fallback]], where
    [colors = createColors()] and the entry of every [ColorName] is a
    function. *)
Definition getColor (useColor : bool) (color fallback : Color.ColorName)
  : ustring -> option ustring :=
  createColors useColor color.

(** [colorize(color, text)] for a text that is a string. *)
Definition colorize (useColor : bool) (color : Color.ColorName)
    (text : ustring) : option ustring :=
  getColor useColor color Color.reset text.

(** The text [u0 + sep + u1 + sep + ... + un]. *)
Fixpoint joined {A} (sep u : list A) (us : list (list A)) : list A :=
  match us with
  | [] => u
  | u' :: rest => u ++ sep ++ joined sep u' rest
  end.

(** The occurrences of [close] that a scan from the left meets in
    [joined close u us], the first search starting at [pos], are the
    separators: the search in a part that is not the last one ends at the
    separator behind it, the search in the last part finds nothing. *)
Fixpoint scanned {A} `{EqDecision A} (pos : nat) (close u : list A)
    (us : list (list A)) : Prop :=
  match us with
  | [] => str_indexOf u close pos = None
  | u' :: rest =>
      str_indexOf (u ++ close) close pos = Some (length u)
      /\ scanned 0 close u' rest
  end.

(** ** [src/utils/string.ts] *)

(** [for (let i = 0; i < len; i++) { _str += f(i) }] from [_str = ""] *)
Definition accumulate (len : Z) (f : Z -> ustring) : ustring :=
  fold_left (fun _str i => _str ++ f (Z.of_nat i)) (seq 0 (Z.to_nat len)) [].

(** [str[i]] inside a concatenation. *)
Definition char_at (str : ustring) (i : Z) : ustring :=
  match (if i <? 0 then None else str !! Z.to_nat i) with
  | Some c => [c]
  | None => units "undefined"
  end.

Definition centerAlign (str : ustring) (len : Z) (space : ustring) : ustring :=
  let free := len - Z.of_nat (length str) in
  if free <=? 0 then str
  else
    let freeLeft := free `div` 2 in
    accumulate len (fun i =>
      if (i <? freeLeft) || (freeLeft + Z.of_nat (length str) <=? i)
      then space else char_at str (i - freeLeft)).

Definition rightAlign (str : ustring) (len : Z) (space : ustring) : ustring :=
  let free := len - Z.of_nat (length str) in
  if free <=? 0 then str
  else accumulate len (fun i => if i <? free then space else char_at str (i - free)).

Definition leftAlign (str : ustring) (len : Z) (space : ustring) : ustring :=
  accumulate len (fun i =>
    if i <? Z.of_nat (length str) then char_at str i else space).

Inductive alignment : Type := left_ | right_ | center_.

(** [align(alignment, str, len, space)] for an alignment the type allows. *)
Definition align (a : alignment) (str : ustring) (len : Z) (space : ustring)
  : ustring :=
  match a with
  | left_ => leftAlign str len space
  | right_ => rightAlign str len space
  | center_ => centerAlign str len space
  end.

(** [k] copies of [space]. *)
Definition padding_of (space : ustring) (k : Z) : ustring :=
  concat (replicate (Z.to_nat k) space).

(** The opening code, the closing code and the replacement of a colour. *)
Definition open_of (c : Color.ColorName) : ustring :=
  code (fst (fst (color_codes c))).

Definition close_of (c : Color.ColorName) : ustring :=
  code (snd (fst (color_codes c))).

Definition replace_of (c : Color.ColorName) : ustring :=
  default (open_of c) (snd (color_codes c)).

(** ** The parts of a box *)

Section BoxParts.

Variable getColor : Color.ColorName -> string -> string.
Variable stripAnsi : string -> string.
Variable text : string.
Variable opts : Box.BoxOpts.

Let st := Box.merge_style (Box.style opts).

(** The border of the box, each of its strings coloured. *)
Definition box_border : Box.BoxBorderStyle :=
  Box.paint (getColor (Box.borderColor st))
    match Box.borderStyle st with
    | inr name =>
        default (Box.mkBorder "┌" "┐" "└" "┘" "─" "│")
                (Box.preset name Box.boxStylePresets)
    | inl custom => custom
    end.

(** [paddingOffset]: the padding, made even. *)
Definition box_paddingOffset : Z :=
  if Z.rem (Box.padding st) 2 =? 0 then Box.padding st
  else Box.padding st + 1.

(** [width]: the widest line of the text and the padding. *)
Definition box_width : Z :=
  Box.max_list
    (map (fun line => Box.js_length (stripAnsi line)) (split_nl text))
  + box_paddingOffset.

(** [valignOffset]: the rows without text above the text. *)
Definition box_valignOffset : Z :=
  match Box.valign st with
  | Box.top => 0
  | Box.center => box_paddingOffset `div` 2
  | Box.bottom => box_paddingOffset
  end.

Definition box_top_line : string :=
  leftSpace_of opts +:+ Box.tl box_border
  +:+ Box.repeat_nat (Box.h box_border)
        (Z.to_nat (box_width + box_paddingOffset))
  +:+ Box.tr box_border.

Definition box_bottom_line : string :=
  leftSpace_of opts +:+ Box.bl box_border
  +:+ Box.repeat_nat (Box.h box_border)
        (Z.to_nat (box_width + box_paddingOffset))
  +:+ Box.br box_border.

Definition box_blank_row : string :=
  leftSpace_of opts +:+ Box.v box_border
  +:+ Box.repeat_nat " " (Z.to_nat (box_width + box_paddingOffset))
  +:+ Box.v box_border.

Definition box_text_row (line : string) : string :=
  leftSpace_of opts +:+ Box.v box_border
  +:+ Box.repeat_nat " " (Z.to_nat box_paddingOffset)
  +:+ line
  +:+ Box.repeat_nat " "
        (Z.to_nat (box_width - Box.js_length (stripAnsi line)))
  +:+ Box.v box_border.

End BoxParts.

(** ** The nodes of a tree *)

(** The text and the colour of every node, a node before its children and
    the children in their order. *)
Fixpoint preorder_item (item : Tree.TreeItem)
  : list (string * option Color.ColorName) :=
  match item with
  | Tree.TStr text => [(text, None)]
  | Tree.TObj text children color =>
      (text, color)
      :: match children with
         | Some cs => flat_map preorder_item cs
         | None => []
         end
  end.

Definition preorder (items : list Tree.TreeItem)
  : list (string * option Color.ColorName) :=
  flat_map preorder_item items.

(** A chunk that is the line of the node: the text of the node behind
    some indentation and before a newline, coloured when the node has a
    colour. *)
Definition line_of (colorize : Color.ColorName -> string -> string)
    (chunk : string) (node : string * option Color.ColorName) : Prop :=
  exists indent,
    chunk = match snd node with
            | Some c => colorize c (indent +:+ fst node +:+ nl)
            | None => indent +:+ fst node +:+ nl
            end.

(** What a tree cut at a depth shows: the line of a node, or the ellipsis
    line that stands for a list of children, with the colour of the first
    child. *)
Inductive shown_line : Type :=
| NodeLine (text : string) (color : option Color.ColorName)
| EllipsisLine (color : option Color.ColorName).

Definition item_color (item : Tree.TreeItem) : option Color.ColorName :=
  match item with
  | Tree.TStr _ => None
  | Tree.TObj _ _ color => color
  end.

(** The lines of an item whose children may be followed [n] levels
    down. *)
Fixpoint cut_item (item : Tree.TreeItem) (n : nat) {struct item}
  : list shown_line :=
  match item with
  | Tree.TStr text => [NodeLine text None]
  | Tree.TObj text children color =>
      NodeLine text color
      :: match children with
         | None => []
         | Some cs =>
             match n with
             | O => match cs with
                    | [] => []
                    | first :: _ => [EllipsisLine (item_color first)]
                    end
             | S n' => flat_map (fun c => cut_item c n') cs
             end
         end
  end.

(** A chunk that is the given line, for the ellipsis text [dots]. *)
Definition shows (colorize : Color.ColorName -> string -> string)
    (dots : string) (chunk : string) (line : shown_line) : Prop :=
  exists indent,
    match line with
    | NodeLine text (Some c) => chunk = colorize c (indent +:+ text +:+ nl)
    | NodeLine text None => chunk = indent +:+ text +:+ nl
    | EllipsisLine (Some c) => chunk = colorize c (indent +:+ dots +:+ nl)
    | EllipsisLine None => chunk = indent +:+ dots +:+ nl
    end.

(** ** [src/consola.ts]: the methods of the global [console] *)

(** A function held by a property of [console]: one the console came with
    (or that somebody else put there), or [this[kind].raw] of an
    instance. *)
Inductive method : Type :=
| Native (name : string)
| RawSite (this : nat) (kind : string).

(** The global [console] is held as a [gmap string method]: the properties
    that hold a function.  Reading any other property gives [undefined],
    which the code below only tests for truthiness or stores back. *)

(** [object[k] = v], where [v] may be [undefined]. *)
Definition set_prop (console : gmap string method) (k : string) (v : option method)
  : gmap string method :=
  match v with
  | Some f => <[k := f]> console
  | None => delete k console
  end.

(** ["__" + type] *)
Definition saved (type : string) : string := "__" +:+ type.

(** The kinds for which the constructor defines [this[type]]: the keys of
    [options.types || LogTypes]. *)
Definition call_sites (p : PartialOptions) : list string :=
  map fst (default LogTypes (p_types p)).

(** The loop of [wrapConsole] over the kinds of [this.options.types];
    [sites] are the kinds for which [this[type]] is defined.  Reading
    [.raw] of an undefined [this[type]] throws a [TypeError], which ends
    the loop: the second component tells whether the loop reached its
    end. *)
Fixpoint wrapConsole_loop (this : nat) (sites kinds : list string)
    (console : gmap string method) : gmap string method * bool :=
  match kinds with
  | [] => (console, true)
  | type :: rest =>
      let console1 :=
        match console !! saved type with
        | Some _ => console
        | None => set_prop console (saved type) (console !! type)
        end in
      if bool_decide (type ∈ sites)
      then wrapConsole_loop this sites rest
             (<[type := RawSite this type]> console1)
      else (console1, false)
  end.

Definition wrapConsole (this : nat) (sites : list string) (c : Consola)
    (console : gmap string method) : gmap string method * bool :=
  wrapConsole_loop this sites (map fst (types (options c))) console.

Definition restoreConsole_loop (kinds : list string) (console : gmap string method)
  : gmap string method :=
  fold_left
    (fun console type =>
       match console !! saved type with
       | Some f => delete (saved type) (<[type := f]> console)
       | None => console
       end)
    kinds console.

Definition restoreConsole (c : Consola) (console : gmap string method) : gmap string method :=
  restoreConsole_loop (map fst (types (options c))) console.

(** ** [src/consola.ts] and [src/utils/stream.ts]: wrapped streams *)

(** A function held by [stream.write]: one the stream came with, or the
    wrapper of an instance, which hands [String(data).trim()] to
    [this[type].raw]. *)
Inductive write_fn : Type :=
| NativeWrite (name : string)
| TrimToRaw (this : nat) (type : string).

(** The two properties of a stream the wrappers touch. *)
Record Stream : Type := mkStream {
  write : write_fn;
  __write : option write_fn
}.

(** [_wrapStream(stream, type)]; [None] is no stream. *)
Definition _wrapStream (this : nat) (stream : option Stream) (type : string)
  : option Stream :=
  match stream with
  | None => None
  | Some s =>
      Some (mkStream (TrimToRaw this type)
                     (match __write s with
                      | Some f => Some f
                      | None => Some (write s)
                      end))
  end.

(** [_restoreStream(stream)] *)
Definition _restoreStream (stream : option Stream) : option Stream :=
  match stream with
  | None => None
  | Some s =>
      match __write s with
      | Some f => Some (mkStream f None)
      | None => Some s
      end
  end.

(** [writeStream(data, stream)]: the function it calls, and with what. *)
Definition writeStream (data : string) (stream : Stream)
  : write_fn * string :=
  (default (write stream) (__write stream), data).

(** The stream wrapped by the instances [ws] one after the other. *)
Definition wrapped_by (ws : list (nat * string)) (stream : option Stream)
  : option Stream :=
  fold_left (fun s w => _wrapStream (fst w) s (snd w)) ws stream.

(** * Properties *)

Ltac break_match :=
  match goal with
  | |- context [match ?x with _ => _ end] => destruct x eqn:?
  end.

(** Inversion of a chain of binds in the option monad. *)
Ltac bind_inv H :=
  repeat match type of H with
         | (?x ≫= _) = Some _ =>
             let E := fresh "E" in
             destruct x eqn:E; cbn [mbind option_bind] in H; [|discriminate H]
         end.

(** ** Numbers *)

Module NumFacts.

Lemma eqb_eq a b : Num.eqb a b = true <-> a = b.
Proof.
  destruct a, b; simpl; try (split; congruence).
  rewrite Z.eqb_eq. split; congruence.
Qed.

Lemma gtb_irrefl a : Num.gtb a a = false.
Proof. destruct a; simpl; auto using Z.ltb_irrefl. Qed.

Lemma gtb_PInf_r a : Num.gtb a PInf = false.
Proof. now destruct a. Qed.

Lemma gtb_NInf_r a : a <> NInf -> Num.gtb a NInf = true.
Proof. destruct a; simpl; congruence. Qed.

End NumFacts.

(** ** The log object of a dispatch *)

Lemma set_date_alias_message l t :
  alias_message (set_date l t) = set_date (alias_message l) t.
Proof.
  destruct l as [? ? ? ? ? m ? ?]; unfold alias_message, set_date; simpl.
  destruct m as [m|]; simpl; [destruct (truthy m)|]; reflexivity.
Qed.

Lemma set_date_alias_additional l t :
  alias_additional (set_date l t) = set_date (alias_additional l) t.
Proof.
  destruct l as [? ? ? ? ? ? ad ?]; unfold alias_additional, set_date; simpl.
  destruct ad as [[s|lines]|]; simpl; [break_match| |]; reflexivity.
Qed.

Lemma set_date_normalize_kind l t :
  normalize_kind (set_date l t) = set_date (normalize_kind l) t.
Proof. reflexivity. Qed.

(** The time of the call only shows in the date of the log object, and
    only when neither the defaults nor a merged object give one. *)
Lemma build_logObj_now c d a isRaw t :
  build_logObj c d a isRaw t
  = set_date (build_logObj c d a isRaw 0) (default t (given_date d a isRaw)).
Proof.
  unfold build_logObj.
  rewrite <- set_date_normalize_kind, <- set_date_alias_additional,
    <- set_date_alias_message.
  f_equal. f_equal. f_equal.
  unfold take_args, given_date, new_logObj, Object_assign, set_args, set_date.
  destruct (merges a isRaw); simpl.
  - destruct (hd VUndef a); simpl; try (destruct (date d); reflexivity).
    destruct (date o), (date d); reflexivity.
  - destruct (date d); reflexivity.
Qed.

Lemma fingerprint_now c d a isRaw t t' :
  fingerprint (build_logObj c d a isRaw t)
  = fingerprint (build_logObj c d a isRaw t').
Proof.
  rewrite (build_logObj_now c d a isRaw t), (build_logObj_now c d a isRaw t').
  reflexivity.
Qed.

Lemma date_diff c d a isRaw t t' :
  lo_date (build_logObj c d a isRaw t') - lo_date (build_logObj c d a isRaw t)
  = match given_date d a isRaw with Some _ => 0 | None => t' - t end.
Proof.
  rewrite (build_logObj_now c d a isRaw t), (build_logObj_now c d a isRaw t').
  simpl. destruct (given_date d a isRaw); simpl; lia.
Qed.

(** The log object depends on the instance through its options only. *)
Lemma build_logObj_options c c' d a isRaw t :
  options c = options c' ->
  build_logObj c d a isRaw t = build_logObj c' d a isRaw t.
Proof. intros H. unfold build_logObj, new_logObj. now rewrite H. Qed.

Lemma lo_tag_alias_message l : lo_tag (alias_message l) = lo_tag l.
Proof.
  unfold alias_message. destruct (lo_message l) as [m|];
    [destruct (truthy m)|]; reflexivity.
Qed.

Lemma lo_tag_alias_additional l : lo_tag (alias_additional l) = lo_tag l.
Proof.
  unfold alias_additional.
  destruct (lo_additional l) as [[s|?]|]; [destruct (truthy_str _)| |];
    reflexivity.
Qed.

(** The tag of a record: the merged object's, else the defaults', else
    the empty string. *)
Lemma lo_tag_build c d a isRaw now :
  lo_tag (build_logObj c d a isRaw now)
  = Some (default "" (or_else (merged_tag a isRaw) (tag d))).
Proof.
  unfold build_logObj, normalize_kind. cbn [lo_tag].
  rewrite lo_tag_alias_additional, lo_tag_alias_message.
  unfold take_args, merged_tag.
  destruct (merges a isRaw); [destruct (hd VUndef a)|]; reflexivity.
Qed.

(** The arguments through the steps that follow the merge. *)
Lemma lo_args_normalize_kind l : lo_args (normalize_kind l) = lo_args l.
Proof. reflexivity. Qed.

Lemma lo_args_alias_additional l :
  lo_args (alias_additional l) = lo_args l ++ additional_args (lo_additional l).
Proof.
  unfold alias_additional, additional_args.
  destruct (lo_additional l) as [[s|lines]|];
    [destruct (truthy_str (Some s))| |];
    cbn [lo_args]; rewrite ?app_nil_r; reflexivity.
Qed.

Lemma lo_args_alias_message l :
  lo_args (alias_message l) = message_args (lo_message l) ++ lo_args l.
Proof.
  unfold alias_message, message_args.
  destruct (lo_message l) as [m|]; [destruct (truthy m)|]; reflexivity.
Qed.

Lemma lo_additional_alias_message l :
  lo_additional (alias_message l) = lo_additional l.
Proof.
  unfold alias_message.
  destruct (lo_message l) as [m|]; [destruct (truthy m)|]; reflexivity.
Qed.

Lemma lo_args_build c d a isRaw now :
  lo_args (build_logObj c d a isRaw now)
  = message_args (lo_message (take_args (new_logObj c d now) a isRaw))
    ++ lo_args (take_args (new_logObj c d now) a isRaw)
    ++ additional_args
         (lo_additional (take_args (new_logObj c d now) a isRaw)).
Proof.
  unfold build_logObj.
  rewrite lo_args_normalize_kind, lo_args_alias_additional,
    lo_additional_alias_message, lo_args_alias_message.
  now rewrite <- app_assoc.
Qed.

(** The arguments of a call whose only argument is a log object, and of
    one whose only argument is a plain object that is none. *)
Lemma build_logObj_args_merged c d o now :
  isLogObj (VObj o) = true ->
  lo_args (build_logObj c d [VObj o] false now)
  = message_args (or_else (message o) (message d))
    ++ default (default [] (args d)) (args o)
    ++ additional_args (or_else (additional o) (additional d)).
Proof.
  intros Hlog. rewrite lo_args_build. unfold take_args, merges.
  cbn [negb length Nat.eqb hd andb]. now rewrite Hlog.
Qed.

Lemma build_logObj_args_kept c d o now :
  isLogObj (VObj o) = false ->
  lo_args (build_logObj c d [VObj o] false now)
  = message_args (message d) ++ [VObj o] ++ additional_args (additional d).
Proof.
  intros Hlog. rewrite lo_args_build. unfold take_args, merges.
  cbn [negb length Nat.eqb hd andb]. now rewrite Hlog.
Qed.

(** ** One step of the throttle *)

Section ThrottleFacts.

Variable stringify : value -> option string.

(** The reporter calls of a flush depend on the stored object, the
    counter and the options only. *)
Lemma flush_repeats_events c c' :
  options c = options c' ->
  object (_lastLog c) = object (_lastLog c') ->
  count (_lastLog c) = count (_lastLog c') ->
  snd (flush_repeats c) = snd (flush_repeats c').
Proof.
  intros Ho Hob Hc. unfold flush_repeats, _log. rewrite Ho, Hob, Hc.
  destruct (object (_lastLog c')); [|reflexivity].
  now destruct (0 <? _).
Qed.

Lemma flush_repeats_quiet c :
  default 0 (count (_lastLog c)) <= throttleMin (options c) ->
  flush_repeats c = (c, []).
Proof.
  intros H. unfold flush_repeats.
  destruct (object (_lastLog c)); [|reflexivity].
  destruct (Z.ltb_spec 0 (default 0 (count (_lastLog c)) - throttleMin (options c)));
    [lia | reflexivity].
Qed.

Lemma flush_repeats_state c :
  let c' := fst (flush_repeats c) in
  options c' = options c
  /\ serialized (_lastLog c') = serialized (_lastLog c)
  /\ object (_lastLog c') = object (_lastLog c)
  /\ time (_lastLog c') = time (_lastLog c)
  /\ timeout (_lastLog c') = timeout (_lastLog c).
Proof.
  unfold flush_repeats.
  destruct (object (_lastLog c)) eqn:E; [destruct (0 <? _)|]; simpl; auto.
Qed.

Lemma resolveLog_events c l :
  snd (resolveLog c l true) = snd (flush_repeats c) ++ _log c l.
Proof.
  unfold resolveLog. destruct (flush_repeats c) as [c1 ev] eqn:E. simpl.
  f_equal. unfold _log. f_equal.
  unfold flush_repeats in E.
  destruct (object (_lastLog c)); [destruct (0 <? _)|]; now inversion E.
Qed.

Lemma resolveLog_state c l :
  let c' := fst (resolveLog c l true) in
  options c' = options c
  /\ serialized (_lastLog c') = serialized (_lastLog c)
  /\ object (_lastLog c') = Some l
  /\ time (_lastLog c') = time (_lastLog c)
  /\ timeout (_lastLog c') = timeout (_lastLog c).
Proof.
  unfold resolveLog.
  pose proof (flush_repeats_state c) as H.
  destruct (flush_repeats c) as [c1 ev]. simpl in *. tauto.
Qed.

(** A first record on a fresh instance is rendered. *)
Lemma throttle_log_fresh o l now s :
  0 < throttle o ->
  stringify (fingerprint l) = Some s ->
  throttle_log stringify (mkConsola o emptyLast) l now
  = (mkConsola o (mkLast (Some s) (Some l) None (Some (lo_date l)) None),
     _log (mkConsola o emptyLast) l).
Proof.
  intros Ht Hs. unfold throttle_log. simpl.
  destruct (Z.ltb_spec 0 (throttle o)); [|lia].
  rewrite Hs. reflexivity.
Qed.

(** A record with the stored fingerprint, inside the window, is rendered
    while the counter stays within [throttleMin]... *)
Lemma throttle_log_repeat o s ob cnt tm to l now :
  lo_date l - tm < throttle o ->
  stringify (fingerprint l) = Some s ->
  default 0 cnt + 1 <= throttleMin o ->
  throttle_log stringify (mkConsola o (mkLast (Some s) ob cnt (Some tm) to)) l now
  = (mkConsola o (mkLast (Some s) (Some l) (Some (default 0 cnt + 1))
                         (Some (lo_date l)) None),
     _log (mkConsola o emptyLast) l).
Proof.
  intros Ht Hs Hn. unfold throttle_log. simpl.
  destruct (Z.ltb_spec (lo_date l - tm) (throttle o)); [|lia].
  rewrite Hs. rewrite bool_decide_eq_true_2 by reflexivity.
  destruct (Z.ltb_spec (throttleMin o) (default 0 cnt + 1)); [lia|].
  unfold resolveLog. rewrite flush_repeats_quiet by (simpl; lia).
  reflexivity.
Qed.

(** ... and absorbed, a timer set, once the counter exceeds it. *)
Lemma throttle_log_absorb o s ob cnt tm to l now :
  lo_date l - tm < throttle o ->
  stringify (fingerprint l) = Some s ->
  throttleMin o < default 0 cnt + 1 ->
  throttle_log stringify (mkConsola o (mkLast (Some s) ob cnt (Some tm) to)) l now
  = (mkConsola o (mkLast (Some s) ob (Some (default 0 cnt + 1))
                         (Some (lo_date l)) (Some (now + throttle o))),
     []).
Proof.
  intros Ht Hs Hn. unfold throttle_log. simpl.
  destruct (Z.ltb_spec (lo_date l - tm) (throttle o)); [|lia].
  rewrite Hs. rewrite bool_decide_eq_true_2 by reflexivity.
  destruct (Z.ltb_spec (throttleMin o) (default 0 cnt + 1)); [|lia].
  reflexivity.
Qed.

(** A record whose fingerprint is not the stored one, or cannot be
    computed, is rendered after the pending repeats. *)
Lemma throttle_log_other c l now :
  (forall s, stringify (fingerprint l) = Some s ->
             serialized (_lastLog c) <> Some s) ->
  snd (throttle_log stringify c l now) = snd (flush_repeats c) ++ _log c l.
Proof.
  intros Hne. unfold throttle_log.
  destruct (_ <? throttle (options c)).
  - destruct (stringify (fingerprint l)) as [s|] eqn:Hs.
    + rewrite bool_decide_eq_false_2 by (apply Hne; reflexivity).
      rewrite resolveLog_events. f_equal.
      apply flush_repeats_events; reflexivity.
    + rewrite resolveLog_events. f_equal.
      apply flush_repeats_events; reflexivity.
  - rewrite resolveLog_events. f_equal.
    apply flush_repeats_events; reflexivity.
Qed.

(** When the fingerprint cannot be computed the throttle goes straight
    to [resolveLog(true)]. *)
Lemma throttle_log_unserializable c l now :
  stringify (fingerprint l) = None ->
  throttle_log stringify c l now
  = resolveLog
      (set_lastLog c (mkLast (serialized (_lastLog c)) (object (_lastLog c))
                             (count (_lastLog c)) (Some (lo_date l)) None))
      l true.
Proof.
  intros H. unfold throttle_log. rewrite H. now destruct (_ <? _).
Qed.

(** Whatever the throttle decides, it records the date of the record. *)
Lemma throttle_log_time c l now :
  time (_lastLog (fst (throttle_log stringify c l now))) = Some (lo_date l).
Proof.
  unfold throttle_log.
  repeat match goal with
         | |- context [if ?b then _ else _] => destruct b
         | |- context [match stringify ?x with _ => _ end] =>
             destruct (stringify x)
         end;
    try reflexivity;
    match goal with
    | |- context [resolveLog ?c ?l true] =>
        destruct (resolveLog_state c l) as (_ & _ & _ & -> & _)
    end; reflexivity.
Qed.

Lemma logFn_passes c d a isRaw now :
  Num.gtb (filter_level d) (get_level c) = false ->
  _logFn stringify c d a isRaw now
  = mkResult (fst (throttle_log stringify c (build_logObj c d a isRaw now) now))
             (snd (throttle_log stringify c (build_logObj c d a isRaw now) now))
             VUndef.
Proof.
  intros H. unfold _logFn. rewrite H.
  now destruct (throttle_log stringify c (build_logObj c d a isRaw now) now).
Qed.

Lemma logFn_dropped c d a isRaw now :
  Num.gtb (filter_level d) (get_level c) = true ->
  _logFn stringify c d a isRaw now = mkResult c [] (VBool false).
Proof. intros H. unfold _logFn. now rewrite H. Qed.

Lemma dispatch_all_cons c x rest :
  snd (dispatch_all stringify c (x :: rest))
  = r_events (_logFn stringify c (dp_defaults x) (dp_args x) (dp_isRaw x)
                     (dp_now x))
    :: snd (dispatch_all stringify
              (r_state (_logFn stringify c (dp_defaults x) (dp_args x)
                               (dp_isRaw x) (dp_now x)))
              rest).
Proof.
  simpl. now destruct (dispatch_all stringify _ rest).
Qed.

End ThrottleFacts.

(** ** The throttle on a run of identical records *)

(** C1 (as the code has it). With [throttleMin = 5] and [throttle = 1000],
    a record dispatched seven times in a row on a fresh instance, each call
    less than 1000 ms after the one before, is rendered the first six times
    (the first occurrence and five repeats) and absorbed the seventh time;
    a following record with another fingerprint first re-renders the sixth
    record, its arguments unchanged (one pending repeat: no "(repeated N
    times)" suffix), and is then rendered itself.  The kind of the repeated
    record carries no arguments of its own ([args d = None]): a call that
    merges a log object would add to them in place, and the records of
    the run would differ. *)
Theorem throttle_renders_six_then_absorbs
    (stringify : value -> option string) (o : ConsolaOptions)
    (d : InputLogObject) (a : list value) (isRaw : bool)
    (d' : InputLogObject) (a' : list value) (isRaw' : bool)
    (t1 t2 t3 t4 t5 t6 t7 t8 : Z) (s : string) :
  args d = None ->
  throttle o = 1000 ->
  throttleMin o = 5 ->
  Num.gtb (filter_level d) (opt_level o) = false ->
  Num.gtb (filter_level d') (opt_level o) = false ->
  t2 - t1 < 1000 -> t3 - t2 < 1000 -> t4 - t3 < 1000 ->
  t5 - t4 < 1000 -> t6 - t5 < 1000 -> t7 - t6 < 1000 ->
  let c := mkConsola o emptyLast in
  let same := fun t => mkDispatch d a isRaw t in
  let rendered := fun t => _log c (build_logObj c d a isRaw t) in
  stringify (fingerprint (build_logObj c d a isRaw t1)) = Some s ->
  stringify (fingerprint (build_logObj c d' a' isRaw' t8)) <> Some s ->
  snd (dispatch_all stringify c
         [same t1; same t2; same t3; same t4; same t5; same t6; same t7;
          mkDispatch d' a' isRaw' t8])
  = [rendered t1; rendered t2; rendered t3; rendered t4; rendered t5;
     rendered t6; [];
     rendered t6 ++ _log c (build_logObj c d' a' isRaw' t8)].
Proof.
  intros _ Hthr Hmin Hpass Hpass' H12 H23 H34 H45 H56 H67 c same rendered Hs Hs'.
  set (L := fun t => build_logObj c d a isRaw t).
  assert (HL : forall last t,
             build_logObj (mkConsola o last) d a isRaw t = L t)
    by (intros; apply build_logObj_options; reflexivity).
  assert (Hfp : forall t, stringify (fingerprint (L t)) = Some s)
    by (intros t; unfold L; now rewrite (fingerprint_now c d a isRaw t t1)).
  assert (Hwin : forall t t', t' - t < 1000 ->
             lo_date (L t') - lo_date (L t) < throttle o).
  { intros t t' Hlt. unfold L. rewrite date_diff, Hthr.
    destruct (given_date d a isRaw); lia. }
  subst same rendered. unfold c at 1.
  (* the first occurrence *)
  rewrite dispatch_all_cons; cbn [dp_defaults dp_args dp_isRaw dp_now].
  rewrite logFn_passes by exact Hpass. rewrite HL.
  rewrite (throttle_log_fresh stringify o (L t1) t1 s) by (auto; lia).
  cbn [fst snd r_state r_events]. f_equal.
  (* repeats one to five *)
  do 5 (rewrite dispatch_all_cons; cbn [dp_defaults dp_args dp_isRaw dp_now];
        rewrite logFn_passes by exact Hpass; rewrite HL;
        rewrite throttle_log_repeat by (auto; simpl; lia);
        cbn [fst snd r_state r_events default]; f_equal).
  (* the sixth repeat is absorbed *)
  rewrite dispatch_all_cons; cbn [dp_defaults dp_args dp_isRaw dp_now].
  rewrite logFn_passes by exact Hpass. rewrite HL.
  rewrite throttle_log_absorb by (auto; simpl; lia).
  cbn [fst snd r_state r_events default]. f_equal.
  (* another record *)
  rewrite dispatch_all_cons; cbn [dp_defaults dp_args dp_isRaw dp_now].
  rewrite logFn_passes by exact Hpass'. cbn [r_events r_state].
  rewrite throttle_log_other.
  2:{ intros s0 Hs0. cbn [_lastLog serialized]. intros E. inversion E; subst s0.
      apply Hs'. rewrite <- Hs0. symmetry.
      now rewrite (build_logObj_options _ c) by reflexivity. }
  cbn [dispatch_all snd]. f_equal. f_equal.
  unfold flush_repeats. cbn [_lastLog options object count default].
  rewrite Hmin. cbn. rewrite app_nil_r.
  unfold _log. cbn [options]. f_equal.
Qed.

(** C1, at a concrete input: ["SPAM"] logged at 0, 1, ..., 6 ms, then
    ["other"] at 7 ms, two reporters. *)
Lemma throttle_renders_six_then_absorbs_witness :
  let c := sample_instance in
  let same := fun t => mkDispatch sample_log [VStr "SPAM"] false t in
  let rendered :=
    fun t => _log c (build_logObj c sample_log [VStr "SPAM"] false t) in
  snd (dispatch_all sample_stringify c
         [same 0; same 1; same 2; same 3; same 4; same 5; same 6;
          mkDispatch sample_log [VStr "other"] false 7])
  = [rendered 0; rendered 1; rendered 2; rendered 3; rendered 4;
     rendered 5; [];
     rendered 5 ++ _log c (build_logObj c sample_log [VStr "other"] false 7)].
Proof.
  eapply (throttle_renders_six_then_absorbs sample_stringify sample_options
            sample_log [VStr "SPAM"] false sample_log [VStr "other"] false
            0 1 2 3 4 5 6 7);
    [ reflexivity | reflexivity | reflexivity | reflexivity | reflexivity
    | lia | lia | lia | lia | lia | lia
    | vm_compute; reflexivity
    | vm_compute; discriminate ].
Defined.

(** C1 as stated fails: of six identical records logged within the window
    the sixth is rendered at once by both reporters, and a different
    seventh record is not preceded by any flush. *)
Lemma sixth_identical_record_is_rendered :
  let same := fun t => mkDispatch sample_log [VStr "SPAM"] false t in
  let outs := snd (dispatch_all sample_stringify sample_instance
                     [same 0; same 1; same 2; same 3; same 4; same 5;
                      mkDispatch sample_log [VStr "other"] false 6]) in
  map rendered_args outs
  = [ [(0%nat, [VStr "SPAM"]); (1%nat, [VStr "SPAM"])];
      [(0%nat, [VStr "SPAM"]); (1%nat, [VStr "SPAM"])];
      [(0%nat, [VStr "SPAM"]); (1%nat, [VStr "SPAM"])];
      [(0%nat, [VStr "SPAM"]); (1%nat, [VStr "SPAM"])];
      [(0%nat, [VStr "SPAM"]); (1%nat, [VStr "SPAM"])];
      [(0%nat, [VStr "SPAM"]); (1%nat, [VStr "SPAM"])];
      [(0%nat, [VStr "other"]); (1%nat, [VStr "other"])] ]
  /\ outs !! 5%nat <> Some [].
Proof. vm_compute. split; [reflexivity | discriminate]. Qed.

(** Ten identical records, then the timer: six were rendered, the four
    absorbed ones are reported in one line. *)
Example timer_reports_the_absorbed_repeats :
  let same := fun t => mkDispatch sample_log [VStr "SPAM"] false t in
  let run := dispatch_all sample_stringify sample_instance
               (map same [0; 1; 2; 3; 4; 5; 6; 7; 8; 9]) in
  map rendered_args (drop 6 (snd run)) = [[]; []; []; []]
  /\ rendered_args (snd (fire_timeout (fst run)))
     = [(0%nat, [VStr "SPAM"; VStr "(repeated 4 times)"]);
        (1%nat, [VStr "SPAM"; VStr "(repeated 4 times)"])].
Proof. vm_compute. split; reflexivity. Qed.

(** ** The severity filter *)

(** C2 (as the code has it). [_logFn] compares [defaults.level || 0], not
    the severity it resolves for the record, with the threshold: when that
    number is greater the call returns [false] with the instance unchanged
    and no reporter called; otherwise the record goes through the throttle,
    which stores its date.  With the threshold at negative infinity every
    record is dropped unless the level of its kind is negative infinity
    itself; with the threshold at positive infinity none is dropped. *)
Theorem severity_filter
    (stringify : value -> option string) (c : Consola) (d : InputLogObject)
    (a : list value) (isRaw : bool) (now : Z) :
  (Num.gtb (filter_level d) (get_level c) = true ->
   _logFn stringify c d a isRaw now = mkResult c [] (VBool false))
  /\ (Num.gtb (filter_level d) (get_level c) = false ->
      let l := build_logObj c d a isRaw now in
      let r := _logFn stringify c d a isRaw now in
      r_ret r = VUndef
      /\ (r_state r, r_events r) = throttle_log stringify c l now
      /\ time (_lastLog (r_state r)) = Some (lo_date l))
  /\ (level d <> Some NInf ->
      let silent := set_level c (LNum NInf) in
      _logFn stringify silent d a isRaw now = mkResult silent [] (VBool false))
  /\ (let verbose := set_level c (LNum PInf) in
      r_ret (_logFn stringify verbose d a isRaw now) = VUndef
      /\ time (_lastLog (r_state (_logFn stringify verbose d a isRaw now)))
         = Some (lo_date (build_logObj verbose d a isRaw now))).
Proof.
  split; [apply logFn_dropped|]. split; [|split].
  - intros Hpass l r. unfold r. rewrite logFn_passes by exact Hpass.
    cbn [r_ret r_state r_events]. fold l.
    split; [reflexivity|]. split; [now destruct (throttle_log _ _ _ _)|].
    apply throttle_log_time.
  - intros Hne silent. apply logFn_dropped.
    unfold silent, get_level, set_level. cbn.
    apply NumFacts.gtb_NInf_r. unfold filter_level.
    destruct (level d) as [[| [] |]|]; cbn; congruence.
  - intros verbose.
    assert (H : Num.gtb (filter_level d) (get_level verbose) = false)
      by apply NumFacts.gtb_PInf_r.
    rewrite logFn_passes by exact H. cbn [r_ret r_state].
    split; [reflexivity | apply throttle_log_time].
Qed.

(** C2, at concrete inputs: [debug] (4) is dropped at threshold 3, [log]
    (2) passes, and [log] is dropped once the threshold is negative
    infinity. *)
Lemma severity_filter_witness :
  _logFn sample_stringify sample_instance sample_debug [VStr "x"] false 0
  = mkResult sample_instance [] (VBool false)
  /\ r_ret (_logFn sample_stringify sample_instance sample_log [VStr "x"] false 0)
     = VUndef
  /\ _logFn sample_stringify (set_level sample_instance (LNum NInf)) sample_log
            [VStr "x"] false 0
     = mkResult (set_level sample_instance (LNum NInf)) [] (VBool false).
Proof.
  pose proof (severity_filter sample_stringify sample_instance sample_debug
                [VStr "x"] false 0) as Hd.
  pose proof (severity_filter sample_stringify sample_instance sample_log
                [VStr "x"] false 0) as Hl.
  split; [|split].
  - apply (proj1 Hd). reflexivity.
  - apply (proj1 (proj2 Hl)). reflexivity.
  - apply (proj1 (proj2 (proj2 Hl))). discriminate.
Defined.

(** C2 as stated fails: at threshold 1 a record of a kind configured
    without a level has resolved severity 3, greater than 1, and is
    rendered; at the negative-infinity threshold a record of a kind of
    level negative infinity is rendered. *)
Lemma resolved_severity_is_not_compared :
  let c := set_level sample_instance (LNum (Fin 1)) in
  let l := build_logObj c sample_custom [VStr "x"] false 0 in
  let silent := set_level sample_instance (LNum NInf) in
  (lo_level l = Fin 3
   /\ Num.gtb (lo_level l) (get_level c) = true
   /\ r_events (_logFn sample_stringify c sample_custom [VStr "x"] false 0)
      = [(0%nat, l); (1%nat, l)])
  /\ (get_level silent = NInf
      /\ rendered_args
           (r_events (_logFn sample_stringify silent sample_quiet [VStr "x"]
                             false 0))
         = [(0%nat, [VStr "x"]); (1%nat, [VStr "x"])]).
Proof. vm_compute. repeat split. Qed.

(** ** Records that cannot be fingerprinted *)

(** C5. A record whose fingerprint cannot be serialised ([JSON.stringify]
    throws) and which passes the severity filter makes [_logFn] return
    normally: the comparison with the last fingerprint is skipped, the
    stored fingerprint is left as it was, no timer is set, and after the
    pending repeats the record is handed to every registered reporter. *)
Theorem unserializable_record_is_rendered
    (stringify : value -> option string) (c : Consola) (d : InputLogObject)
    (a : list value) (isRaw : bool) (now : Z) :
  Num.gtb (filter_level d) (get_level c) = false ->
  stringify (fingerprint (build_logObj c d a isRaw now)) = None ->
  let l := build_logObj c d a isRaw now in
  let r := _logFn stringify c d a isRaw now in
  r_ret r = VUndef
  /\ r_events r = snd (flush_repeats c) ++ _log c l
  /\ (forall rep, In rep (reporters (options c)) -> In (rep, l) (r_events r))
  /\ serialized (_lastLog (r_state r)) = serialized (_lastLog c)
  /\ object (_lastLog (r_state r)) = Some l
  /\ timeout (_lastLog (r_state r)) = None.
Proof.
  intros Hpass Hnone l r.
  assert (Er : r = mkResult (fst (throttle_log stringify c l now))
                            (snd (throttle_log stringify c l now)) VUndef)
    by (unfold r; now rewrite logFn_passes).
  assert (Eev : r_events r = snd (flush_repeats c) ++ _log c l).
  { rewrite Er. cbn [r_events]. apply throttle_log_other.
    intros s Hs. fold l in Hnone. congruence. }
  split; [now rewrite Er|]. split; [exact Eev|]. split.
  - intros rep Hin. rewrite Eev. apply in_or_app. right.
    unfold _log. apply in_map_iff. now exists rep.
  - rewrite Er. cbn [r_state].
    rewrite throttle_log_unserializable by exact Hnone.
    match goal with
    | |- context [resolveLog ?c0 l true] =>
        destruct (resolveLog_state c0 l) as (_ & -> & -> & _ & ->)
    end.
    now repeat split.
Qed.

(** C5, at a concrete input: a BigInt argument, which [JSON.stringify]
    refuses, is rendered by both reporters. *)
Lemma unserializable_record_is_rendered_witness :
  let l := build_logObj sample_instance sample_log [VBigInt 7] false 0 in
  r_events (_logFn sample_stringify sample_instance sample_log [VBigInt 7]
                   false 0)
  = [(0%nat, l); (1%nat, l)].
Proof.
  intros l.
  apply (proj1 (proj2
           (unserializable_record_is_rendered sample_stringify sample_instance
              sample_log [VBigInt 7] false 0 eq_refl eq_refl))).
Defined.

(** A record that cannot be fingerprinted leaves the comparison of its
    neighbours as it was: ["a"], a BigInt, ["a"] counts one repeat. *)
Example unserializable_record_keeps_the_fingerprint :
  let run := dispatch_all sample_stringify sample_instance
               [mkDispatch sample_log [VStr "a"] false 0;
                mkDispatch sample_log [VBigInt 7] false 1;
                mkDispatch sample_log [VStr "a"] false 2] in
  count (_lastLog (fst run)) = Some 1
  /\ map rendered_args (snd run)
     = [ [(0%nat, [VStr "a"]); (1%nat, [VStr "a"])];
         [(0%nat, [VBigInt 7]); (1%nat, [VBigInt 7])];
         [(0%nat, [VStr "a"]); (1%nat, [VStr "a"])] ].
Proof. vm_compute. split; reflexivity. Qed.

(** ** The pause queue *)

Section PauseFacts.

Variable stringify : value -> option string.

Lemma call_logFn_paused w this d a isRaw now :
  paused (call_logFn stringify w this d a isRaw now) = paused w.
Proof. unfold call_logFn. now destruct (instances w !! this). Qed.

Lemma call_logFn_queue w this d a isRaw now :
  queue (call_logFn stringify w this d a isRaw now) = queue w.
Proof. unfold call_logFn. now destruct (instances w !! this). Qed.

(** While paused, a call-site appends its item to the queue, raw flag
    included, and does nothing else. *)
Lemma wrapLogFn_paused w this d isRaw a now :
  paused w = true ->
  _wrapLogFn stringify w this d isRaw a now
  = mkWorld true (queue w ++ [mkItem this d a isRaw]) (instances w) (output w).
Proof. intros H. unfold _wrapLogFn. now rewrite H. Qed.

Lemma call_all_paused cs : forall w,
  paused w = true ->
  call_all stringify w cs
  = mkWorld true (queue w ++ map item_of cs) (instances w) (output w).
Proof.
  unfold call_all.
  induction cs as [|x cs IH]; intros w Hp; simpl.
  - rewrite app_nil_r. destruct w; simpl in *; now subst.
  - rewrite wrapLogFn_paused by exact Hp. rewrite IH by reflexivity. simpl.
    now rewrite <- app_assoc.
Qed.

Lemma replayed_cons it rest clock n : forall w,
  replayed stringify w (it :: rest) clock (S n)
  = replayed stringify
      (call_logFn stringify w (q_this it) (q_defaults it) (q_args it) false
                  (clock O))
      rest (fun i => clock (S i)) n.
Proof.
  induction n as [|n IH]; intros w.
  - reflexivity.
  - change (replayed stringify w (it :: rest) clock (S (S n)))
      with (let w' := replayed stringify w (it :: rest) clock (S n) in
            match (it :: rest) !! S n with
            | Some x =>
                call_logFn stringify w' (q_this x) (q_defaults x) (q_args x)
                           false (clock (S n))
            | None => w'
            end).
    cbv zeta. rewrite IH. reflexivity.
Qed.

(** The loop of [resumeLogs] makes its [k]-th call on the [k]-th item. *)
Lemma drain_replayed items : forall w clock,
  drain stringify w items clock
  = replayed stringify w items clock (length items).
Proof.
  induction items as [|it rest IH]; intros w clock.
  - reflexivity.
  - simpl drain. rewrite IH. simpl length. now rewrite replayed_cons.
Qed.

Lemma replayed_paused items clock k : forall w,
  paused (replayed stringify w items clock k) = paused w
  /\ queue (replayed stringify w items clock k) = queue w.
Proof.
  induction k as [|k IH]; intros w; [now split|].
  simpl. destruct (items !! k); [|apply IH].
  rewrite call_logFn_paused, call_logFn_queue. apply IH.
Qed.

End PauseFacts.

(** C4. Calls made through call-sites of any instances while logging is
    paused render nothing and are queued in the order they are made;
    [resumeLogs] then hands the [k]-th queued item to [_logFn] of its
    instance as its [k]-th call, each item once, and returns with the
    queue empty and the pause lifted. *)
Theorem resume_replays_queue_in_order
    (stringify : value -> option string) (w : World) (cs : list Call)
    (clock : nat -> Z) :
  let w1 := call_all stringify (pauseLogs w) cs in
  let items := queue w ++ map item_of cs in
  let w2 := resumeLogs stringify w1 clock in
  output w1 = output w
  /\ instances w1 = instances w
  /\ queue w1 = items
  /\ w2 = replayed stringify (mkWorld false [] (instances w) (output w))
                   items clock (length items)
  /\ paused w2 = false
  /\ queue w2 = [].
Proof.
  intros w1 items w2.
  assert (E : w1 = mkWorld true items (instances w) (output w))
    by (unfold w1; now rewrite call_all_paused).
  assert (E2 : w2 = replayed stringify (mkWorld false [] (instances w) (output w))
                             items clock (length items)).
  { unfold w2, resumeLogs. rewrite E. simpl. apply drain_replayed. }
  repeat split; try (rewrite E; reflexivity); try exact E2.
  - rewrite E2. apply replayed_paused.
  - rewrite E2. apply replayed_paused.
Qed.

(** Three distinct records logged while paused, from two instances: none
    is rendered before [resumeLogs], all three are, in the order of the
    calls, when it returns. *)
Example paused_records_come_out_in_order :
  let w1 := call_all sample_stringify (pauseLogs sample_world)
              [mkCall 0 sample_log false [VStr "one"] 1;
               mkCall 1 sample_log false [VStr "two"] 2;
               mkCall 0 sample_log false [VStr "three"] 3] in
  let w2 := resumeLogs sample_stringify w1 (fun i => 10 + Z.of_nat i) in
  output w1 = []
  /\ rendered_args (output w2)
     = [(0%nat, [VStr "one"]); (1%nat, [VStr "one"]);
        (0%nat, [VStr "two"]); (1%nat, [VStr "two"]);
        (0%nat, [VStr "three"]); (1%nat, [VStr "three"])]
  /\ queue w2 = [].
Proof. vm_compute. repeat split. Qed.

(** C3. While paused, the call-site [log.raw] applied to the single
    argument [{ message: "hi" }] queues an item that carries the raw flag;
    [resumeLogs] replays it without the flag, so the object is merged and
    the reporters receive the arguments [["hi"]], where the same raw call
    made unpaused hands them the object itself as a positional value. *)
Theorem replay_forgets_raw_flag :
  let arg := VObj (with_message (VStr "hi")) in
  let w1 := _wrapLogFn sample_stringify (pauseLogs sample_world) 0 sample_log
                       true [arg] 10 in
  map q_isRaw (queue w1) = [true]
  /\ rendered_args (output (resumeLogs sample_stringify w1 (fun _ => 20)))
     = [(0%nat, [VStr "hi"]); (1%nat, [VStr "hi"])]
  /\ rendered_args
       (output (_wrapLogFn sample_stringify sample_world 0 sample_log true
                           [arg] 20))
     = [(0%nat, [arg]); (1%nat, [arg])].
Proof. vm_compute. repeat split. Qed.

(** ** Structural detection of a log object *)

Lemma isLogObj_spec o :
  isLogObj (VObj o)
  = (truthy_message o || truthy_args o) && negb (truthy_stack o).
Proof.
  unfold isLogObj.
  destruct (truthy_message o), (truthy_args o), (truthy_stack o); reflexivity.
Qed.

(** C6 (as the code has it). In a non-raw call with one argument, a plain
    object whose [message] or [args] is truthy and whose [stack] is falsy
    or missing is merged into the log object with [Object.assign]; a plain
    object whose [stack] is truthy becomes the only positional argument. *)
Theorem single_object_argument
    (c : Consola) (d : InputLogObject) (o : InputLogObject) (now : Z) :
  (truthy_message o || truthy_args o = true ->
   truthy_stack o = false ->
   build_logObj c d [VObj o] false now
   = normalize_kind
       (alias_additional
          (alias_message (Object_assign (new_logObj c d now) o))))
  /\ (truthy_stack o = true ->
      build_logObj c d [VObj o] false now
      = normalize_kind
          (alias_additional
             (alias_message (set_args (new_logObj c d now) [VObj o])))).
Proof.
  unfold build_logObj, take_args, merges. cbn [negb length Nat.eqb hd andb].
  rewrite isLogObj_spec. split.
  - intros -> ->. reflexivity.
  - intros ->. now rewrite andb_false_r.
Qed.

(** C6, at concrete inputs: [{ message: "hi" }] is merged, the same
    object with a stack trace is kept as a value. *)
Lemma single_object_argument_witness :
  lo_args (build_logObj sample_instance sample_log
             [VObj (with_message (VStr "hi"))] false 0) = [VStr "hi"]
  /\ let o := mkInput None None None (Some (VStr "hi")) None None None
                      [("stack", VStr "at f (file.js:1:1)")] in
     lo_args (build_logObj sample_instance sample_log [VObj o] false 0)
     = [VObj o].
Proof.
  split.
  - rewrite (proj1 (single_object_argument sample_instance sample_log
                      (with_message (VStr "hi")) 0)); reflexivity.
  - intros o.
    rewrite (proj2 (single_object_argument sample_instance sample_log o 0));
      reflexivity.
Defined.

(** C6 as stated fails: [{ message: "" }] has a [message] field and no
    [stack] field and is kept as a positional value;
    [{ message: "hi", stack: "" }] has a [stack] field and is merged. *)
Lemma present_fields_do_not_decide :
  let o1 := with_message (VStr "") in
  let o2 := mkInput None None None (Some (VStr "hi")) None None None
                    [("stack", VStr "")] in
  (message o1 <> None /\ has_extra "stack" (extra o1) = false
   /\ lo_args (build_logObj sample_instance sample_log [VObj o1] false 0)
      = [VObj o1])
  /\ (has_extra "stack" (extra o2) = true
      /\ lo_args (build_logObj sample_instance sample_log [VObj o2] false 0)
         = [VStr "hi"]).
Proof. vm_compute. repeat split. discriminate. Qed.

(** C8. [isLogObj] reads truthiness, not presence: a plain object whose
    [message] is missing or holds a falsy value (the empty string, [0],
    [null], ...) and which has no [args] is not a log object and stays a
    positional argument: it is the one argument of the record, between
    the message and the additional text of the kind, and none of its
    fields reaches the record; a plain object with a truthy [message] or
    [args] whose [stack] is present but falsy is a log object and is
    merged: its message, arguments, additional text and tag are those of
    the record where it has them, and the object itself is no argument. *)
Theorem isLogObj_tests_truthiness
    (c : Consola) (d : InputLogObject) (now : Z)
    (l : LogObject) (o : InputLogObject) :
  (truthy_message o = false ->
   args o = None ->
   isLogObj (VObj o) = false
   /\ take_args l [VObj o] false = set_args l [VObj o]
   /\ lo_args (build_logObj c d [VObj o] false now)
      = message_args (message d) ++ [VObj o]
        ++ additional_args (additional d)
   /\ lo_tag (build_logObj c d [VObj o] false now)
      = Some (default "" (tag d)))
  /\ (has_extra "stack" (extra o) = true ->
      truthy (lookup_extra "stack" (extra o)) = false ->
      truthy_message o || truthy_args o = true ->
      isLogObj (VObj o) = true
      /\ take_args l [VObj o] false = Object_assign l o
      /\ lo_args (build_logObj c d [VObj o] false now)
         = message_args (or_else (message o) (message d))
           ++ default (default [] (args d)) (args o)
           ++ additional_args (or_else (additional o) (additional d))
      /\ lo_tag (build_logObj c d [VObj o] false now)
         = Some (default "" (or_else (tag o) (tag d)))).
Proof.
  split.
  - intros Hm Ha.
    assert (Hlog : isLogObj (VObj o) = false).
    { rewrite isLogObj_spec. unfold truthy_args. now rewrite Hm, Ha. }
    split; [exact Hlog|]. split; [|split].
    + unfold take_args, merges. cbn [negb length Nat.eqb hd andb].
      now rewrite Hlog.
    + now apply build_logObj_args_kept.
    + rewrite lo_tag_build. unfold merged_tag, merges.
      cbn [negb length Nat.eqb hd andb]. now rewrite Hlog.
  - intros _ Hstack Hcontent.
    assert (Hlog : isLogObj (VObj o) = true).
    { rewrite isLogObj_spec. unfold truthy_stack. now rewrite Hstack, Hcontent. }
    split; [exact Hlog|]. split; [|split].
    + unfold take_args, merges. cbn [negb length Nat.eqb hd andb].
      now rewrite Hlog.
    + now apply build_logObj_args_merged.
    + rewrite lo_tag_build. unfold merged_tag, merges.
      cbn [negb length Nat.eqb hd andb]. now rewrite Hlog.
Qed.

(** C8, at concrete inputs: [{ message: "", tag: "t" }] is the one
    argument of the record, whose tag stays empty;
    [{ message: "hi", stack: null, tag: "t" }] gives the argument ["hi"]
    and the tag ["t"]. *)
Lemma isLogObj_tests_truthiness_witness :
  let build := fun o => build_logObj sample_instance sample_log [VObj o]
                                     false 0 in
  let o1 := mkInput None (Some "t") None (Some (VStr "")) None None None [] in
  let o2 := mkInput None (Some "t") None (Some (VStr "hi")) None None None
                    [("stack", VNull)] in
  (isLogObj (VObj o1) = false
   /\ lo_args (build o1) = [VObj o1]
   /\ lo_tag (build o1) = Some "")
  /\ (isLogObj (VObj o2) = true
      /\ lo_args (build o2) = [VStr "hi"]
      /\ lo_tag (build o2) = Some "t").
Proof.
  intros build o1 o2. split.
  - destruct (proj1 (isLogObj_tests_truthiness sample_instance sample_log 0
                       (new_logObj sample_instance sample_log 0) o1)
                eq_refl eq_refl) as (H1 & _ & H2 & H3).
    split; [exact H1|]. split; [exact H2 | exact H3].
  - destruct (proj2 (isLogObj_tests_truthiness sample_instance sample_log 0
                       (new_logObj sample_instance sample_log 0) o2)
                eq_refl eq_refl eq_refl) as (H1 & _ & H2 & H3).
    split; [exact H1|]. split; [exact H2 | exact H3].
Defined.

(** ** Tags *)

Lemma withTag_tag c t :
  tag (defaults (options (withTag c t)))
  = Some (if truthy_str (tag (defaults (options c)))
          then default "" (tag (defaults (options c))) +:+ ":" +:+ t
          else t).
Proof. reflexivity. Qed.

Lemma truthy_str_Some t : t <> "" -> truthy_str (Some t) = true.
Proof.
  intros H. unfold truthy_str.
  destruct (String.eqb_spec t ""); [contradiction | reflexivity].
Qed.

(** C9 (as the code has it). On an instance whose default tag is missing
    or empty, [withTag a] gives the default tag [a]; on an instance whose
    default tag is a non-empty [t], [withTag b] gives [t:b]; so
    [withTag a] then [withTag b] gives [a:b] for a non-empty [a].  A record
    of a kind that configures no tag, dispatched without a tag of its own,
    carries the default tag of its instance. *)
Theorem withTag_joins_with_colon
    (c : Consola) (a b : string) (k : string) (ty : InputLogObject)
    (xs : list value) (isRaw : bool) (now : Z) :
  (truthy_str (tag (defaults (options c))) = false ->
   tag (defaults (options (withTag c a))) = Some a)
  /\ (forall t, tag (defaults (options c)) = Some t -> t <> "" ->
      tag (defaults (options (withTag c b))) = Some (t +:+ ":" +:+ b))
  /\ (truthy_str (tag (defaults (options c))) = false -> a <> "" ->
      tag (defaults (options (withTag (withTag c a) b)))
      = Some (a +:+ ":" +:+ b))
  /\ (tag ty = None -> merged_tag xs isRaw = None ->
      lo_tag (build_logObj c (kind_defaults (options c) k ty) xs isRaw now)
      = Some (default "" (tag (defaults (options c))))).
Proof.
  split; [|split; [|split]].
  - intros H. now rewrite withTag_tag, H.
  - intros t Ht Hne. rewrite withTag_tag, Ht, truthy_str_Some by exact Hne.
    reflexivity.
  - intros H Hne. rewrite withTag_tag. rewrite withTag_tag, H.
    rewrite truthy_str_Some by exact Hne. reflexivity.
  - intros Hty Hm. rewrite lo_tag_build, Hm. cbn. rewrite Hty.
    now destruct (tag (defaults (options c))).
Qed.

(** C9, at concrete inputs: [withTag "a"], then [withTag "b"], and a
    record logged by the result. *)
Lemma withTag_joins_with_colon_witness :
  let ab := withTag (withTag sample_instance "a") "b" in
  tag (defaults (options (withTag sample_instance "a"))) = Some "a"
  /\ tag (defaults (options ab)) = Some "a:b"
  /\ lo_tag (build_logObj ab
               (kind_defaults (options ab) "log" (withLevel (Fin 2)))
               [VStr "x"] false 0)
     = Some "a:b".
Proof.
  intros ab. split; [|split].
  - apply (proj1 (withTag_joins_with_colon sample_instance "a" "b" "log"
                    (withLevel (Fin 2)) [VStr "x"] false 0)).
    reflexivity.
  - apply (proj1 (proj2 (proj2
             (withTag_joins_with_colon sample_instance "a" "b" "log"
                (withLevel (Fin 2)) [VStr "x"] false 0))));
      [reflexivity | discriminate].
  - apply (proj2 (proj2 (proj2
             (withTag_joins_with_colon ab "a" "b" "log"
                (withLevel (Fin 2)) [VStr "x"] false 0))));
      reflexivity.
Defined.

(** C9 as stated fails: with [a] the empty string, [withTag a] then
    [withTag "b"] gives the tag ["b"], not [":b"]; and on an instance
    tagged ["a"] a record of a kind that configures the tag ["sec"], or a
    merged log object that brings the tag ["z"], is not tagged ["a"]. *)
Lemma empty_tag_is_not_joined :
  let a := withTag sample_instance "a" in
  let audit := mkInput (Some (Fin 3)) (Some "sec") None None None None None [] in
  let z := mkInput None (Some "z") None (Some (VStr "x")) None None None [] in
  (tag (defaults (options sample_instance)) = None
   /\ tag (defaults (options (withTag sample_instance ""))) = Some ""
   /\ tag (defaults (options (withTag (withTag sample_instance "") "b")))
      = Some "b"
   /\ tag (defaults (options (withTag (withTag sample_instance "") "b")))
      <> Some ("" +:+ ":" +:+ "b"))
  /\ lo_tag (build_logObj a (kind_defaults (options a) "audit" audit)
                          [VStr "x"] false 0)
     = Some "sec"
  /\ lo_tag (build_logObj a (kind_defaults (options a) "log" (withLevel (Fin 2)))
                          [VObj z] false 0)
     = Some "z".
Proof. vm_compute. repeat split. discriminate. Qed.

(** ** Trees *)

(** The children of an item are drawn by [_buildTree] itself, one level
    deeper. *)
Lemma push_item_children colorize options text cs color isLast :
  Tree.push_item colorize options (Tree.TObj text (Some cs) color) isLast
  = Tree.push_item colorize options (Tree.TObj text None color) isLast
    ++ Tree._buildTree colorize cs (Tree.child_options options isLast).
Proof. reflexivity. Qed.

(** C10. When [maxDepth] is set and not positive, [_buildTree] on a list
    of one or more items returns one line whatever the number of items:
    the prefix and the ellipsis, coloured with the colour of the first
    item when that item is an object with a colour. *)
Theorem tree_limit_is_one_line
    (colorize : Color.ColorName -> string -> string)
    (options : Tree.TreeOptions) (first : Tree.TreeItem)
    (rest : list Tree.TreeItem) (n : Z) :
  Tree.maxDepth options = Some n ->
  n <= 0 ->
  let ellipsis :=
    Tree.tpl (Tree.prefix options) +:+ Tree.tpl (Tree.ellipsis options) +:+ nl in
  Tree._buildTree colorize (first :: rest) options
  = [match first with
     | Tree.TObj _ _ (Some c) => colorize c ellipsis
     | _ => ellipsis
     end].
Proof.
  intros Hd Hn ellipsis.
  unfold Tree._buildTree. cbn [Tree.for_items].
  unfold Tree.isLimit. rewrite Hd.
  destruct (Z.leb_spec n 0); [|lia].
  unfold Tree.limit_line. fold ellipsis.
  destruct first as [|? ? []]; reflexivity.
Qed.

(** C10, at a concrete input: three items, the first one red, a colour
    function that brackets its text. *)
Lemma tree_limit_is_one_line_witness :
  Tree._buildTree (fun _ s => "<" +:+ s +:+ ">")
    [Tree.TObj "a" (Some [Tree.TStr "b"]) (Some Color.red); Tree.TStr "c";
     Tree.TStr "d"]
    (Tree.mkTreeOptions None (Some "  ") (Some 0) (Some "..."))
  = ["<" +:+ "  ..." +:+ nl +:+ ">"].
Proof.
  apply (tree_limit_is_one_line (fun _ s => "<" +:+ s +:+ ">")
           (Tree.mkTreeOptions None (Some "  ") (Some 0) (Some "..."))
           (Tree.TObj "a" (Some [Tree.TStr "b"]) (Some Color.red))
           [Tree.TStr "c"; Tree.TStr "d"] 0);
    [reflexivity | lia].
Defined.

(** A tree of two levels drawn with [maxDepth = 1]: the children of the
    second level give way to the ellipsis. *)
Example tree_of_depth_one :
  Tree.formatTree plain_color
    [Tree.TStr "a"; Tree.TObj "b" (Some [Tree.TStr "c"; Tree.TStr "d"]) None]
    (Tree.mkTreeOptions None None (Some 1) None)
  = String.concat nl ["  ├─a"; "  └─b"; "    ..."; ""].
Proof. vm_compute. reflexivity. Qed.

(** ** Boxes *)

Lemma repeat_nat_empty n : Box.repeat_nat "" n = "".
Proof. induction n; simpl; auto. Qed.

Lemma js_repeat_empty n s : Box.js_repeat "" n = Some s -> s = "".
Proof.
  unfold Box.js_repeat. destruct (n <? 0); [discriminate|].
  rewrite repeat_nat_empty. congruence.
Qed.

Lemma margin_lines m ls :
  (if 0 <? m then Box.js_repeat "" m ≫= (fun s => Some [s]) else Some [])
  = Some ls ->
  ls = if 0 <? m then [""] else [].
Proof.
  destruct (0 <? m); intros H.
  - bind_inv H. apply js_repeat_empty in E. subst. now inversion H.
  - now inversion H.
Qed.

Lemma leftSpace_spec m s :
  (if 0 <? m then Box.js_repeat " " m else Some "") = Some s ->
  s = Box.repeat_nat " " (Z.to_nat m).
Proof.
  destruct (Z.ltb_spec 0 m).
  - unfold Box.js_repeat. destruct (_ <? 0); congruence.
  - intros [= <-]. destruct m; try reflexivity. lia.
Qed.

Lemma row_left_margin stripAnsi ls b textLines p w wo vo i line :
  Box.row stripAnsi ls b textLines p w wo vo i = Some line ->
  exists rest, line = ls +:+ rest.
Proof.
  unfold Box.row. intros H.
  destruct (_ || _); bind_inv H; inversion H; eauto.
Qed.

(** The array [boxLines]: one empty string for a positive top margin
    whatever its size, the box, each of its lines behind the left margin,
    and one empty string for a positive bottom margin. *)
Lemma boxLines_shape getColor stripAnsi text opts ls :
  Box.boxLines getColor stripAnsi text opts = Some ls ->
  let st := Box.merge_style (Box.style opts) in
  exists boxed,
    ls = (if 0 <? Box.marginTop st then [""] else [])
         ++ boxed
         ++ (if 0 <? Box.marginBottom st then [""] else [])
    /\ Forall (fun line => exists rest, line = leftSpace_of opts +:+ rest) boxed.
Proof.
  unfold Box.boxLines, leftSpace_of.
  set (st := Box.merge_style (Box.style opts)).
  intros Hls. bind_inv Hls.
  apply leftSpace_spec in E. subst.
  apply margin_lines in E0, E4. subst.
  inversion Hls; subst ls; clear Hls. cbn zeta.
  eexists (_ :: _ ++ [_]). split.
  { cbn [app]. rewrite <- app_assoc. reflexivity. }
  apply Forall_cons; split.
  { destruct (truthy_str _); [bind_inv E1 | cbn [mbind option_bind] in E1];
      inversion E1; eauto. }
  apply Forall_app; split.
  { apply mapM_Some in E2.
    remember (map Z.of_nat _) as idx eqn:Hidx in E2. clear Hidx.
    induction E2; constructor; auto.
    eapply row_left_margin; eassumption. }
  apply Forall_cons; split; [eauto | constructor].
Qed.

(** C7. With a left margin of 2 and top and bottom margins of 3 and 2,
    [box] puts one empty line, not three, above the box and one, not two,
    below; the lines of the box start with two spaces. *)
Theorem box_margin_is_one_blank_line :
  let opts :=
    Box.mkBoxOpts None
      (Some (Box.mkPartialStyle None None None None (Some 2) (Some 3) (Some 2))) in
  Box.boxLines plain_color no_escapes "Hello!" opts
  = Some [ "";
           "  ╭──────────╮";
           "  │          │";
           "  │  Hello!  │";
           "  │          │";
           "  ╰──────────╯";
           "" ]
  /\ Box.box plain_color no_escapes "Hello!" opts
     = Some (join nl [ "";
                       "  ╭──────────╮";
                       "  │          │";
                       "  │  Hello!  │";
                       "  │          │";
                       "  ╰──────────╯";
                       "" ]).
Proof. vm_compute. split; reflexivity. Qed.

(** * Further properties *)

(** ** What a dispatch can do *)

Section DispatchShape.

Variable stringify : value -> option string.

Lemma flush_repeats_options c : options (fst (flush_repeats c)) = options c.
Proof. apply flush_repeats_state. Qed.

Lemma throttle_log_options c l now :
  options (fst (throttle_log stringify c l now)) = options c.
Proof.
  unfold throttle_log.
  repeat match goal with
         | |- context [if ?b then _ else _] => destruct b
         | |- context [match stringify ?x with _ => _ end] =>
             destruct (stringify x)
         end;
    try reflexivity;
    match goal with
    | |- context [resolveLog ?c0 ?l0 true] =>
        destruct (resolveLog_state c0 l0) as (-> & _)
    end; reflexivity.
Qed.

(** The reporter calls of the throttle: none, or the pending repeats
    followed by the record; a timer is left only when there are none. *)
Lemma throttle_log_shape c l now :
  (snd (throttle_log stringify c l now) = []
   \/ snd (throttle_log stringify c l now) = snd (flush_repeats c) ++ _log c l)
  /\ (timeout (_lastLog (fst (throttle_log stringify c l now))) <> None ->
      snd (throttle_log stringify c l now) = []).
Proof.
  destruct (stringify (fingerprint l)) as [s|] eqn:Hs.
  2:{ split.
      - right. apply throttle_log_other. intros s. congruence.
      - rewrite throttle_log_unserializable by exact Hs.
        match goal with
        | |- context [resolveLog ?c0 l true] =>
            destruct (resolveLog_state c0 l) as (_ & _ & _ & _ & ->)
        end. simpl. congruence. }
  destruct (decide (serialized (_lastLog c) = Some s)) as [Hsame|Hne].
  2:{ split.
      - right. apply throttle_log_other. intros s0. congruence.
      - unfold throttle_log. rewrite Hs.
        rewrite (bool_decide_eq_false_2 _ Hne).
        destruct (_ <? throttle (options c));
          match goal with
          | |- context [resolveLog ?c0 l true] =>
              destruct (resolveLog_state c0 l) as (_ & _ & _ & _ & ->)
          end; simpl; congruence. }
  unfold throttle_log. rewrite Hs. rewrite (bool_decide_eq_true_2 _ Hsame).
  destruct (_ <? throttle (options c)).
  - destruct (Z.ltb_spec (throttleMin (options c))
                         (default 0 (count (_lastLog c)) + 1)).
    + split; [now left | reflexivity].
    + split.
      * right. rewrite resolveLog_events.
        rewrite !flush_repeats_quiet by (simpl; lia). reflexivity.
      * match goal with
        | |- context [resolveLog ?c0 l true] =>
            destruct (resolveLog_state c0 l) as (_ & _ & _ & _ & ->)
        end. simpl. congruence.
  - split.
    + right. rewrite resolveLog_events. f_equal.
      apply flush_repeats_events; reflexivity.
    + match goal with
      | |- context [resolveLog ?c0 l true] =>
          destruct (resolveLog_state c0 l) as (_ & _ & _ & _ & ->)
      end. simpl. congruence.
Qed.

Lemma flush_repeats_reporters c e :
  In e (snd (flush_repeats c)) -> In (fst e) (reporters (options c)).
Proof.
  unfold flush_repeats.
  destruct (object (_lastLog c)); [destruct (0 <? _)|]; simpl; try tauto.
  unfold _log. rewrite in_map_iff. intros (r & <- & Hr). exact Hr.
Qed.

End DispatchShape.

(** X1. A call of [_logFn] for a kind that carries no arguments of its
    own ([args d = None]; a call that merges a log object would otherwise
    add to them in place) leaves the options of the instance as they are;
    it calls no reporter at all, or every registered reporter with the
    pending repeats and then with the record; every call it makes goes to
    a registered reporter; and when it leaves a timer pending it has
    called no reporter. *)
Theorem logFn_calls_only_registered_reporters
    (stringify : value -> option string) (c : Consola) (d : InputLogObject)
    (a : list value) (isRaw : bool) (now : Z) (Hargs : args d = None) :
  let r := _logFn stringify c d a isRaw now in
  options (r_state r) = options c
  /\ (r_events r = []
      \/ r_events r
         = snd (flush_repeats c) ++ _log c (build_logObj c d a isRaw now))
  /\ (forall e, In e (r_events r) -> In (fst e) (reporters (options c)))
  /\ (timeout (_lastLog (r_state r)) <> None -> r_events r = []).
Proof.
  intros r. subst r.
  destruct (Num.gtb (filter_level d) (get_level c)) eqn:Hf.
  - rewrite logFn_dropped by exact Hf. simpl. repeat split; auto. tauto.
  - rewrite logFn_passes by exact Hf. cbn [r_state r_events].
    pose proof (throttle_log_shape stringify c (build_logObj c d a isRaw now) now)
      as [Hshape Htimer].
    split; [apply throttle_log_options|]. split; [exact Hshape|].
    split; [|exact Htimer].
    intros e He. destruct Hshape as [E|E]; rewrite E in He; [destruct He|].
    apply in_app_or in He. destruct He as [He|He].
    + eapply flush_repeats_reporters; exact He.
    + unfold _log in He. apply in_map_iff in He.
      destruct He as (rep & <- & Hrep). exact Hrep.
Qed.

(** X1, at a concrete call: ["x"] logged by the sample instance, which
    has reporters 0 and 1. *)
Lemma logFn_calls_only_registered_reporters_witness :
  let r := _logFn sample_stringify sample_instance sample_log [VStr "x"]
                  false 0 in
  options (r_state r) = sample_options
  /\ map fst (r_events r) = [0%nat; 1%nat]
  /\ timeout (_lastLog (r_state r)) = None.
Proof.
  intros r.
  destruct (logFn_calls_only_registered_reporters sample_stringify
              sample_instance sample_log [VStr "x"] false 0 eq_refl)
    as (Hopt & _ & _ & _).
  split; [exact Hopt | split; reflexivity].
Defined.

(** ** The end of the window *)

(** X2. A record that passes the filter and whose date is [throttle] ms or
    more after the date of the last one is handed to the reporters whatever
    its fingerprint, after the pending repeats; neither the stored
    fingerprint nor the counter of repeats is reset by the end of the
    window (the counter changes only if repeats were pending). *)
Theorem late_record_is_rendered
    (stringify : value -> option string) (c : Consola) (d : InputLogObject)
    (a : list value) (isRaw : bool) (now tm : Z) :
  Num.gtb (filter_level d) (get_level c) = false ->
  time (_lastLog c) = Some tm ->
  throttle (options c) <= lo_date (build_logObj c d a isRaw now) - tm ->
  let l := build_logObj c d a isRaw now in
  let r := _logFn stringify c d a isRaw now in
  r_events r = snd (flush_repeats c) ++ _log c l
  /\ serialized (_lastLog (r_state r)) = serialized (_lastLog c)
  /\ count (_lastLog (r_state r)) = count (_lastLog (fst (flush_repeats c)))
  /\ timeout (_lastLog (r_state r)) = None.
Proof.
  intros Hf Htm Hlate l r. subst r. rewrite logFn_passes by exact Hf.
  cbn [r_state r_events]. fold l.
  change (throttle (options c) <= lo_date l - tm) in Hlate.
  unfold throttle_log. rewrite Htm.
  destruct (Z.ltb_spec (lo_date l - tm) (throttle (options c))); [lia|].
  split; [|split; [|split]].
  - rewrite resolveLog_events. f_equal.
    apply flush_repeats_events; reflexivity.
  - match goal with
    | |- context [resolveLog ?c0 l true] =>
        destruct (resolveLog_state c0 l) as (_ & -> & _)
    end. reflexivity.
  - unfold resolveLog, flush_repeats. cbn [_lastLog options object count].
    destruct (object (_lastLog c)); [destruct (0 <? _)|]; reflexivity.
  - match goal with
    | |- context [resolveLog ?c0 l true] =>
        destruct (resolveLog_state c0 l) as (_ & _ & _ & _ & ->)
    end. reflexivity.
Qed.

(** X2, at a concrete input: six records within the window, the same
    record five seconds later. *)
Lemma late_record_is_rendered_witness :
  let c := sample_after_six in
  let l := build_logObj c sample_log [VStr "SPAM"] false 5005 in
  let r := _logFn sample_stringify c sample_log [VStr "SPAM"] false 5005 in
  r_events r = snd (flush_repeats c) ++ _log c l
  /\ serialized (_lastLog (r_state r)) = serialized (_lastLog c)
  /\ count (_lastLog (r_state r)) = count (_lastLog (fst (flush_repeats c)))
  /\ timeout (_lastLog (r_state r)) = None.
Proof.
  apply (late_record_is_rendered sample_stringify sample_after_six sample_log
           [VStr "SPAM"] false 5005 5);
    [reflexivity | reflexivity | vm_compute; discriminate].
Defined.

(** The counter outlives the window: after six records and a pause of five
    seconds the same record is rendered, and its next repeat is already
    absorbed. *)
Example counter_survives_the_window :
  let same := fun t => mkDispatch sample_log [VStr "SPAM"] false t in
  map rendered_args
      (snd (dispatch_all sample_stringify sample_after_six
              [same 5005; same 5006]))
  = [[(0%nat, [VStr "SPAM"]); (1%nat, [VStr "SPAM"])]; []].
Proof. vm_compute. reflexivity. Qed.

(** ** Runs of identical records *)

Section Runs.

Variable stringify : value -> option string.
Variable o : ConsolaOptions.
Variable d : InputLogObject.
Variable a : list value.
Variable isRaw : bool.
Variable s : string.

Hypothesis Hthrottle : 0 < throttle o.
Hypothesis Hpass : Num.gtb (filter_level d) (opt_level o) = false.
Hypothesis Hfp :
  stringify (fingerprint (build_logObj (mkConsola o emptyLast) d a isRaw 0))
  = Some s.

Let L (t : Z) : LogObject := build_logObj (mkConsola o emptyLast) d a isRaw t.

Let shown (t : Z) : list event := _log (mkConsola o emptyLast) (L t).

Lemma L_any last t : build_logObj (mkConsola o last) d a isRaw t = L t.
Proof. apply build_logObj_options. reflexivity. Qed.

Lemma L_fingerprint t : stringify (fingerprint (L t)) = Some s.
Proof. unfold L. now rewrite (fingerprint_now _ d a isRaw t 0). Qed.

Lemma L_window t t' :
  t' - t < throttle o -> lo_date (L t') - lo_date (L t) < throttle o.
Proof.
  intros H. unfold L. rewrite date_diff.
  destruct (given_date d a isRaw); lia.
Qed.

(** The state after [k] repeats were counted, the last record of date
    [lo_date (L t)], and what the next records of the run do. *)
Lemma run_continues ts : forall t ob k to,
  in_window (throttle o) t ts ->
  0 <= k ->
  let c := mkConsola o (mkLast (Some s) ob
                               (if k =? 0 then None else Some k)
                               (Some (lo_date (L t))) to) in
  snd (dispatch_all stringify c (map (mkDispatch d a isRaw) ts))
  = imap (fun i t' => if k + Z.of_nat i + 1 <=? throttleMin o
                      then shown t' else [])
         ts
  /\ (ts <> [] ->
      let c' := fst (dispatch_all stringify c (map (mkDispatch d a isRaw) ts)) in
      let n := k + Z.of_nat (length ts) in
      options c' = o
      /\ count (_lastLog c') = Some n
      /\ serialized (_lastLog c') = Some s
      /\ timeout (_lastLog c')
         = (if throttleMin o <? n
            then Some (List.last ts 0 + throttle o) else None)
      /\ object (_lastLog c')
         = (if k <? throttleMin o
            then Some (L (nth (Z.to_nat (Z.min n (throttleMin o) - k - 1)) ts 0))
            else ob)).
Proof.
  induction ts as [|t' ts IH]; intros t ob k to Hw Hk c; [now split|].
  destruct Hw as [Hlt Hw].
  assert (Hcnt : default 0 (if k =? 0 then None else Some k) = k).
  { destruct (Z.eqb_spec k 0); simpl; lia. }
  assert (Hnext : (if k + 1 =? 0 then None else Some (k + 1)) = Some (k + 1)).
  { destruct (Z.eqb_spec (k + 1) 0); [lia | reflexivity]. }
  subst c. cbn [map]. rewrite dispatch_all_cons.
  cbn [dp_defaults dp_args dp_isRaw dp_now dispatch_all].
  rewrite logFn_passes by exact Hpass. rewrite L_any.
  cbn [r_state r_events imap].
  destruct (Z.leb_spec (k + Z.of_nat 0 + 1) (throttleMin o)) as [Hle|Hgt].
  - (* rendered *)
    rewrite throttle_log_repeat
      by (auto using L_window, L_fingerprint; rewrite Hcnt; lia).
    cbn [fst snd]. rewrite Hcnt, <- Hnext.
    specialize (IH t' (Some (L t')) (k + 1) None Hw ltac:(lia)).
    cbv zeta in IH. destruct IH as [IHev IHst].
    destruct (dispatch_all stringify _ (map (mkDispatch d a isRaw) ts))
      as [c' evs] eqn:E.
    cbn [fst snd] in *. split.
    + f_equal. rewrite IHev. apply imap_ext. intros i x _. simpl.
      replace (k + 1 + Z.of_nat i + 1) with (k + Z.of_nat (S i) + 1) by lia.
      reflexivity.
    + intros _. cbn [length].
      replace (k + Z.of_nat (S (length ts))) with (k + 1 + Z.of_nat (length ts))
        by lia.
      destruct ts as [|t'' ts'].
      * cbn [map dispatch_all] in E. injection E as <- <-.
        cbn [_lastLog options count serialized timeout object length List.last].
        change (Z.of_nat 0) with 0.
        rewrite Hnext. replace (k + 1 + 0) with (k + 1) by lia.
        destruct (Z.ltb_spec (throttleMin o) (k + 1)); [lia|].
        destruct (Z.ltb_spec k (throttleMin o)); [|lia].
        replace (Z.to_nat (Z.min (k + 1) (throttleMin o) - k - 1)) with O by lia.
        repeat split; reflexivity.
      * destruct (IHst ltac:(discriminate)) as (Ho & Hc & Hse & Hto & Hob).
        repeat split; auto.
        rewrite Hob.
        destruct (Z.ltb_spec (k + 1) (throttleMin o));
          destruct (Z.ltb_spec k (throttleMin o)); try lia.
        -- f_equal. f_equal.
           set (n := k + 1 + Z.of_nat (length (t'' :: ts'))).
           assert (Hn : k + 1 < Z.min n (throttleMin o))
             by (unfold n; simpl length; lia).
           replace (Z.to_nat (Z.min n (throttleMin o) - k - 1))
             with (S (Z.to_nat (Z.min n (throttleMin o) - (k + 1) - 1))) by lia.
           reflexivity.
        -- f_equal. f_equal.
           set (n := k + 1 + Z.of_nat (length (t'' :: ts'))).
           assert (Hn : Z.min n (throttleMin o) = k + 1)
             by (unfold n; simpl length; lia).
           rewrite Hn. replace (Z.to_nat (k + 1 - k - 1)) with O by lia.
           reflexivity.
  - (* absorbed *)
    rewrite throttle_log_absorb
      by (auto using L_window, L_fingerprint; rewrite Hcnt; lia).
    cbn [fst snd]. rewrite Hcnt, <- Hnext.
    specialize (IH t' ob (k + 1) (Some (t' + throttle o)) Hw ltac:(lia)).
    cbv zeta in IH. destruct IH as [IHev IHst].
    destruct (dispatch_all stringify _ (map (mkDispatch d a isRaw) ts))
      as [c' evs] eqn:E.
    cbn [fst snd] in *. split.
    + f_equal. rewrite IHev. apply imap_ext. intros i x _. simpl.
      replace (k + 1 + Z.of_nat i + 1) with (k + Z.of_nat (S i) + 1) by lia.
      reflexivity.
    + intros _. cbn [length].
      replace (k + Z.of_nat (S (length ts))) with (k + 1 + Z.of_nat (length ts))
        by lia.
      destruct ts as [|t'' ts'].
      * cbn [map dispatch_all] in E. injection E as <- <-.
        cbn [_lastLog options count serialized timeout object length List.last].
        change (Z.of_nat 0) with 0.
        rewrite Hnext. replace (k + 1 + 0) with (k + 1) by lia.
        destruct (Z.ltb_spec (throttleMin o) (k + 1)); [|lia].
        destruct (Z.ltb_spec k (throttleMin o)); [lia|].
        repeat split; reflexivity.
      * destruct (IHst ltac:(discriminate)) as (Ho & Hc & Hse & Hto & Hob).
        repeat split; auto.
        rewrite Hob.
        destruct (Z.ltb_spec (k + 1) (throttleMin o));
          destruct (Z.ltb_spec k (throttleMin o)); try lia.
        reflexivity.
Qed.

End Runs.

(** X3. On a fresh instance with [throttleMin >= 0], of a run of records
    with one fingerprint, each dispatched less than [throttle] ms after
    the one before, the first [throttleMin + 1] are handed to the
    reporters one by one and every later one is absorbed.  The kind
    carries no arguments of its own: a call that merges a log object
    would add to them in place. *)
Theorem run_of_identical_records
    (stringify : value -> option string) (o : ConsolaOptions)
    (d : InputLogObject) (a : list value) (isRaw : bool) (s : string)
    (t : Z) (ts : list Z) :
  args d = None ->
  0 < throttle o ->
  0 <= throttleMin o ->
  Num.gtb (filter_level d) (opt_level o) = false ->
  in_window (throttle o) t ts ->
  let c := mkConsola o emptyLast in
  stringify (fingerprint (build_logObj c d a isRaw t)) = Some s ->
  snd (dispatch_all stringify c (map (mkDispatch d a isRaw) (t :: ts)))
  = imap (fun i t' => if Z.of_nat i <=? throttleMin o
                      then _log c (build_logObj c d a isRaw t') else [])
         (t :: ts).
Proof.
  intros _ Hthr Hmin Hpass Hw c Hs. subst c.
  set (c := mkConsola o emptyLast) in *.
  assert (Hfp : stringify (fingerprint (build_logObj c d a isRaw 0)) = Some s)
    by (now rewrite (fingerprint_now c d a isRaw 0 t)).
  cbn [map]. rewrite dispatch_all_cons.
  cbn [dp_defaults dp_args dp_isRaw dp_now imap].
  rewrite logFn_passes by exact Hpass.
  assert (Efresh : throttle_log stringify c (build_logObj c d a isRaw t) t
                   = (mkConsola o (mkLast (Some s)
                                     (Some (build_logObj c d a isRaw t)) None
                                     (Some (lo_date (build_logObj c d a isRaw t)))
                                     None),
                      _log c (build_logObj c d a isRaw t)))
    by (apply throttle_log_fresh; auto).
  rewrite Efresh. cbn [r_state r_events fst snd].
  destruct (Z.leb_spec (Z.of_nat 0) (throttleMin o)); [|lia].
  f_equal.
  pose proof (run_continues stringify o d a isRaw s Hthr Hpass Hfp ts t
                (Some (build_logObj c d a isRaw t)) 0 None Hw ltac:(lia))
    as [Hev _].
  cbn [Z.eqb] in Hev. fold c in Hev. rewrite Hev.
  apply imap_ext. intros i x _. simpl.
  replace (0 + Z.of_nat i + 1) with (Z.of_nat (S i)) by lia. reflexivity.
Qed.

(** X3, at a concrete input: ten records, one per millisecond. *)
Lemma run_of_identical_records_witness :
  let c := sample_instance in
  snd (dispatch_all sample_stringify c
         (map (mkDispatch sample_log [VStr "SPAM"] false)
              [0; 1; 2; 3; 4; 5; 6; 7; 8; 9]))
  = imap (fun i t' => if Z.of_nat i <=? 5
                      then _log c (build_logObj c sample_log [VStr "SPAM"]
                                                false t')
                      else [])
         [0; 1; 2; 3; 4; 5; 6; 7; 8; 9].
Proof.
  eapply (run_of_identical_records sample_stringify sample_options sample_log
            [VStr "SPAM"] false _ 0 [1; 2; 3; 4; 5; 6; 7; 8; 9]);
    [ reflexivity | reflexivity | discriminate | reflexivity
    | simpl; repeat split; reflexivity
    | vm_compute; reflexivity ].
Defined.

Lemma fire_timeout_events c :
  snd (fire_timeout c)
  = match timeout (_lastLog c) with
    | Some _ => snd (flush_repeats c)
    | None => []
    end.
Proof.
  unfold fire_timeout. destruct (timeout (_lastLog c)); [|reflexivity].
  apply flush_repeats_events; reflexivity.
Qed.

Lemma fire_timeout_state c :
  timeout (_lastLog (fst (fire_timeout c))) = None
  /\ (timeout (_lastLog c) <> None ->
      0 < default 0 (count (_lastLog c)) - throttleMin (options c) ->
      object (_lastLog c) <> None ->
      count (_lastLog (fst (fire_timeout c))) = Some 1).
Proof.
  unfold fire_timeout. destruct (timeout (_lastLog c)) eqn:E.
  - split.
    + match goal with
      | |- context [flush_repeats ?c0] =>
          destruct (flush_repeats_state c0) as (_ & _ & _ & _ & ->)
      end. reflexivity.
    + intros _ Hk Hob. unfold flush_repeats. simpl.
      destruct (object (_lastLog c)); [|congruence].
      destruct (Z.ltb_spec 0 (default 0 (count (_lastLog c))
                              - throttleMin (options c))); [reflexivity | lia].
  - split; [exact E | congruence].
Qed.

(** X4. After such a run of [1 + length ts] records, when the timer fires:
    if [k = length ts - throttleMin] records were absorbed ([k > 0]), the
    last record rendered (the one of rank [throttleMin + 1]) is handed to
    the reporters once more, with ["(repeated k times)"] appended when
    [k > 1], and the counter restarts at 1; if none was absorbed the timer
    is not set and nothing happens.  A second firing does nothing. *)
Theorem timer_reports_absorbed_repeats
    (stringify : value -> option string) (o : ConsolaOptions)
    (d : InputLogObject) (a : list value) (isRaw : bool) (s : string)
    (t : Z) (ts : list Z) :
  args d = None ->
  0 < throttle o ->
  0 <= throttleMin o ->
  Num.gtb (filter_level d) (opt_level o) = false ->
  in_window (throttle o) t ts ->
  let c := mkConsola o emptyLast in
  stringify (fingerprint (build_logObj c d a isRaw t)) = Some s ->
  let c' := fst (dispatch_all stringify c
                   (map (mkDispatch d a isRaw) (t :: ts))) in
  let k := Z.of_nat (length ts) - throttleMin o in
  let ob := build_logObj c d a isRaw
              (nth (Z.to_nat (throttleMin o)) (t :: ts) 0) in
  snd (fire_timeout c')
  = (if 0 <? k then _log c (set_args ob (lo_args ob ++ repeated_suffix k))
     else [])
  /\ (0 < k -> count (_lastLog (fst (fire_timeout c'))) = Some 1)
  /\ snd (fire_timeout (fst (fire_timeout c'))) = [].
Proof.
  intros _ Hthr Hmin Hpass Hw c Hs c' k ob.
  assert (Hfp : stringify (fingerprint (build_logObj c d a isRaw 0)) = Some s)
    by (now rewrite (fingerprint_now c d a isRaw 0 t)).
  assert (Hlast : snd (fire_timeout (fst (fire_timeout c')))
                  = []).
  { rewrite fire_timeout_events.
    now rewrite (proj1 (fire_timeout_state c')). }
  (* the state after the first record *)
  assert (E1 : c' = fst (dispatch_all stringify
                           (mkConsola o (mkLast (Some s)
                                           (Some (build_logObj c d a isRaw t))
                                           None
                                           (Some (lo_date (build_logObj c d a isRaw t)))
                                           None))
                           (map (mkDispatch d a isRaw) ts))).
  { unfold c'. cbn [map dispatch_all dp_defaults dp_args dp_isRaw dp_now].
    rewrite logFn_passes by exact Hpass.
    assert (Efresh : throttle_log stringify c (build_logObj c d a isRaw t) t
                     = (mkConsola o (mkLast (Some s)
                                       (Some (build_logObj c d a isRaw t)) None
                                       (Some (lo_date (build_logObj c d a isRaw t)))
                                       None),
                        _log c (build_logObj c d a isRaw t)))
      by (apply throttle_log_fresh; auto).
    rewrite Efresh. cbn [r_state r_events fst snd].
    now destruct (dispatch_all stringify _ (map (mkDispatch d a isRaw) ts)). }
  destruct ts as [|t1 ts1].
  { (* a single record: no timer *)
    cbn [map dispatch_all fst] in E1. subst k. cbn [length].
    destruct (Z.ltb_spec 0 (Z.of_nat 0 - throttleMin o)); [lia|].
    rewrite E1. split; [reflexivity|]. split; [lia|].
    rewrite <- E1. exact Hlast. }
  pose proof (run_continues stringify o d a isRaw s Hthr Hpass Hfp
                (t1 :: ts1) t (Some (build_logObj c d a isRaw t)) 0 None Hw
                ltac:(lia)) as [_ Hst].
  cbn [Z.eqb] in Hst. cbv zeta in Hst. fold c in Hst. rewrite <- E1 in Hst.
  destruct (Hst ltac:(discriminate)) as (Ho & Hc & Hse & Hto & Hob).
  clear Hst. rewrite Z.add_0_l in Hc, Hto, Hob. fold k in Hc.
  assert (Hobj : 0 < k -> object (_lastLog c') = Some ob).
  { intros Hk. rewrite Hob. unfold ob.
    destruct (Z.ltb_spec 0 (throttleMin o)).
    - f_equal. f_equal.
      replace (Z.min (Z.of_nat (length (t1 :: ts1))) (throttleMin o))
        with (throttleMin o) by (unfold k in Hk; lia).
      replace (Z.to_nat (throttleMin o))
        with (S (Z.to_nat (throttleMin o - 0 - 1))) by lia.
      reflexivity.
    - replace (throttleMin o) with 0 by lia. reflexivity. }
  split; [|split; [|exact Hlast]].
  - rewrite fire_timeout_events, Hto. fold k.
    replace (throttleMin o <? Z.of_nat (length (t1 :: ts1))) with (0 <? k)
      by (unfold k; destruct (Z.ltb_spec 0 (Z.of_nat (length (t1 :: ts1))
                                            - throttleMin o));
          destruct (Z.ltb_spec (throttleMin o) (Z.of_nat (length (t1 :: ts1))));
          lia || reflexivity).
    destruct (Z.ltb_spec 0 k) as [Hk|Hk]; [|reflexivity].
    unfold flush_repeats. rewrite (Hobj Hk), Hc, Ho. cbn [default from_option id].
    change (Z.of_nat (length (t1 :: ts1)) - throttleMin o) with k.
    destruct (Z.ltb_spec 0 k); [|lia].
    cbn [snd]. unfold _log. rewrite Ho. reflexivity.
  - intros Hk. apply (proj2 (fire_timeout_state c')).
    + rewrite Hto.
      destruct (Z.ltb_spec (throttleMin o) (Z.of_nat (length (t1 :: ts1))));
        [discriminate | unfold k in Hk; lia].
    + rewrite Hc, Ho. cbn [default from_option id]. exact Hk.
    + rewrite (Hobj Hk). discriminate.
Qed.

(** X4, at a concrete input: ten records, four of them absorbed. *)
Lemma timer_reports_absorbed_repeats_witness :
  let c := sample_instance in
  let c' := fst (dispatch_all sample_stringify c
                   (map (mkDispatch sample_log [VStr "SPAM"] false)
                        [0; 1; 2; 3; 4; 5; 6; 7; 8; 9])) in
  let ob := build_logObj c sample_log [VStr "SPAM"] false 5 in
  snd (fire_timeout c')
  = _log c (set_args ob [VStr "SPAM"; VStr "(repeated 4 times)"])
  /\ count (_lastLog (fst (fire_timeout c'))) = Some 1.
Proof.
  intros c c' ob.
  destruct (timer_reports_absorbed_repeats sample_stringify sample_options
              sample_log [VStr "SPAM"] false
              (String.concat "" ["["; quoted "log"; ","; quoted ""; ",[";
                                 quoted "SPAM"; "]]"])
              0 [1; 2; 3; 4; 5; 6; 7; 8; 9]
              eq_refl eq_refl ltac:(discriminate) eq_refl
              ltac:(simpl; repeat split; reflexivity) eq_refl)
    as (Hev & Hcount & _).
  split; [exact Hev | apply Hcount; reflexivity].
Defined.

(** ** Pausing and dispatching directly *)

Section ReplayFacts.

Variable stringify : value -> option string.

Lemma wrapLogFn_running w this d isRaw a now :
  paused w = false ->
  _wrapLogFn stringify w this d isRaw a now
  = call_logFn stringify w this d a isRaw now.
Proof. intros H. unfold _wrapLogFn. now rewrite H. Qed.

Lemma drain_direct cs : forall w clock,
  paused w = false ->
  Forall (fun c => cl_isRaw c = false) cs ->
  drain stringify w (map item_of cs) clock
  = call_all stringify w (retimed cs clock).
Proof.
  unfold call_all, retimed.
  induction cs as [|x cs IH]; intros w clock Hp Hraw; [reflexivity|].
  inversion Hraw as [|? ? Hx Hrest]; subst.
  cbn [map drain imap fold_left item_of q_this q_defaults q_args
       cl_this cl_defaults cl_isRaw cl_args cl_now].
  rewrite wrapLogFn_running by exact Hp. rewrite Hx.
  rewrite IH by (rewrite ?call_logFn_paused; auto).
  reflexivity.
Qed.

End ReplayFacts.

(** X5. With logging running and nothing queued, pausing, making calls
    through non-raw call-sites and resuming leaves the world exactly as
    making the same calls without any pause does, the [i]-th at the time
    the clock shows at its replay: the records get the date of the replay,
    not of the call. *)
Theorem pause_then_resume_is_direct_dispatch
    (stringify : value -> option string) (w : World) (cs : list Call)
    (clock : nat -> Z) :
  paused w = false ->
  queue w = [] ->
  Forall (fun c => cl_isRaw c = false) cs ->
  resumeLogs stringify (call_all stringify (pauseLogs w) cs) clock
  = call_all stringify w (retimed cs clock).
Proof.
  intros Hp Hq Hraw.
  rewrite call_all_paused by reflexivity.
  unfold resumeLogs, pauseLogs. cbn [queue instances output].
  rewrite Hq. cbn [app].
  replace (mkWorld false [] (instances w) (output w)) with w
    by (destruct w; simpl in *; now subst).
  apply drain_direct; assumption.
Qed.

(** X5, at a concrete input: two calls from two instances. *)
Lemma pause_then_resume_is_direct_dispatch_witness :
  let cs := [mkCall 0 sample_log false [VStr "one"] 1;
             mkCall 1 sample_log false [VStr "two"] 2] in
  let clock := fun i => 10 + Z.of_nat i in
  resumeLogs sample_stringify
    (call_all sample_stringify (pauseLogs sample_world) cs) clock
  = call_all sample_stringify sample_world (retimed cs clock).
Proof.
  intros cs clock.
  apply (pause_then_resume_is_direct_dispatch sample_stringify sample_world
           cs clock eq_refl eq_refl).
  repeat constructor.
Defined.

(** ** Reporters *)

Lemma indexOf_first r l1 l2 :
  ~ In r l1 -> indexOf r (l1 ++ r :: l2) = Some (length l1).
Proof.
  induction l1 as [|x l1 IH]; intros Hn; simpl.
  - now rewrite Nat.eqb_refl.
  - destruct (Nat.eqb_spec x r) as [->|Hne]; [exfalso; apply Hn; now left|].
    rewrite IH by (intros H; apply Hn; now right). reflexivity.
Qed.

Lemma indexOf_absent r rs : ~ In r rs -> indexOf r rs = None.
Proof.
  induction rs as [|x rs IH]; intros Hn; simpl; [reflexivity|].
  destruct (Nat.eqb_spec x r) as [->|Hne]; [exfalso; apply Hn; now left|].
  rewrite IH by (intros H; apply Hn; now right). reflexivity.
Qed.

Lemma splice1_middle (r : nat) l1 l2 :
  splice1 (length l1) (l1 ++ r :: l2) = (l1 ++ l2, [r]).
Proof.
  unfold splice1. induction l1 as [|x l1 IH]; simpl.
  - now rewrite drop_0.
  - injection IH as E1 E2. now rewrite E1, E2.
Qed.

Lemma removeReporter_removes_first_occurrence_aux
    (c : Consola) (r : nat) (l1 l2 : list nat) :
  (reporters (options c) = l1 ++ r :: l2 -> ~ In r l1 ->
   removeReporter c (Some r) = (set_reporters c (l1 ++ l2), Some [r]))
  /\ (~ In r (reporters (options c)) -> removeReporter c (Some r) = (c, None)).
Proof.
  split.
  - intros E Hn. unfold removeReporter. rewrite E, indexOf_first by exact Hn.
    now rewrite splice1_middle.
  - intros Hn. unfold removeReporter. now rewrite indexOf_absent.
Qed.

(** X6. [removeReporter(r)] takes the first occurrence of [r] out of the
    list of reporters, leaves every other reporter in place, and returns
    the removed element in an array; when [r] is not registered it changes
    nothing and returns the instance; without argument it empties the
    list.  The throttle state is never touched. *)
Theorem removeReporter_removes_first_occurrence
    (c : Consola) (r : nat) (l1 l2 : list nat) :
  (reporters (options c) = l1 ++ r :: l2 -> ~ In r l1 ->
   removeReporter c (Some r) = (set_reporters c (l1 ++ l2), Some [r]))
  /\ (~ In r (reporters (options c)) -> removeReporter c (Some r) = (c, None))
  /\ reporters (options (fst (removeReporter c None))) = []
  /\ (forall x, _lastLog (fst (removeReporter c x)) = _lastLog c).
Proof.
  split; [|split; [|split]].
  - apply (proj1 (removeReporter_removes_first_occurrence_aux c r l1 l2)).
  - apply (proj2 (removeReporter_removes_first_occurrence_aux c r l1 l2)).
  - reflexivity.
  - intros [x|]; unfold removeReporter; [|reflexivity].
    destruct (indexOf x (reporters (options c))); reflexivity.
Qed.

(** X6, at concrete inputs: reporters 0 and 1; removing 0, then 7. *)
Lemma removeReporter_removes_first_occurrence_witness :
  removeReporter sample_instance (Some 0%nat)
  = (set_reporters sample_instance [1%nat], Some [0%nat])
  /\ removeReporter sample_instance (Some 7%nat) = (sample_instance, None).
Proof.
  split.
  - apply (proj1 (removeReporter_removes_first_occurrence sample_instance 0
                    [] [1%nat])); [reflexivity | simpl; tauto].
  - apply (proj1 (proj2 (removeReporter_removes_first_occurrence
                           sample_instance 7 [] []))).
    vm_compute. intuition discriminate.
Defined.

Lemma set_reporters_same c : set_reporters c (reporters (options c)) = c.
Proof. destruct c as [[] ?]. reflexivity. Qed.

Lemma in_split_first (r : nat) rs :
  In r rs -> exists l1 l2, rs = l1 ++ r :: l2 /\ ~ In r l1.
Proof.
  induction rs as [|x rs IH]; [intros []|].
  destruct (Nat.eq_dec x r) as [->|Hne].
  - intros _. exists [], rs. split; [reflexivity | intros []].
  - intros [E|Hin]; [contradiction|].
    destruct (IH Hin) as (l1 & l2 & -> & Hn).
    exists (x :: l1), l2. split; [reflexivity|].
    intros [E|H]; [contradiction | exact (Hn H)].
Qed.

(** X7. [addReporter(r)] followed by [removeReporter(r)] gives back the
    instance when [r] was not registered before; when it was, the earlier
    registration is the one removed and [r] ends up last. *)
Theorem add_then_remove_reporter (c : Consola) (r : nat) :
  (~ In r (reporters (options c)) ->
   fst (removeReporter (addReporter c r) (Some r)) = c)
  /\ (In r (reporters (options c)) ->
      exists l1 l2,
        reporters (options c) = l1 ++ r :: l2 /\ ~ In r l1
        /\ reporters (options (fst (removeReporter (addReporter c r) (Some r))))
           = l1 ++ l2 ++ [r]).
Proof.
  split.
  - intros Hn.
    destruct (removeReporter_removes_first_occurrence_aux
                (addReporter c r) r (reporters (options c)) []) as [H _].
    rewrite H by (auto; destruct c as [[] ?]; reflexivity).
    cbn [fst]. rewrite app_nil_r.
    destruct c as [[] ?]. reflexivity.
  - intros Hin. destruct (in_split_first r _ Hin) as (l1 & l2 & E & Hn).
    exists l1, l2. split; [exact E|]. split; [exact Hn|].
    destruct (removeReporter_removes_first_occurrence_aux
                (addReporter c r) r l1 (l2 ++ [r])) as [H _].
    rewrite H.
    + reflexivity.
    + destruct c as [[] ?]. simpl in *. rewrite E, <- app_assoc. reflexivity.
    + exact Hn.
Qed.

(** X7, at concrete inputs: a new reporter 7, and reporter 0 registered
    twice. *)
Lemma add_then_remove_reporter_witness :
  fst (removeReporter (addReporter sample_instance 7) (Some 7%nat))
  = sample_instance
  /\ reporters (options (fst (removeReporter (addReporter sample_instance 0)
                                             (Some 0%nat))))
     = [1%nat; 0%nat].
Proof.
  split.
  - apply (proj1 (add_then_remove_reporter sample_instance 7)).
    vm_compute. intuition discriminate.
  - destruct (proj2 (add_then_remove_reporter sample_instance 0))
      as (l1 & l2 & _ & _ & _); [now left|].
    reflexivity.
Defined.

(** ** The arguments and fields of a record *)

(** The arguments of a call that merges no log object. *)
Lemma build_logObj_args_plain
    (c : Consola) (d : InputLogObject) (a : list value) (isRaw : bool)
    (now : Z) :
  merged_obj a isRaw = None ->
  lo_args (build_logObj c d a isRaw now)
  = message_args (message d) ++ a ++ additional_args (additional d).
Proof.
  intros Hplain. unfold build_logObj.
  rewrite lo_args_normalize_kind, lo_args_alias_additional,
    lo_additional_alias_message, lo_args_alias_message.
  rewrite <- app_assoc.
  unfold merged_obj in Hplain. unfold take_args.
  destruct (merges a isRaw) eqn:Hm; [|reflexivity].
  destruct (hd VUndef a) eqn:Hhd; try discriminate Hplain;
    exfalso; unfold merges in Hm; rewrite Hhd in Hm;
    rewrite !andb_true_iff in Hm; destruct Hm as [_ Hm]; discriminate.
Qed.

(** X8. The arguments of the record a call produces are, in this order:
    the message when it is truthy, the arguments proper, and the
    additional text behind a newline.  For a call that merges a log object
    the message, the arguments and the additional text are the merged
    object's when it has them and the defaults' otherwise; for any other
    call the arguments proper are the arguments of the call, in the order
    given, and replace those of the defaults. *)
Theorem arguments_of_a_record
    (c : Consola) (d : InputLogObject) (a : list value) (isRaw : bool)
    (now : Z) :
  lo_args (build_logObj c d a isRaw now)
  = match merged_obj a isRaw with
    | Some o =>
        message_args (or_else (message o) (message d))
        ++ default (default [] (args d)) (args o)
        ++ additional_args (or_else (additional o) (additional d))
    | None =>
        message_args (message d) ++ a ++ additional_args (additional d)
    end.
Proof.
  unfold build_logObj.
  rewrite lo_args_normalize_kind, lo_args_alias_additional,
    lo_additional_alias_message, lo_args_alias_message.
  rewrite <- app_assoc.
  unfold merged_obj, take_args.
  destruct (merges a isRaw) eqn:Hm.
  - destruct (hd VUndef a) eqn:Hhd; try reflexivity;
      exfalso; unfold merges in Hm; rewrite Hhd in Hm;
      rewrite !andb_true_iff in Hm; destruct Hm as [_ Hm]; discriminate.
  - reflexivity.
Qed.

(** ** Normal form of a record *)

Lemma lower_ascii_idem ch : lower_ascii (lower_ascii ch) = lower_ascii ch.
Proof.
  unfold lower_ascii.
  destruct (Nat.leb 65 (nat_of_ascii ch) && Nat.leb (nat_of_ascii ch) 90)%bool
    eqn:E.
  - apply andb_true_iff in E. destruct E as [E1 E2].
    apply Nat.leb_le in E1, E2.
    rewrite nat_ascii_embedding by lia.
    replace (Nat.leb (nat_of_ascii ch + 32) 90) with false
      by (symmetry; apply Nat.leb_gt; lia).
    now rewrite andb_false_r.
  - now rewrite E.
Qed.

Lemma toLowerCase_idem s : toLowerCase (toLowerCase s) = toLowerCase s.
Proof.
  induction s as [|ch s IH]; simpl; [reflexivity|].
  now rewrite lower_ascii_idem, IH.
Qed.

Lemma lo_type_alias_message l : lo_type (alias_message l) = lo_type l.
Proof.
  unfold alias_message. destruct (lo_message l) as [m|];
    [destruct (truthy m)|]; reflexivity.
Qed.

Lemma lo_type_alias_additional l : lo_type (alias_additional l) = lo_type l.
Proof.
  unfold alias_additional.
  destruct (lo_additional l) as [[s|?]|]; [destruct (truthy_str _)| |];
    reflexivity.
Qed.

(** The type of a record: the merged object's, else the defaults', in the
    lower case of the model, else ["log"]. *)
Lemma lo_type_build c d a isRaw now :
  lo_type (build_logObj c d a isRaw now)
  = Some (match or_else (merged_type a isRaw) (type d) with
          | Some t => toLowerCase t
          | None => "log"
          end).
Proof.
  unfold build_logObj, normalize_kind. cbn [lo_type].
  rewrite lo_type_alias_additional, lo_type_alias_message.
  unfold take_args, merged_type.
  destruct (merges a isRaw); [destruct (hd VUndef a)|]; reflexivity.
Qed.

Lemma lower_ascii_not_upper ch : is_upper (lower_ascii ch) = false.
Proof.
  unfold is_upper, lower_ascii.
  destruct (Nat.leb 65 (nat_of_ascii ch) && Nat.leb (nat_of_ascii ch) 90)%bool
    eqn:E; [|exact E].
  apply andb_true_iff in E. destruct E as [E1 E2].
  apply Nat.leb_le in E1, E2.
  rewrite nat_ascii_embedding by lia.
  replace (Nat.leb (nat_of_ascii ch + 32) 90) with false
    by (symmetry; apply Nat.leb_gt; lia).
  apply andb_false_r.
Qed.

Lemma lower_ascii_ascii ch :
  Nat.ltb (nat_of_ascii ch) 128 = true ->
  Nat.ltb (nat_of_ascii (lower_ascii ch)) 128 = true.
Proof.
  intros H. unfold lower_ascii.
  destruct (Nat.leb 65 (nat_of_ascii ch) && Nat.leb (nat_of_ascii ch) 90)%bool
    eqn:E; [|exact H].
  apply andb_true_iff in E. destruct E as [E1 E2].
  apply Nat.leb_le in E1, E2.
  rewrite nat_ascii_embedding by lia. apply Nat.ltb_lt. lia.
Qed.

Lemma toLowerCase_no_upper s : has_upper (toLowerCase s) = false.
Proof.
  unfold has_upper.
  induction s as [|ch s IH]; [reflexivity|].
  cbn [toLowerCase list_ascii_of_string existsb].
  now rewrite lower_ascii_not_upper, IH.
Qed.

Lemma toLowerCase_ascii s :
  is_ascii s = true -> is_ascii (toLowerCase s) = true.
Proof.
  unfold is_ascii.
  induction s as [|ch s IH]; [reflexivity|].
  cbn [toLowerCase list_ascii_of_string forallb].
  intros H. apply andb_true_iff in H. destruct H as [H1 H2].
  now rewrite lower_ascii_ascii, IH.
Qed.

(** X9. Every record built by [_logFn] from a type made of ASCII
    characters has that type with each of the letters [A] to [Z] replaced
    by its small letter, and ["log"] when neither the merged object nor
    the kind has a type; its tag is the tag of the merged object, else of
    the kind, else the empty string; it has no truthy message and no
    additional text left: both were moved into the arguments. *)
Theorem record_is_normalized
    (c : Consola) (d : InputLogObject) (a : list value) (isRaw : bool)
    (now : Z)
    (Hascii : forall t, or_else (merged_type a isRaw) (type d) = Some t ->
                is_ascii t = true) :
  let l := build_logObj c d a isRaw now in
  lo_type l = Some (match or_else (merged_type a isRaw) (type d) with
                    | Some t => toLowerCase t
                    | None => "log"
                    end)
  /\ (forall t, lo_type l = Some t -> is_ascii t = true /\ has_upper t = false)
  /\ lo_tag l = Some (default "" (or_else (merged_tag a isRaw) (tag d)))
  /\ message_args (lo_message l) = []
  /\ additional_args (lo_additional l) = [].
Proof.
  intros l. subst l.
  split; [apply lo_type_build|]. split; [|split; [apply lo_tag_build|]].
  { intros t. rewrite lo_type_build.
    destruct (or_else (merged_type a isRaw) (type d)) as [t0|];
      intros [= <-].
    - split; [apply toLowerCase_ascii; now apply Hascii
             | apply toLowerCase_no_upper].
    - split; reflexivity. }
  unfold build_logObj.
  set (l0 := take_args (new_logObj c d now) a isRaw).
  unfold normalize_kind. cbn [lo_type lo_tag lo_message lo_additional].
  split.
  - unfold alias_additional.
    assert (H : message_args (lo_message (alias_message l0)) = []).
    { unfold alias_message, message_args.
      destruct (lo_message l0) as [m|] eqn:E; [|now rewrite E].
      destruct (truthy m) eqn:Et; simpl; [reflexivity|]. now rewrite E, Et. }
    destruct (lo_additional (alias_message l0)) as [[s|lines]|];
      [destruct (truthy_str (Some s))| |]; exact H.
  - unfold alias_additional, additional_args.
    destruct (lo_additional (alias_message l0)) as [[s|lines]|] eqn:E;
      [destruct (truthy_str (Some s)) eqn:Et| |]; cbn [lo_additional];
      rewrite ?E, ?Et; reflexivity.
Qed.

(** X9, at a concrete call: a kind named ["Audit"] and a merged object
    that brings neither type nor tag. *)
Lemma record_is_normalized_witness :
  let l := build_logObj sample_instance
             (mkInput (Some (Fin 2)) None (Some "Audit") None None None None [])
             [VObj (with_message (VStr "hi"))] false 0 in
  lo_type l = Some "audit" /\ lo_tag l = Some "".
Proof.
  intros l.
  destruct (record_is_normalized sample_instance
              (mkInput (Some (Fin 2)) None (Some "Audit") None None None None [])
              [VObj (with_message (VStr "hi"))] false 0)
    as (Htype & _ & Htag & _).
  - intros t [= <-]. reflexivity.
  - split; [exact Htype | exact Htag].
Defined.

(** ** Additional text *)

Lemma split_nl_aux_nonempty cur s : split_nl_aux cur s <> [].
Proof.
  revert cur. induction s as [|ch s IH]; intros cur; simpl; [discriminate|].
  destruct (Ascii.eqb ch _); [discriminate | apply IH].
Qed.

Lemma append_assoc3 (x y z : string) : (x +:+ y) +:+ z = x +:+ (y +:+ z).
Proof.
  induction x as [|ch x IH]; [reflexivity|].
  change (String ch ((x +:+ y) +:+ z) = String ch (x +:+ (y +:+ z))).
  now rewrite IH.
Qed.

Lemma append_empty_r (x : string) : x +:+ "" = x.
Proof.
  induction x as [|ch x IH]; [reflexivity|].
  change (String ch (x +:+ "") = String ch x). now rewrite IH.
Qed.

Lemma join_cons sep x xs :
  xs <> [] -> join sep (x :: xs) = x +:+ sep +:+ join sep xs.
Proof. destruct xs; [congruence | reflexivity]. Qed.

Lemma join_split_nl_aux s : forall cur,
  join nl (split_nl_aux cur s) = cur +:+ s.
Proof.
  induction s as [|ch s IH]; intros cur.
  - cbn [split_nl_aux join]. now rewrite append_empty_r.
  - cbn [split_nl_aux].
    destruct (Ascii.eqb_spec ch (ascii_of_nat 10)) as [->|Hne].
    + rewrite join_cons by apply split_nl_aux_nonempty.
      rewrite IH. reflexivity.
    + rewrite IH, append_assoc3. reflexivity.
Qed.

(** Splitting at the newlines and joining with newlines gives the string
    back. *)
Lemma join_split_nl s : join nl (split_nl s) = s.
Proof. apply join_split_nl_aux. Qed.

Lemma isLogObj_with_additional o ad :
  isLogObj (VObj (with_additional o ad)) = isLogObj (VObj o).
Proof. reflexivity. Qed.

(** X10. An additional text given as a non-empty string and the same text
    given as the list of its lines produce the same record, whether the
    text comes with the kind or with a merged log object; the string
    reaches the arguments unchanged behind one newline, after the
    arguments proper.  At the edges: the empty string adds nothing (and,
    in a merged object, hides the additional text of the kind), where the
    empty list adds a lone newline. *)
Theorem additional_string_or_lines
    (c : Consola) (d : InputLogObject) (a : list value) (isRaw : bool)
    (now : Z) (o : InputLogObject) (s : string) (Hs : s <> "") :
  let by_kind := fun ad =>
    build_logObj c (with_additional d ad) a isRaw now in
  let by_object := fun ad =>
    build_logObj c d [VObj (with_additional o ad)] false now in
  let merged_front :=
    message_args (or_else (message o) (message d))
    ++ default (default [] (args d)) (args o) in
  by_kind (inl s) = by_kind (inr (split_nl s))
  /\ (isLogObj (VObj o) = true ->
      by_object (inl s) = by_object (inr (split_nl s))
      /\ lo_args (by_object (inl s)) = merged_front ++ [VStr (nl +:+ s)]
      /\ lo_args (by_object (inl "")) = merged_front
      /\ lo_args (by_object (inr [])) = merged_front ++ [VStr nl])
  /\ (merged_obj a isRaw = None ->
      lo_args (by_kind (inl s))
      = message_args (message d) ++ a ++ [VStr (nl +:+ s)]
      /\ lo_args (by_kind (inl "")) = message_args (message d) ++ a
      /\ lo_args (by_kind (inr []))
         = message_args (message d) ++ a ++ [VStr nl]).
Proof.
  intros by_kind by_object merged_front.
  assert (Ht : truthy_str (Some s) = true).
  { unfold truthy_str.
    destruct (String.eqb_spec s ""); [contradiction | reflexivity]. }
  split; [|split].
  - unfold by_kind, build_logObj. f_equal.
    unfold take_args, new_logObj, Object_assign, set_args, with_additional.
    cbn [level tag type message additional args date extra].
    destruct (merges a isRaw); [destruct (hd VUndef a)|];
      unfold alias_message, alias_additional;
      cbn [or_else lo_date lo_args lo_level lo_type lo_tag lo_message
           lo_additional lo_extra];
      repeat match goal with
             | |- context [match ?x with Some _ => _ | None => _ end] =>
                 is_var x; destruct x
             | |- context [or_else (?f ?x) _] =>
                 destruct (f x);
                 cbn [or_else lo_date lo_args lo_level lo_type lo_tag
                      lo_message lo_additional lo_extra]
             | |- context [match ?f ?x with Some _ => _ | None => _ end] =>
                 is_var x; destruct (f x)
             | |- context [if truthy ?x then _ else _] => destruct (truthy x)
             end;
      cbn [or_else lo_date lo_args lo_level lo_type lo_tag lo_message
           lo_additional lo_extra];
      rewrite ?Ht; reflexivity.
  - intros Hlog. split.
    { unfold by_object, build_logObj. f_equal.
      unfold take_args, merges. cbn [negb length Nat.eqb hd andb].
      rewrite !isLogObj_with_additional, Hlog.
      unfold Object_assign, with_additional, alias_message, alias_additional.
      cbn [level tag type message additional args date extra or_else
           lo_date lo_args lo_level lo_type lo_tag lo_message lo_additional
           lo_extra].
      destruct (or_else (message o) (lo_message (new_logObj c d now)))
        as [m|]; [destruct (truthy m)|];
        cbn [lo_date lo_args lo_level lo_type lo_tag lo_message lo_additional
             lo_extra];
        rewrite Ht; reflexivity. }
    unfold by_object, merged_front.
    rewrite !build_logObj_args_merged
      by (now rewrite isLogObj_with_additional).
    unfold with_additional.
    cbn [message additional args or_else additional_args].
    rewrite Ht, join_split_nl.
    change (truthy_str (Some "")) with false.
    rewrite app_nil_r, !app_assoc. repeat split; reflexivity.
  - intros Hplain. unfold by_kind.
    rewrite !build_logObj_args_plain by exact Hplain.
    unfold with_additional. cbn [message additional additional_args].
    rewrite Ht, join_split_nl.
    change (truthy_str (Some "")) with false.
    rewrite app_nil_r. repeat split; reflexivity.
Qed.

(** X10, at concrete calls: [consola.log("x")] on a kind whose additional
    text is two lines, and [consola.log({ message: "m", additional })]. *)
Lemma additional_string_or_lines_witness :
  let text := "a" +:+ nl +:+ "b" in
  let kind := mkInput None None (Some "log") None None None None [] in
  let by_kind := fun ad =>
    build_logObj sample_instance (with_additional kind ad) [VStr "x"]
                 false 0 in
  let by_object := fun ad =>
    build_logObj sample_instance kind
                 [VObj (with_additional (with_message (VStr "m")) ad)]
                 false 0 in
  by_kind (inl text) = by_kind (inr ["a"; "b"])
  /\ by_object (inl text) = by_object (inr ["a"; "b"])
  /\ lo_args (by_object (inl text)) = [VStr "m"; VStr (nl +:+ text)]
  /\ lo_args (by_kind (inl text)) = [VStr "x"; VStr (nl +:+ text)].
Proof.
  intros text kind by_kind by_object.
  pose proof (additional_string_or_lines sample_instance kind [VStr "x"]
                false 0 (with_message (VStr "m")) text) as H.
  cbv zeta in H. destruct H as (H1 & Hobject & Hkind).
  - vm_compute. discriminate.
  - destruct (Hobject eq_refl) as (H2 & H3 & _).
    destruct (Hkind eq_refl) as (H5 & _).
    split; [exact H1|]. split; [exact H2|]. split; [exact H3 | exact H5].
Defined.

(** ** Colours *)

Section SearchFacts.

Context {A : Type} `{EqDecision A}.
Implicit Types p s u close replace : list A.

Lemma search_Some p s i :
  search p s = Some i ->
  p `prefix_of` drop i s
  /\ (i <= length s)%nat
  /\ forall j, (j < i)%nat -> ~ p `prefix_of` drop j s.
Proof.
  revert i. induction s as [|x s IH]; intros i; cbn [search].
  - case_bool_decide as Hp; [|discriminate].
    intros [= <-]. repeat split; [exact Hp | lia | intros j Hj; lia].
  - case_bool_decide as Hp.
    + intros [= <-]. repeat split; [exact Hp | simpl; lia | intros j Hj; lia].
    + destruct (search p s) as [k|] eqn:E; [|discriminate].
      intros [= <-]. destruct (IH k eq_refl) as (H1 & H2 & H3).
      repeat split; [exact H1 | simpl; lia |].
      intros [|j] Hj; [exact Hp | apply H3; lia].
Qed.

Lemma search_None p s :
  search p s = None -> forall j, ~ p `prefix_of` drop j s.
Proof.
  induction s as [|x s IH]; cbn [search].
  - case_bool_decide as Hp; [discriminate|].
    intros _ j. now rewrite drop_nil.
  - case_bool_decide as Hp; [discriminate|].
    destruct (search p s) eqn:E; [discriminate|].
    intros _ [|j]; [exact Hp | apply IH; reflexivity].
Qed.

Lemma search_first p s i :
  p `prefix_of` drop i s -> (i <= length s)%nat ->
  (forall j, (j < i)%nat -> ~ p `prefix_of` drop j s) ->
  search p s = Some i.
Proof.
  intros Hp Hi Hfirst.
  destruct (search p s) as [k|] eqn:E.
  - destruct (search_Some _ _ _ E) as (H1 & H2 & H3).
    destruct (Nat.lt_trichotomy k i) as [Hlt|[->|Hgt]]; [|reflexivity|].
    + now apply Hfirst in Hlt.
    + now apply H3 in Hgt.
  - now apply search_None with (j := i) in E.
Qed.

Lemma str_indexOf_0 s p : str_indexOf s p 0 = search p s.
Proof.
  unfold str_indexOf. rewrite Nat.min_0_l, drop_0.
  destruct (search p s); reflexivity.
Qed.

Lemma prefix_within p x rest :
  (length p <= length x)%nat -> p `prefix_of` x ++ rest -> p `prefix_of` x.
Proof.
  intros Hlen [k Hk].
  exists (drop (length p) x).
  rewrite <- (take_drop (length p) x) at 1. f_equal.
  apply (f_equal (take (length p))) in Hk.
  rewrite take_app_le in Hk by exact Hlen.
  now rewrite take_app_length in Hk.
Qed.

(** The search for [close] in a part followed by [close] does not depend
    on what comes behind. *)
Lemma str_indexOf_part pos u close rest :
  close <> [] ->
  str_indexOf (u ++ close) close pos = Some (length u) ->
  str_indexOf (u ++ close ++ rest) close pos = Some (length u).
Proof.
  intros Hclose.
  assert (Hlen : (0 < length close)%nat)
    by (destruct close; [congruence | simpl; lia]).
  unfold str_indexOf. rewrite !length_app.
  set (q := Nat.min pos (length u + length close)).
  set (q' := Nat.min pos (length u + (length close + length rest))).
  destruct (search close (drop q (u ++ close))) as [k|] eqn:E; [|discriminate].
  cbn [fmap option_fmap option_map]. intros [= Hk].
  destruct (search_Some _ _ _ E) as (H1 & H2 & H3).
  assert (Hq : q = q').
  { subst q q'. rewrite length_drop, length_app in H2. lia. }
  rewrite <- Hq. clear q' Hq.
  assert (Hqu : (q <= length u)%nat) by lia.
  rewrite (search_first close (drop q (u ++ close ++ rest)) k);
    [cbn; f_equal; lia | | |].
  - rewrite drop_drop in *.
    replace (q + k)%nat with (length u) in * by lia.
    rewrite drop_app_length. now exists rest.
  - rewrite length_drop, !length_app. lia.
  - intros j Hj Hp. apply (H3 j Hj).
    rewrite drop_drop in *.
    rewrite drop_app_le in * by lia.
    rewrite app_assoc in Hp.
    apply prefix_within in Hp; [exact Hp|].
    rewrite length_app, length_drop. lia.
Qed.

(** More fuel does not change a result. *)
Lemma replaceClose_rec_more fuel : forall fuel' index s close replace r,
  replaceClose_rec fuel index s close replace = Some r ->
  (fuel <= fuel')%nat ->
  replaceClose_rec fuel' index s close replace = Some r.
Proof.
  induction fuel as [|fuel IH]; intros fuel' index s close replace r;
    [discriminate|].
  intros E Hle. destruct fuel' as [|fuel']; [lia|].
  cbn [replaceClose_rec] in *.
  destruct (str_indexOf _ close 0) as [next|]; [|exact E].
  destruct (replaceClose_rec fuel next _ close replace) as [r'|] eqn:E';
    [|discriminate].
  rewrite (IH fuel' _ _ _ _ _ E') by lia. exact E.
Qed.

(** The recursion ends when [close] is not empty. *)
Lemma replaceClose_rec_total close replace :
  close <> [] ->
  forall fuel index s, (length s < fuel)%nat ->
    is_Some (replaceClose_rec fuel index s close replace).
Proof.
  intros Hclose.
  assert (Hlen : (0 < length close)%nat)
    by (destruct close; [congruence | simpl; lia]).
  induction fuel as [|fuel IH]; intros index s Hs; [lia|].
  cbn [replaceClose_rec].
  destruct (str_indexOf _ close 0) as [next|] eqn:E; [|eexists; reflexivity].
  destruct (IH next (drop (index + length close) s)) as [r Hr].
  - rewrite str_indexOf_0 in E. apply search_Some in E.
    destruct E as (Hp & Hnext & _).
    apply prefix_length in Hp. rewrite !length_drop in *. lia.
  - rewrite Hr. eexists. reflexivity.
Qed.

Lemma search_empty s : search [] s = Some 0%nat.
Proof.
  destruct s; cbn [search]; case_bool_decide as Hp; try reflexivity;
    exfalso; apply Hp; apply prefix_nil.
Qed.

(** A scan that ends has a [close] that is not empty. *)
Lemma scanned_close us : forall pos close u,
  scanned pos close u us -> close <> [].
Proof.
  induction us as [|u' us IH]; intros pos close u; cbn [scanned].
  - intros E ->. unfold str_indexOf in E. now rewrite search_empty in E.
  - intros [_ Hrest]. exact (IH _ _ _ Hrest).
Qed.

(** What [replaceClose] makes of the parts behind an occurrence of
    [close]. *)
Lemma replaceClose_rec_parts close replace us : forall fuel pre u,
  scanned 0 close u us ->
  (length (pre ++ close ++ joined close u us) < fuel)%nat ->
  replaceClose_rec fuel (length pre) (pre ++ close ++ joined close u us)
                   close replace
  = Some (pre ++ replace ++ joined replace u us).
Proof.
  induction us as [|u' us IH]; intros fuel pre u Hscan Hfuel;
    pose proof (scanned_close _ _ _ _ Hscan) as Hclose;
    (destruct fuel as [|fuel]; [lia|]); cbn [replaceClose_rec joined scanned] in *.
  - rewrite take_app_length.
    rewrite app_assoc, <- length_app, drop_app_length.
    rewrite Hscan. now rewrite <- app_assoc.
  - destruct Hscan as [Hhere Hrest].
    rewrite take_app_length.
    rewrite (app_assoc pre close), <- length_app, drop_app_length.
    rewrite (str_indexOf_part 0 u close (joined close u' us) Hclose Hhere).
    rewrite (IH fuel u u' Hrest).
    + cbn. now rewrite <- !app_assoc.
    + assert (Hlen : (0 < length close)%nat)
        by (destruct close; [congruence | simpl; lia]).
      rewrite !length_app in *. lia.
Qed.

Lemma filterEmpty_parts open close (replace : option (list A)) u us :
  joined close u us <> [] ->
  scanned (length open + 1) close u us ->
  filterEmpty open close replace (joined close u us)
  = Some (open ++ joined (default open replace) u us ++ close).
Proof.
  intros Hne Hscan. pose proof (scanned_close _ _ _ _ Hscan) as Hclose.
  unfold filterEmpty.
  destruct (joined close u us) as [|x s] eqn:Es; [congruence|].
  rewrite <- Es. clear x s Es Hne.
  destruct us as [|u' us]; cbn [joined scanned] in *.
  - rewrite Hscan. reflexivity.
  - destruct Hscan as [Hhere Hrest].
    rewrite (str_indexOf_part _ u close (joined close u' us) Hclose Hhere).
    cbn [clearBleed]. unfold replaceClose.
    rewrite (replaceClose_rec_parts close (default open replace) us _ u u' Hrest)
      by lia.
    reflexivity.
Qed.

Lemma filterEmpty_brackets open close (replace : option (list A)) s :
  close <> [] -> s <> [] ->
  exists body, filterEmpty open close replace s = Some (open ++ body ++ close).
Proof.
  intros Hclose Hs. unfold filterEmpty.
  destruct s as [|x s]; [congruence|].
  destruct (str_indexOf (x :: s) close (length open + 1)) as [i|];
    cbn [clearBleed]; [|eexists; reflexivity].
  unfold replaceClose.
  destruct (replaceClose_rec_total close (default open replace) Hclose
              (S (length (x :: s))) i (x :: s)) as [r Hr]; [lia|].
  rewrite Hr. eexists. reflexivity.
Qed.

End SearchFacts.

Lemma code_not_empty n : code n <> [].
Proof. unfold code, units. discriminate. Qed.

Lemma colorize_filterEmpty c s :
  colorize true c s
  = filterEmpty (open_of c) (close_of c) (snd (color_codes c)) s.
Proof.
  unfold colorize, getColor, createColors, colorDefs, open_of, close_of, init.
  now destruct (color_codes c) as [[o cl] rep].
Qed.

(** X11. Colouring a text in which the closing code of the colour occurs:
    every occurrence met by the scan from the left is replaced by the
    replacement of the colour (its opening code, or for bold and dim the
    closing code followed by the opening code), so that the colour goes on
    behind a nested coloured part; the text is put between the opening and
    the closing code.  A text without the closing code is put between the
    two codes unchanged. *)
Theorem colorize_reopens_after_inner_close
    (c : Color.ColorName) (u : ustring) (us : list ustring)
    (Hne : joined (close_of c) u us <> [])
    (Hscan : scanned (length (open_of c) + 1) (close_of c) u us) :
  colorize true c (joined (close_of c) u us)
  = Some (open_of c ++ joined (replace_of c) u us ++ close_of c).
Proof.
  rewrite colorize_filterEmpty.
  now rewrite (filterEmpty_parts _ _ _ u us Hne Hscan).
Qed.

(** X11, at [red("say " + blue("hi") + " twice " + green("now") + "!")]
    and at [bold("plain")]. *)
Lemma colorize_reopens_after_inner_close_witness :
  colorize true Color.red
    (units "say " ++ code 34 ++ units "hi" ++ code 39 ++ units " twice "
     ++ code 32 ++ units "now" ++ code 39 ++ units "!")
  = Some (code 31 ++ units "say " ++ code 34 ++ units "hi" ++ code 31
          ++ units " twice " ++ code 32 ++ units "now" ++ code 31
          ++ units "!" ++ code 39)
  /\ colorize true Color.bold (units "plain")
     = Some (code 1 ++ units "plain" ++ code 22).
Proof.
  split.
  - pose proof (colorize_reopens_after_inner_close Color.red
                  (units "say " ++ code 34 ++ units "hi")
                  [units " twice " ++ code 32 ++ units "now"; units "!"]) as H.
    vm_compute in H. vm_compute. apply H; [discriminate | auto].
  - pose proof (colorize_reopens_after_inner_close Color.bold
                  (units "plain") []) as H.
    vm_compute in H. vm_compute. apply H; [discriminate | auto].
Defined.

(** X12. A text that is not empty always comes back coloured, between the
    opening and the closing code of the colour, whatever it holds; without
    colour support it comes back as it is, and the empty text stays
    empty. *)
Theorem coloured_text_is_bracketed
    (c : Color.ColorName) (s : ustring) (Hs : s <> []) :
  (exists body, colorize true c s = Some (open_of c ++ body ++ close_of c))
  /\ colorize false c s = Some s
  /\ colorize true c [] = Some [].
Proof.
  split; [|split].
  - rewrite colorize_filterEmpty.
    apply filterEmpty_brackets; [apply code_not_empty | exact Hs].
  - reflexivity.
  - rewrite colorize_filterEmpty. reflexivity.
Qed.

Lemma coloured_text_is_bracketed_witness :
  exists body,
    colorize true Color.cyan (code 36 ++ units "x" ++ code 39 ++ code 39)
    = Some (code 36 ++ body ++ code 39).
Proof.
  destruct (coloured_text_is_bracketed Color.cyan
              (code 36 ++ units "x" ++ code 39 ++ code 39)) as [H _].
  - vm_compute. discriminate.
  - exact H.
Defined.

(** ** Alignment *)

Lemma accumulate_from (f : Z -> ustring) (l : list nat) (acc : ustring) :
  fold_left (fun _str i => _str ++ f (Z.of_nat i)) l acc
  = acc ++ concat (map (fun i => f (Z.of_nat i)) l).
Proof.
  revert acc. induction l as [|i l IH]; intros acc; cbn [fold_left map concat].
  - now rewrite app_nil_r.
  - now rewrite IH, app_assoc.
Qed.

Lemma accumulate_concat len f :
  accumulate len f
  = concat (map (fun i => f (Z.of_nat i)) (seq 0 (Z.to_nat len))).
Proof. unfold accumulate. now rewrite accumulate_from. Qed.

Lemma concat_chars (str : ustring) (k off : nat) (g : Z -> ustring) :
  (k <= length str)%nat ->
  (forall i, (i < k)%nat ->
     g (Z.of_nat (off + i)) = char_at str (Z.of_nat i)) ->
  concat (map (fun i => g (Z.of_nat i)) (seq off k)) = take k str.
Proof.
  revert off. induction k as [|k IH]; intros off Hk Hg.
  - now rewrite take_0.
  - rewrite seq_S, map_app, concat_app. cbn [map concat].
    rewrite IH by (try lia; intros i Hi; apply Hg; lia).
    rewrite Hg by lia. rewrite app_nil_r.
    unfold char_at.
    destruct (str !! k) as [x|] eqn:E.
    + replace (Z.of_nat k <? 0) with false by (symmetry; apply Z.ltb_ge; lia).
      rewrite Nat2Z.id, E. symmetry. now apply take_S_r.
    + apply lookup_ge_None in E. lia.
Qed.

Lemma concat_spaces (space : ustring) (k off : nat) (g : Z -> ustring) :
  (forall i, (i < k)%nat -> g (Z.of_nat (off + i)) = space) ->
  concat (map (fun i => g (Z.of_nat i)) (seq off k))
  = concat (replicate k space).
Proof.
  revert off. induction k as [|k IH]; intros off Hg; [reflexivity|].
  cbn [seq map concat replicate].
  rewrite <- (Hg 0%nat) at 1 by lia. rewrite Nat.add_0_r. f_equal.
  apply IH. intros i Hi. rewrite <- (Hg (S i)) by lia. f_equal. lia.
Qed.

(** A loop over [a + b + c] indexes that yields [a] spaces, the text and
    [c] spaces. *)
Lemma accumulate_three (str space : ustring) (a c : nat) (g : Z -> ustring) :
  (forall i, (i < a)%nat -> g (Z.of_nat i) = space) ->
  (forall i, (i < length str)%nat ->
     g (Z.of_nat (a + i)) = char_at str (Z.of_nat i)) ->
  (forall i, (i < c)%nat -> g (Z.of_nat (a + length str + i)) = space) ->
  accumulate (Z.of_nat (a + length str + c)) g
  = concat (replicate a space) ++ str ++ concat (replicate c space).
Proof.
  intros Ha Hs Hc. rewrite accumulate_concat, Nat2Z.id.
  rewrite !seq_app, !map_app, !concat_app. cbn [Nat.add].
  rewrite (concat_spaces space a 0) by exact Ha.
  rewrite (concat_chars str (length str) a) by (try lia; exact Hs).
  rewrite (concat_spaces space c (a + length str)) by exact Hc.
  now rewrite firstn_all, app_assoc.
Qed.

Lemma leftAlign_form str len space :
  leftAlign str len space
  = take (Z.to_nat len) str
    ++ padding_of space (len - Z.of_nat (length str)).
Proof.
  unfold leftAlign, padding_of.
  set (g := fun i : Z =>
              if i <? Z.of_nat (length str) then char_at str i else space).
  rewrite accumulate_concat.
  assert (Hin : forall i, (i < length str)%nat ->
                  g (Z.of_nat i) = char_at str (Z.of_nat i)).
  { intros i Hi. unfold g.
    now replace (Z.of_nat i <? Z.of_nat (length str)) with true
      by (symmetry; apply Z.ltb_lt; lia). }
  destruct (Z_le_gt_dec len (Z.of_nat (length str))) as [Hle|Hgt].
  - replace (Z.to_nat (len - Z.of_nat (length str))) with 0%nat by lia.
    cbn [replicate concat]. rewrite app_nil_r.
    apply (concat_chars str (Z.to_nat len) 0 g); [lia|].
    intros i Hi. apply Hin. lia.
  - replace (Z.to_nat len)
      with (length str + Z.to_nat (len - Z.of_nat (length str)))%nat by lia.
    rewrite seq_app, map_app, concat_app. cbn [Nat.add].
    rewrite (concat_chars str (length str) 0 g) by (try lia; exact Hin).
    rewrite (concat_spaces space _ (length str) g).
    + now rewrite firstn_all, take_ge by lia.
    + intros i Hi. unfold g.
      now replace (Z.of_nat (length str + i) <? Z.of_nat (length str))
        with false by (symmetry; apply Z.ltb_ge; lia).
Qed.

Lemma rightAlign_form str len space :
  Z.of_nat (length str) <= len ->
  rightAlign str len space
  = padding_of space (len - Z.of_nat (length str)) ++ str.
Proof.
  intros Hlen. unfold rightAlign, padding_of.
  set (free := len - Z.of_nat (length str)).
  destruct (free <=? 0) eqn:E.
  - apply Z.leb_le in E. replace (Z.to_nat free) with 0%nat by lia.
    reflexivity.
  - apply Z.leb_gt in E.
    replace len with (Z.of_nat (Z.to_nat free + length str + 0)) at 1 by lia.
    rewrite (accumulate_three str space (Z.to_nat free) 0).
    + cbn [replicate concat]. now rewrite app_nil_r.
    + intros i Hi.
      now replace (Z.of_nat i <? free) with true
        by (symmetry; apply Z.ltb_lt; lia).
    + intros i Hi.
      replace (Z.of_nat (Z.to_nat free + i) <? free) with false
        by (symmetry; apply Z.ltb_ge; lia).
      f_equal. lia.
    + intros i Hi. lia.
Qed.

Lemma centerAlign_form str len space :
  Z.of_nat (length str) <= len ->
  let free := len - Z.of_nat (length str) in
  centerAlign str len space
  = padding_of space (free `div` 2) ++ str
    ++ padding_of space (free - free `div` 2).
Proof.
  intros Hlen free. unfold centerAlign, padding_of. fold free.
  destruct (free <=? 0) eqn:E.
  - apply Z.leb_le in E. assert (free = 0) as -> by (subst free; lia).
    cbn. now rewrite app_nil_r.
  - apply Z.leb_gt in E.
    assert (Hhalf : 0 <= free `div` 2 <= free).
    { split; [apply Z.div_pos; lia|]. apply Z.div_le_upper_bound; lia. }
    set (fl := free `div` 2) in *.
    replace len
      with (Z.of_nat (Z.to_nat fl + length str + Z.to_nat (free - fl)))
      at 1 by lia.
    apply accumulate_three.
    + intros i Hi.
      now replace (Z.of_nat i <? fl) with true
        by (symmetry; apply Z.ltb_lt; lia).
    + intros i Hi.
      replace (Z.of_nat (Z.to_nat fl + i) <? fl) with false
        by (symmetry; apply Z.ltb_ge; lia).
      replace (fl + Z.of_nat (length str) <=? Z.of_nat (Z.to_nat fl + i))
        with false by (symmetry; apply Z.leb_gt; lia).
      cbn [orb]. f_equal. lia.
    + intros i Hi.
      replace (fl + Z.of_nat (length str)
               <=? Z.of_nat (Z.to_nat fl + length str + i))
        with true by (symmetry; apply Z.leb_le; lia).
      now rewrite orb_true_r.
Qed.

(** X13. A text that fits into [len] units is padded with copies of
    [space]: on the right by [leftAlign], on the left by [rightAlign], on
    both sides by [centerAlign], which puts the odd copy on the right. *)
Theorem align_pads_a_text_that_fits
    (str space : ustring) (len : Z) (Hfit : Z.of_nat (length str) <= len) :
  let free := len - Z.of_nat (length str) in
  align left_ str len space = str ++ padding_of space free
  /\ align right_ str len space = padding_of space free ++ str
  /\ align center_ str len space
     = padding_of space (free `div` 2) ++ str
       ++ padding_of space (free - free `div` 2).
Proof.
  intros free. cbn [align]. split; [|split].
  - rewrite leftAlign_form. fold free.
    now rewrite firstn_all2 by lia.
  - now apply rightAlign_form.
  - now apply centerAlign_form.
Qed.

Lemma align_pads_a_text_that_fits_witness :
  align left_ (units "ab") 5 (units ".") = units "ab..."
  /\ align right_ (units "ab") 5 (units ".") = units "...ab"
  /\ align center_ (units "ab") 5 (units ".") = units ".ab..".
Proof.
  pose proof (align_pads_a_text_that_fits (units "ab") (units ".") 5) as H.
  apply H. vm_compute. discriminate.
Defined.

(** X14. A text longer than [len] is cut to its first [len] units by
    [leftAlign] (to nothing when [len] is not positive), where
    [rightAlign] and [centerAlign] give it back whole. *)
Theorem align_of_a_text_too_long
    (str space : ustring) (len : Z) (Hlong : len < Z.of_nat (length str)) :
  align left_ str len space = take (Z.to_nat len) str
  /\ align right_ str len space = str
  /\ align center_ str len space = str.
Proof.
  cbn [align]. split; [|split].
  - rewrite leftAlign_form. unfold padding_of.
    replace (Z.to_nat (len - Z.of_nat (length str))) with 0%nat by lia.
    cbn [replicate concat]. now rewrite app_nil_r.
  - unfold rightAlign.
    now replace (len - Z.of_nat (length str) <=? 0) with true
      by (symmetry; apply Z.leb_le; lia).
  - unfold centerAlign.
    now replace (len - Z.of_nat (length str) <=? 0) with true
      by (symmetry; apply Z.leb_le; lia).
Qed.

Lemma align_of_a_text_too_long_witness :
  align left_ (units "abcdef") 4 (units " ") = units "abcd"
  /\ align right_ (units "abcdef") 4 (units " ") = units "abcdef"
  /\ align center_ (units "abcdef") 4 (units " ") = units "abcdef".
Proof.
  pose proof (align_of_a_text_too_long (units "abcdef") (units " ") 4) as H.
  apply H. vm_compute. reflexivity.
Defined.

(** ** More on boxes *)

Lemma js_length_nonneg s : 0 <= Box.js_length s.
Proof.
  induction s as [|ch s IH]; cbn [Box.js_length]; [lia|].
  destruct (_ && _)%bool; [lia|]. destruct (Nat.leb 240 _); lia.
Qed.

Lemma fold_max_ge (xs : list Z) : forall x,
  x <= fold_left Z.max xs x
  /\ Forall (fun y => y <= fold_left Z.max xs x) xs.
Proof.
  induction xs as [|y xs IH]; intros x; cbn [fold_left].
  - split; [lia | constructor].
  - destruct (IH (Z.max x y)) as [H1 H2]. split; [lia|].
    constructor; [lia | exact H2].
Qed.

Lemma max_list_ge xs : Forall (fun y => y <= Box.max_list xs) xs.
Proof.
  destruct xs as [|x xs]; [constructor|]. cbn [Box.max_list].
  destruct (fold_max_ge xs x). now constructor.
Qed.

Lemma split_nl_nonempty s : split_nl s <> [].
Proof. apply split_nl_aux_nonempty. Qed.

Lemma js_repeat_nonneg s n :
  0 <= n -> Box.js_repeat s n = Some (Box.repeat_nat s (Z.to_nat n)).
Proof.
  intros Hn. unfold Box.js_repeat.
  now replace (n <? 0) with false by (symmetry; apply Z.ltb_ge; lia).
Qed.

Lemma js_repeat_negative s n : n < 0 -> Box.js_repeat s n = None.
Proof.
  intros Hn. unfold Box.js_repeat.
  now replace (n <? 0) with true by (symmetry; apply Z.ltb_lt; lia).
Qed.

Lemma leftSpace_value m :
  (if 0 <? m then Box.js_repeat " " m else Some "")
  = Some (Box.repeat_nat " " (Z.to_nat m)).
Proof.
  destruct (Z.ltb_spec 0 m).
  - apply js_repeat_nonneg. lia.
  - destruct m; try reflexivity. lia.
Qed.

Lemma margin_value m :
  (if 0 <? m then Box.js_repeat "" m ≫= (fun s => Some [s]) else Some [])
  = Some (if 0 <? m then [""] else []).
Proof.
  destruct (Z.ltb_spec 0 m); [|reflexivity].
  rewrite js_repeat_nonneg by lia. cbn. now rewrite repeat_nat_empty.
Qed.

Lemma Forall2_seq_replicate {B} (P : Z -> B -> Prop) (y : B) (k : nat) :
  forall off,
  (forall i, (off <= i < off + k)%nat -> P (Z.of_nat i) y) ->
  Forall2 P (map Z.of_nat (seq off k)) (replicate k y).
Proof.
  induction k as [|k IH]; intros off HP; cbn [seq map replicate];
    constructor.
  - apply HP. lia.
  - apply IH. intros i Hi. apply HP. lia.
Qed.

Lemma Forall2_seq_map {A B} (P : Z -> B -> Prop) (g : A -> B) (l : list A) :
  forall off,
  (forall j x, l !! j = Some x -> P (Z.of_nat (off + j)) (g x)) ->
  Forall2 P (map Z.of_nat (seq off (length l))) (map g l).
Proof.
  induction l as [|x l IH]; intros off HP; cbn [length seq map]; constructor.
  - rewrite <- (Nat.add_0_r off) at 1. now apply HP.
  - apply IH. intros j y Hj.
    replace (S off + j)%nat with (off + S j)%nat by lia. now apply HP.
Qed.

Section BoxFacts.

Variable getColor : Color.ColorName -> string -> string.
Variable stripAnsi : string -> string.

Lemma box_width_bounds text opts line :
  0 <= box_paddingOffset opts ->
  In line (split_nl text) ->
  box_paddingOffset opts
  <= box_width stripAnsi text opts - Box.js_length (stripAnsi line)
  /\ 0 <= box_width stripAnsi text opts + box_paddingOffset opts.
Proof.
  intros Hpo Hin. unfold box_width.
  pose proof (max_list_ge
    (map (fun line => Box.js_length (stripAnsi line)) (split_nl text))) as Hmax.
  rewrite Forall_forall in Hmax.
  specialize (Hmax (Box.js_length (stripAnsi line))).
  assert (Box.js_length (stripAnsi line) <= Box.max_list
    (map (fun line => Box.js_length (stripAnsi line)) (split_nl text))) as Hle.
  { apply Hmax. apply list_elem_of_In.
    apply (in_map (fun line => Box.js_length (stripAnsi line))). exact Hin. }
  pose proof (js_length_nonneg (stripAnsi line)). lia.
Qed.

Lemma paddingOffset_nonneg opts :
  0 <= Box.padding (Box.merge_style (Box.style opts)) ->
  0 <= box_paddingOffset opts.
Proof. unfold box_paddingOffset. destruct (_ =? 0); lia. Qed.

Lemma paddingOffset_even opts :
  0 <= Box.padding (Box.merge_style (Box.style opts)) ->
  box_paddingOffset opts = 2 * (box_paddingOffset opts `div` 2).
Proof.
  intros Hp. unfold box_paddingOffset.
  set (p := Box.padding _) in *.
  destruct (Z.eqb_spec (Z.rem p 2) 0) as [E|E].
  - rewrite Z.rem_mod_nonneg in E by lia.
    apply Z.div_exact; [lia | exact E].
  - rewrite Z.rem_mod_nonneg in E by lia.
    apply Z.div_exact; [lia|].
    pose proof (Z.mod_pos_bound p 2 ltac:(lia)).
    rewrite Z.add_mod by lia.
    replace (p `mod` 2) with 1 by lia. reflexivity.
Qed.

(** X15. A box without title and with a padding that is not negative is
    always drawn.  Its lines are: an empty line for a positive top margin,
    the top border, the rows of the interior, the bottom border, and an
    empty line for a positive bottom margin.  The interior holds one row
    for each line of the text, in order, each line behind the padding and
    filled with spaces up to the widest line plus the padding; the rows
    without text, as many as the padding made even, are all below the
    text for [top], all above it for [bottom], and half above and half
    below for [center]. *)
Theorem box_rows_layout (text : string) (opts : Box.BoxOpts)
    (Htitle : truthy_str (Box.title opts) = false)
    (Hpad : 0 <= Box.padding (Box.merge_style (Box.style opts))) :
  let st := Box.merge_style (Box.style opts) in
  let above := box_valignOffset opts in
  let below := box_paddingOffset opts - above in
  Box.boxLines getColor stripAnsi text opts
  = Some ((if 0 <? Box.marginTop st then [""] else [])
          ++ [box_top_line getColor stripAnsi text opts]
          ++ (replicate (Z.to_nat above)
                        (box_blank_row getColor stripAnsi text opts)
              ++ map (box_text_row getColor stripAnsi text opts)
                     (split_nl text)
              ++ replicate (Z.to_nat below)
                           (box_blank_row getColor stripAnsi text opts))
          ++ [box_bottom_line getColor stripAnsi text opts]
          ++ (if 0 <? Box.marginBottom st then [""] else []))
  /\ 0 <= above /\ 0 <= below.
Proof.
  intros st above below.
  pose proof (paddingOffset_nonneg opts Hpad) as Hpo.
  pose proof (paddingOffset_even opts Hpad) as Heven.
  assert (Habove : 0 <= above <= box_paddingOffset opts).
  { unfold above, box_valignOffset. destruct (Box.valign _); lia. }
  split; [|unfold below; lia].
  assert (Hwo : 0 <= box_width stripAnsi text opts + box_paddingOffset opts).
  { destruct (split_nl text) as [|l0 ls] eqn:E;
      [now apply split_nl_nonempty in E|].
    apply (box_width_bounds text opts l0 Hpo). rewrite E. now left. }
  unfold Box.boxLines. fold st.
  change (if Z.rem (Box.padding st) 2 =? 0 then Box.padding st
          else Box.padding st + 1) with (box_paddingOffset opts).
  change (Box.max_list
            (map (fun line => Box.js_length (stripAnsi line)) (split_nl text))
          + box_paddingOffset opts) with (box_width stripAnsi text opts).
  change (Box.paint (getColor (Box.borderColor st))
            match Box.borderStyle st with
            | inl custom => custom
            | inr name =>
                default (Box.mkBorder "┌" "┐" "└" "┘" "─" "│")
                        (Box.preset name Box.boxStylePresets)
            end) with (box_border getColor opts).
  rewrite leftSpace_value, !margin_value, Htitle.
  cbn [mbind option_bind].
  rewrite (js_repeat_nonneg _ _ Hwo). cbn [mbind option_bind].
  fold (leftSpace_of opts).
  set (vo := match Box.valign st with
             | Box.top => _ | Box.center => _ | Box.bottom => _ end).
  assert (Hvo : vo = above).
  { unfold vo, above, box_valignOffset. fold st.
    destruct (Box.valign st); [lia | f_equal; lia | lia]. }
  rewrite Hvo. clear vo Hvo.
  set (n := length (split_nl text)).
  replace (Z.to_nat (Z.of_nat n + box_paddingOffset opts))
    with (Z.to_nat above + n + Z.to_nat below)%nat by (unfold below; lia).
  rewrite (mapM_Some_2 _ _
    (replicate (Z.to_nat above) (box_blank_row getColor stripAnsi text opts)
     ++ map (box_text_row getColor stripAnsi text opts) (split_nl text)
     ++ replicate (Z.to_nat below)
          (box_blank_row getColor stripAnsi text opts))).
  { reflexivity. }
  rewrite !seq_app, !map_app, <- app_assoc. cbn [Nat.add].
  repeat apply Forall2_app.
  - apply Forall2_seq_replicate. intros i Hi. unfold Box.row.
    replace (Z.of_nat i <? above) with true
      by (symmetry; apply Z.ltb_lt; lia).
    cbn [orb]. now rewrite (js_repeat_nonneg _ _ Hwo).
  - apply Forall2_seq_map. intros j line Hj. unfold Box.row. fold n.
    pose proof (lookup_lt_Some _ _ _ Hj) as Hlt. fold n in Hlt.
    replace (Z.of_nat (Z.to_nat above + j) <? above) with false
      by (symmetry; apply Z.ltb_ge; lia).
    replace (above + Z.of_nat n <=? Z.of_nat (Z.to_nat above + j)) with false
      by (symmetry; apply Z.leb_gt; lia).
    cbn [orb].
    replace (Z.to_nat (Z.of_nat (Z.to_nat above + j) - above)) with j by lia.
    rewrite Hj. cbn [default from_option id].
    rewrite (js_repeat_nonneg _ _ Hpo). cbn [mbind option_bind].
    rewrite js_repeat_nonneg; [reflexivity|].
    apply list_elem_of_lookup_2, list_elem_of_In in Hj.
    pose proof (box_width_bounds text opts line Hpo Hj). lia.
  - apply Forall2_seq_replicate. intros i Hi. unfold Box.row. fold n.
    replace (above + Z.of_nat n <=? Z.of_nat i) with true
      by (symmetry; apply Z.leb_le; lia).
    rewrite orb_true_r. now rewrite (js_repeat_nonneg _ _ Hwo).
Qed.

(** X16. A title wider than the interior of the box, that is the widest
    line of the text plus the padding made even, makes [box] fail with
    the [RangeError] of [repeat], whatever the rest of the options. *)
Theorem box_title_too_wide (text : string) (opts : Box.BoxOpts) (t : string)
    (Htitle : Box.title opts = Some t) (Hne : t <> "")
    (Hwide : box_width stripAnsi text opts < Box.js_length (stripAnsi t)) :
  Box.box getColor stripAnsi text opts = None.
Proof.
  unfold Box.box, Box.boxLines.
  set (st := Box.merge_style (Box.style opts)).
  change (if Z.rem (Box.padding st) 2 =? 0 then Box.padding st
          else Box.padding st + 1) with (box_paddingOffset opts).
  change (Box.max_list
            (map (fun line => Box.js_length (stripAnsi line)) (split_nl text))
          + box_paddingOffset opts) with (box_width stripAnsi text opts).
  rewrite leftSpace_value, !margin_value, Htitle.
  cbn [mbind option_bind default from_option id].
  assert (Ht : truthy_str (Some t) = true).
  { unfold truthy_str. now destruct (String.eqb_spec t ""). }
  rewrite Ht.
  rewrite (js_repeat_negative _
             ((box_width stripAnsi text opts - Box.js_length (stripAnsi t))
              `div` 2)); [reflexivity|].
  apply Z.div_lt_upper_bound; lia.
Qed.

End BoxFacts.

Lemma box_rows_layout_witness :
  Box.boxLines plain_color no_escapes ("one" +:+ nl +:+ "three")
    (Box.mkBoxOpts None
       (Some (Box.mkPartialStyle None None (Some Box.bottom) (Some 1) None
                                 (Some 0) (Some 0))))
  = Some [ " ╭─────────╮";
           " │         │";
           " │         │";
           " │  one    │";
           " │  three  │";
           " ╰─────────╯" ].
Proof.
  destruct (box_rows_layout plain_color no_escapes ("one" +:+ nl +:+ "three")
    (Box.mkBoxOpts None
       (Some (Box.mkPartialStyle None None (Some Box.bottom) (Some 1) None
                                 (Some 0) (Some 0))))) as [H _].
  - reflexivity.
  - vm_compute. discriminate.
  - rewrite H. vm_compute. reflexivity.
Defined.

Lemma box_title_too_wide_witness :
  Box.box plain_color no_escapes "Hi"
    (Box.mkBoxOpts (Some "Release notes") None) = None.
Proof.
  apply (box_title_too_wide plain_color no_escapes "Hi"
           (Box.mkBoxOpts (Some "Release notes") None) "Release notes").
  - reflexivity.
  - discriminate.
  - vm_compute. reflexivity.
Defined.

(** ** More on trees *)

(** Induction on an item with the property at hand for its children. *)
Lemma TreeItem_children_ind (P : Tree.TreeItem -> Prop) :
  (forall text, P (Tree.TStr text)) ->
  (forall text children color,
     match children with
     | Some cs => Forall P cs
     | None => True
     end ->
     P (Tree.TObj text children color)) ->
  forall item, P item.
Proof.
  intros Hstr Hobj. fix IH 1. intros [text|text children color].
  - apply Hstr.
  - apply Hobj. destruct children as [cs|]; [|exact I].
    induction cs as [|x cs IHcs]; constructor; [apply IH | exact IHcs].
Qed.

Section TreeFacts.

Variable colorize : Color.ColorName -> string -> string.

(** Below the limit the loop appends the chunks of each item in turn. *)
Lemma for_items_unlimited onLimit push items : forall chunks,
  Tree.for_items false onLimit push items chunks
  = chunks
    ++ concat (imap (fun i item =>
                       push item (bool_decide (S i = length items)))
                    items).
Proof.
  induction items as [|item rest IH] using rev_ind; intros chunks.
  - cbn. now rewrite app_nil_r.
  - assert (Hgen : forall (l : list Tree.TreeItem) (tl : list Tree.TreeItem) acc,
      Tree.for_items false onLimit push (l ++ tl) acc
      = Tree.for_items false onLimit push tl
          (acc ++ concat (imap (fun i item =>
                                  push item
                                    (match drop (S i) (l ++ tl) with
                                     | [] => true | _ => false end)) l))).
    { induction l as [|x l IHl]; intros tl acc.
      - cbn. now rewrite app_nil_r.
      - cbn [app Tree.for_items imap concat].
        rewrite IHl. f_equal. rewrite <- app_assoc. f_equal. }
    rewrite Hgen. cbn [Tree.for_items]. rewrite <- app_assoc. f_equal.
    rewrite imap_app, concat_app. cbn [imap concat].
    rewrite app_nil_r, Nat.add_0_r.
    f_equal.
    + f_equal. apply imap_ext. intros i x Hi.
      apply lookup_lt_Some in Hi.
      rewrite length_app. cbn [length].
      rewrite bool_decide_eq_false_2 by lia.
      destruct (drop (S i) (rest ++ [item])) eqn:E; [|reflexivity].
      apply (f_equal length) in E.
      rewrite length_drop, length_app in E. cbn in E. lia.
    + rewrite length_app. cbn [length].
      rewrite bool_decide_eq_true_2 by lia. reflexivity.
Qed.

Lemma Forall2_concat_flat_map {A B C} (R : B -> C -> Prop)
    (f : nat -> A -> list B) (g : A -> list C) (l : list A) :
  (forall i x, l !! i = Some x -> Forall2 R (f i x) (g x)) ->
  Forall2 R (concat (imap f l)) (flat_map g l).
Proof.
  revert f. induction l as [|x l IH]; intros f Hf; cbn; [constructor|].
  apply Forall2_app.
  - now apply (Hf 0%nat).
  - apply IH. intros i y Hi. now apply (Hf (S i)).
Qed.

Lemma push_item_lines item : forall options isLast,
  Tree.maxDepth options = None ->
  Forall2 (line_of colorize) (Tree.push_item colorize options item isLast)
          (preorder_item item).
Proof.
  induction item as [text|text children color IH]
    using TreeItem_children_ind; intros options isLast Hdepth.
  - cbn [Tree.push_item preorder_item]. repeat constructor.
    eexists. cbn [fst snd]. reflexivity.
  - cbn [Tree.push_item preorder_item app].
    constructor.
    { eexists. cbn [fst snd]. destruct color; reflexivity. }
    destruct children as [cs|]; [|constructor].
    assert (Hlim : Tree.isLimit (Tree.child_options options isLast) = false).
    { unfold Tree.isLimit, Tree.child_options. cbn. now rewrite Hdepth. }
    rewrite Hlim, for_items_unlimited. cbn [app].
    apply Forall2_concat_flat_map. intros i x Hi.
    cbn in IH. rewrite Forall_forall in IH.
    apply IH.
    + eapply list_elem_of_lookup_2. exact Hi.
    + unfold Tree.child_options. cbn. now rewrite Hdepth.
Qed.

(** X17. Without a depth limit the tree holds one chunk for every node,
    none left out and none twice, in the order that puts a node before
    its children and the children in the order given; the chunk is the
    text of the node behind its indentation and before a newline,
    coloured with the colour of the node if it has one. *)
Theorem tree_draws_every_node_in_preorder
    (items : list Tree.TreeItem) (options : Tree.TreeOptions)
    (Hdepth : Tree.maxDepth options = None) :
  Forall2 (line_of colorize) (Tree._buildTree colorize items options)
          (preorder items).
Proof.
  unfold Tree._buildTree, Tree.isLimit. rewrite Hdepth.
  rewrite for_items_unlimited. cbn [app].
  apply Forall2_concat_flat_map. intros i x Hi.
  now apply push_item_lines.
Qed.

End TreeFacts.

Lemma tree_draws_every_node_in_preorder_witness :
  Forall2 (line_of plain_color)
    (Tree._buildTree plain_color
       [Tree.TObj "a" (Some [Tree.TStr "b"; Tree.TStr "c"]) None;
        Tree.TStr "d"]
       (Tree.mkTreeOptions None (Some "") None None))
    [("a", None); ("b", None); ("c", None); ("d", None)].
Proof.
  apply (tree_draws_every_node_in_preorder plain_color
           [Tree.TObj "a" (Some [Tree.TStr "b"; Tree.TStr "c"]) None;
            Tree.TStr "d"]
           (Tree.mkTreeOptions None (Some "") None None)).
  reflexivity.
Defined.

Section TreeDepthFacts.

Variable colorize : Color.ColorName -> string -> string.

Lemma push_item_cut item : forall options isLast n,
  Tree.maxDepth options = Some (Z.of_nat (S n)) ->
  Forall2 (shows colorize (Tree.tpl (Tree.ellipsis options)))
          (Tree.push_item colorize options item isLast)
          (cut_item item n).
Proof.
  induction item as [text|text children color IH]
    using TreeItem_children_ind; intros options isLast n Hdepth.
  - cbn [Tree.push_item cut_item]. repeat constructor.
    eexists. reflexivity.
  - cbn [Tree.push_item cut_item app].
    constructor.
    { eexists. destruct color; reflexivity. }
    destruct children as [cs|]; [|constructor].
    set (o' := Tree.child_options options isLast).
    assert (Hd' : Tree.maxDepth o' = Some (Z.of_nat n)).
    { unfold o', Tree.child_options. cbn [Tree.maxDepth]. rewrite Hdepth.
      f_equal. lia. }
    assert (Hdots : Tree.ellipsis o' = Tree.ellipsis options) by reflexivity.
    destruct n as [|n'].
    + (* the children are at the limit *)
      assert (Hlim : Tree.isLimit o' = true)
        by (unfold Tree.isLimit; now rewrite Hd').
      rewrite Hlim. destruct cs as [|first rest]; cbn [Tree.for_items];
        [constructor|].
      repeat constructor. unfold Tree.limit_line. rewrite Hdots.
      exists (Tree.tpl (Tree.prefix o')).
      destruct first as [t|t ch [c|]]; reflexivity.
    + assert (Hlim : Tree.isLimit o' = false).
      { unfold Tree.isLimit. rewrite Hd'. apply Z.leb_gt. lia. }
      rewrite Hlim, for_items_unlimited. cbn [app].
      apply Forall2_concat_flat_map. intros i x Hi.
      cbn in IH. rewrite Forall_forall in IH.
      rewrite <- Hdots. apply IH.
      * eapply list_elem_of_lookup_2. exact Hi.
      * exact Hd'.
Qed.

(** X18. With a depth limit [maxDepth = n + 1 >= 1] the tree holds the
    line of every node down to depth [n + 1], in the order that puts a
    node before its children, and for every list of children below that
    depth that is not empty one line with the ellipsis, coloured with the
    colour of the first child of the list; nothing else. *)
Theorem tree_is_cut_at_the_depth_limit
    (items : list Tree.TreeItem) (options : Tree.TreeOptions) (n : nat)
    (Hdepth : Tree.maxDepth options = Some (Z.of_nat (S n))) :
  Forall2 (shows colorize (Tree.tpl (Tree.ellipsis options)))
          (Tree._buildTree colorize items options)
          (flat_map (fun item => cut_item item n) items).
Proof.
  unfold Tree._buildTree, Tree.isLimit. rewrite Hdepth.
  replace (Z.of_nat (S n) <=? 0) with false by (symmetry; apply Z.leb_gt; lia).
  rewrite for_items_unlimited. cbn [app].
  apply Forall2_concat_flat_map. intros i x Hi.
  now apply push_item_cut.
Qed.

End TreeDepthFacts.

Lemma tree_is_cut_at_the_depth_limit_witness :
  Forall2 (shows plain_color "...")
    (Tree._buildTree plain_color
       [Tree.TObj "a"
          (Some [Tree.TObj "b" (Some [Tree.TStr "c"; Tree.TStr "d"]) None;
                 Tree.TObj "e" (Some []) None])
          None;
        Tree.TStr "f"]
       (Tree.mkTreeOptions None (Some "") (Some 2) (Some "...")))
    [NodeLine "a" None; NodeLine "b" None; EllipsisLine None;
     NodeLine "e" None; NodeLine "f" None].
Proof.
  apply (tree_is_cut_at_the_depth_limit plain_color
           [Tree.TObj "a"
              (Some [Tree.TObj "b" (Some [Tree.TStr "c"; Tree.TStr "d"]) None;
                     Tree.TObj "e" (Some []) None])
              None;
            Tree.TStr "f"]
           (Tree.mkTreeOptions None (Some "") (Some 2) (Some "...")) 1).
  reflexivity.
Defined.

(** ** Child instances *)

Lemma set_extra_fresh k v (ps : list (string * value)) :
  k ∉ map fst ps -> set_extra k v ps = ps ++ [(k, v)].
Proof.
  induction ps as [|[k' v'] ps IH]; intros Hk; cbn [set_extra app];
    [reflexivity|].
  cbn [map fst] in Hk. apply not_elem_of_cons in Hk. destruct Hk as [Hne Hk].
  destruct (String.eqb_spec k k') as [->|_]; [congruence|].
  now rewrite IH.
Qed.

Lemma set_extra_keys k v (ps : list (string * value)) :
  map fst (set_extra k v ps)
  = if bool_decide (k ∈ map fst ps) then map fst ps else map fst ps ++ [k].
Proof.
  induction ps as [|[k' v'] ps IH]; cbn [set_extra map fst app].
  - rewrite bool_decide_eq_false_2 by apply not_elem_of_nil. reflexivity.
  - destruct (String.eqb_spec k k') as [->|Hne].
    + rewrite bool_decide_eq_true_2 by apply list_elem_of_here. reflexivity.
    + cbn [map fst]. rewrite IH. case_bool_decide as Hin.
      * rewrite bool_decide_eq_true_2 by now apply list_elem_of_further.
        reflexivity.
      * rewrite bool_decide_eq_false_2; [reflexivity|].
        now apply not_elem_of_cons.
Qed.

Lemma set_extra_NoDup k v (ps : list (string * value)) :
  NoDup (map fst ps) -> NoDup (map fst (set_extra k v ps)).
Proof.
  intros Hnd. rewrite set_extra_keys. case_bool_decide as Hin; [exact Hnd|].
  apply NoDup_app. split; [exact Hnd|]. split; [|apply NoDup_singleton].
  intros x Hx Hx'. apply list_elem_of_singleton in Hx'. now subst x.
Qed.

Lemma assign_extra_NoDup (src acc : list (string * value)) :
  NoDup (map fst acc) -> NoDup (map fst (assign_extra acc src)).
Proof.
  unfold assign_extra. revert acc.
  induction src as [|[k v] src IH]; intros acc Hnd; cbn [fold_left];
    [exact Hnd|].
  apply IH. now apply set_extra_NoDup.
Qed.

Lemma assign_extra_fresh (src : list (string * value)) : forall acc,
  NoDup (map fst (acc ++ src)) -> assign_extra acc src = acc ++ src.
Proof.
  unfold assign_extra.
  induction src as [|[k v] src IH]; intros acc Hnd; cbn [fold_left].
  - now rewrite app_nil_r.
  - cbn [fst snd]. rewrite set_extra_fresh.
    + rewrite IH; rewrite <- app_assoc; [reflexivity | exact Hnd].
    + rewrite map_app in Hnd. apply NoDup_app in Hnd.
      destruct Hnd as (_ & Hdisj & _). intros Hin.
      apply (Hdisj k Hin). cbn [map fst]. apply list_elem_of_here.
Qed.

(** Assigning twice to the empty object is assigning once. *)
Lemma assign_extra_twice (e : list (string * value)) :
  assign_extra [] (assign_extra [] e) = assign_extra [] e.
Proof.
  apply (assign_extra_fresh (assign_extra [] e) []).
  cbn [app]. apply assign_extra_NoDup. apply NoDup_nil_2.
Qed.

Lemma or_else_twice {A} (x y : option A) :
  or_else (or_else x y) y = or_else x y.
Proof. now destruct x, y. Qed.

Lemma spread_twice (a b : InputLogObject) :
  extra a = [] -> spread a (spread a b) = spread a b.
Proof.
  intros Ha. unfold spread.
  cbn [level tag type message additional args date extra].
  rewrite !or_else_twice, Ha, assign_extra_twice. reflexivity.
Qed.

Lemma lookup_type_app k (t1 t2 : list (string * InputLogObject)) :
  lookup_type k (t1 ++ t2) = or_else (lookup_type k t1) (lookup_type k t2).
Proof.
  induction t1 as [|[k' x] t1 IH]; cbn [app lookup_type or_else];
    [reflexivity|].
  destruct (String.eqb k k'); [reflexivity | exact IH].
Qed.

Lemma lookup_type_map k (f : string * InputLogObject -> string * InputLogObject)
    (t : list (string * InputLogObject)) :
  (forall kt, fst (f kt) = fst kt) ->
  lookup_type k (map f t)
  = match lookup_type k t with
    | Some x => Some (snd (f (k, x)))
    | None => None
    end.
Proof.
  intros Hf. induction t as [|[k' x] t IH]; cbn [map lookup_type];
    [reflexivity|].
  pose proof (Hf (k', x)) as Hk. destruct (f (k', x)) as [k'' y] eqn:E.
  cbn [fst] in Hk. subst k''.
  destruct (String.eqb_spec k k') as [->|Hne]; [|exact IH].
  now rewrite E.
Qed.

Lemma defu_entry_key custom kt : fst (defu_entry custom kt) = fst kt.
Proof. unfold defu_entry. now destruct (lookup_type _ custom). Qed.

(** Every entry of [LogTypes] holds a level only and is the first one of
    its name. *)
Lemma LogTypes_entries :
  Forall (fun kt => lookup_type (fst kt) LogTypes = Some (snd kt)
                    /\ spread (snd kt) (snd kt) = snd kt
                    /\ extra (snd kt) = [])
         LogTypes.
Proof. repeat constructor. Qed.

Lemma defu_entry_twice custom kt :
  lookup_type (fst kt) LogTypes = Some (snd kt) ->
  spread (snd kt) (snd kt) = snd kt ->
  extra (snd kt) = [] ->
  defu_entry (defu_types custom) kt = defu_entry custom kt.
Proof.
  destruct kt as [k lt]. cbn [fst snd]. intros Hk Hidem Hextra.
  unfold defu_entry at 1. cbn [fst snd]. unfold defu_types.
  rewrite lookup_type_app, lookup_type_map by apply defu_entry_key.
  rewrite Hk. cbn [or_else]. unfold defu_entry. cbn [fst snd].
  destruct (lookup_type k custom) as [tk|]; cbn [snd].
  - now rewrite spread_twice.
  - now rewrite Hidem.
Qed.

Lemma filter_custom_twice (custom : list (string * InputLogObject))
    (head : list (string * InputLogObject)) :
  Forall (fun kt => is_Some (lookup_type (fst kt) LogTypes)) head ->
  let other := fun kt : string * InputLogObject =>
    negb (bool_decide (is_Some (lookup_type (fst kt) LogTypes))) in
  filter other (head ++ filter other custom) = filter other custom.
Proof.
  intros Hhead other. rewrite filter_app.
  replace (filter other head) with (@nil (string * InputLogObject)).
  - cbn [app]. induction custom as [|kt custom IH]; [reflexivity|].
    rewrite filter_cons. destruct (decide (other kt)) as [Hk|Hk].
    + rewrite filter_cons, decide_True by exact Hk. now rewrite IH.
    + exact IH.
  - symmetry. induction Hhead as [|kt head Hkt _ IH]; [reflexivity|].
    rewrite filter_cons, decide_False; [exact IH|].
    unfold other. rewrite bool_decide_eq_true_2 by exact Hkt. auto.
Qed.

(** Completing a table of kinds a second time changes nothing. *)
Lemma defu_types_twice custom :
  defu_types (defu_types custom) = defu_types custom.
Proof.
  assert (E1 : map (defu_entry (defu_types custom)) LogTypes
               = map (defu_entry custom) LogTypes).
  { apply List.map_ext_Forall.
    eapply Forall_impl; [exact LogTypes_entries|].
    intros kt (H1 & H2 & H3). now apply defu_entry_twice. }
  unfold defu_types at 1. rewrite E1. unfold defu_types at 2. f_equal.
  unfold defu_types. apply filter_custom_twice.
  apply Forall_map.
  eapply Forall_impl; [exact LogTypes_entries|].
  intros kt (H1 & H2 & H3). unfold compose. rewrite defu_entry_key, H1.
  eexists. reflexivity.
Qed.

Lemma defu_types_LogTypes : defu_types LogTypes = LogTypes.
Proof. reflexivity. Qed.

Lemma new_Consola_types_twice p :
  defu_types (types (options (new_Consola p))) = types (options (new_Consola p)).
Proof.
  unfold new_Consola. cbn [options types].
  destruct (p_types p); [apply defu_types_twice | apply defu_types_LogTypes].
Qed.

(** X19. An instance made by [withDefaults] (and so by [withTag]) from an
    instance whose kinds are those a constructor produced has the same
    reporters, kinds, level and throttle settings as its parent and the
    defaults of the parent overridden by the given ones; it starts with an
    empty memory of the last record, whatever the parent has logged. *)
Theorem child_instance_keeps_the_options
    (c : Consola) (p : PartialOptions) (d : InputLogObject)
    (Hkinds : types (options c) = types (options (new_Consola p))) :
  let o := options c in
  withDefaults c d
  = mkConsola (mkOptions (reporters o) (types o) (opt_level o)
                         (spread (defaults o) d) (throttle o) (throttleMin o))
              emptyLast.
Proof.
  intros o. unfold withDefaults, create, new_Consola, to_partial.
  cbn [p_reporters p_types p_level p_defaults p_throttle p_throttleMin
       default from_option id _normalizeLogLevel].
  fold o. f_equal. f_equal.
  unfold o. rewrite Hkinds. apply new_Consola_types_twice.
Qed.

(** X19, for the child of a tagged child of an instance with a custom
    kind, after the parent has logged. *)
Lemma child_instance_keeps_the_options_witness :
  let parent :=
    new_Consola (mkPartial (Some [0%nat])
                           (Some [("audit", withLevel (Fin 1))])
                           (LNum (Fin 4)) None None (Some 2)) in
  let busy := r_state (_logFn sample_stringify parent sample_log
                              [VStr "x"] false 5) in
  options (withTag busy "db")
  = mkOptions [0%nat] (types (options parent)) (Fin 4)
              (mkInput None (Some "db") None None None None None [])
              1000 2
  /\ _lastLog (withTag busy "db") = emptyLast
  /\ _lastLog busy <> emptyLast.
Proof.
  intros parent busy.
  pose proof (child_instance_keeps_the_options busy
                (mkPartial (Some [0%nat])
                           (Some [("audit", withLevel (Fin 1))])
                           (LNum (Fin 4)) None None (Some 2))
                (mkInput None (Some "db") None None None None None [])) as H.
  cbv zeta in H.
  assert (Et : withTag busy "db"
               = withDefaults busy
                   (mkInput None (Some "db") None None None None None []))
    by reflexivity.
  rewrite Et, H by reflexivity.
  split; [reflexivity|]. split; [reflexivity|]. vm_compute. discriminate.
Defined.

(** X20. A level given by name to the constructor is looked up in the
    kinds given to the constructor, not in the completed table: with
    custom kinds that lack the name, the level is the default [3], also
    for the name of a built-in kind.  The setter looks the name up in the
    completed table, so that setting the same name afterwards gives the
    level of the built-in kind. *)
Theorem level_name_at_construction
    (p : PartialOptions) (custom : list (string * InputLogObject))
    (k : string) (lt : InputLogObject) (l : num)
    (Htypes : p_types p = Some custom) (Hlevel : p_level p = LType k)
    (Hcustom : lookup_type k custom = None)
    (Hbuiltin : lookup_type k LogTypes = Some lt) (Hl : level lt = Some l) :
  get_level (new_Consola p) = Fin 3
  /\ get_level (set_level (new_Consola p) (LType k)) = l.
Proof.
  unfold get_level, set_level, new_Consola.
  cbn [options opt_level types]. rewrite Htypes, Hlevel.
  cbn [default from_option id _normalizeLogLevel]. rewrite Hcustom.
  split; [reflexivity|].
  unfold defu_types.
  rewrite lookup_type_app, lookup_type_map by apply defu_entry_key.
  rewrite Hbuiltin. cbn [or_else]. unfold defu_entry. cbn [fst snd].
  rewrite Hcustom. cbn [snd]. now rewrite Hl.
Qed.

Lemma level_name_at_construction_witness :
  let p := mkPartial None (Some [("audit", withLevel (Fin 1))])
                     (LType "debug") None None None in
  get_level (new_Consola p) = Fin 3
  /\ get_level (set_level (new_Consola p) (LType "debug")) = Fin 4.
Proof.
  apply (level_name_at_construction
           (mkPartial None (Some [("audit", withLevel (Fin 1))])
                      (LType "debug") None None None)
           [("audit", withLevel (Fin 1))] "debug" (withLevel (Fin 4)) (Fin 4));
    reflexivity.
Defined.

(** ** Wrapping the console *)

Lemma saved_inj k k' : saved k = saved k' -> k = k'.
Proof.
  unfold saved.
  change ("__" +:+ k) with (String "_" (String "_" k)).
  change ("__" +:+ k') with (String "_" (String "_" k')).
  congruence.
Qed.

Section ConsoleFacts.

Variable this : nat.
Variable sites : list string.

(** The console after a loop of [wrapConsole] that meets no saved method
    and no missing call-site. *)
Lemma wrapConsole_loop_lookup kinds : forall console,
  (forall k, k ∈ kinds -> k ∈ sites) ->
  NoDup kinds ->
  (forall k k', k ∈ kinds -> k' ∈ kinds -> saved k <> k') ->
  (forall k, k ∈ kinds -> console !! saved k = None) ->
  let r := wrapConsole_loop this sites kinds console in
  snd r = true
  /\ (forall k, k ∈ kinds -> fst r !! k = Some (RawSite this k))
  /\ (forall k, k ∈ kinds -> fst r !! saved k = console !! k)
  /\ (forall key, key ∉ kinds -> (forall k, k ∈ kinds -> key <> saved k) ->
        fst r !! key = console !! key).
Proof.
  induction kinds as [|type rest IH]; intros console Hsites Hnd Hnames Hfresh.
  - cbn. repeat split; intros k Hk; try (now apply elem_of_nil in Hk).
  - cbn [wrapConsole_loop].
    rewrite (Hfresh type) by apply list_elem_of_here.
    rewrite bool_decide_eq_true_2
      by (apply Hsites; apply list_elem_of_here).
    apply NoDup_cons in Hnd. destruct Hnd as [Hnotin Hnd].
    set (console2 := <[type := RawSite this type]>
                       (set_prop console (saved type) (console !! type))).
    assert (Hself : saved type <> type)
      by (apply Hnames; apply list_elem_of_here).
    assert (Hget : forall key, key <> type -> key <> saved type ->
                     console2 !! key = console !! key).
    { intros key H1 H2. unfold console2, set_prop.
      rewrite lookup_insert_ne by congruence.
      destruct (console !! type);
        [rewrite lookup_insert_ne | rewrite lookup_delete_ne];
        congruence. }
    assert (Hsaved : console2 !! saved type = console !! type).
    { unfold console2, set_prop. rewrite lookup_insert_ne by congruence.
      destruct (console !! type) eqn:E;
        [now rewrite lookup_insert_eq | now rewrite lookup_delete_eq]. }
    assert (Hraw : console2 !! type = Some (RawSite this type))
      by (unfold console2; now rewrite lookup_insert_eq).
    destruct (IH console2) as (Hdone & H1 & H2 & H3).
    + intros k Hk. apply Hsites. now apply list_elem_of_further.
    + exact Hnd.
    + intros k k' Hk Hk'. apply Hnames; now apply list_elem_of_further.
    + intros k Hk. rewrite Hget.
      * apply Hfresh. now apply list_elem_of_further.
      * apply Hnames; [now apply list_elem_of_further
                      | apply list_elem_of_here].
      * intros E. apply saved_inj in E. now subst k.
    + cbv zeta. split; [exact Hdone|]. split; [|split].
      * intros k Hk. apply elem_of_cons in Hk. destruct Hk as [->|Hk].
        -- rewrite H3; [exact Hraw | exact Hnotin |].
           intros k Hk E. symmetry in E. revert E.
           apply Hnames; [now apply list_elem_of_further
                         | apply list_elem_of_here].
        -- now apply H1.
      * intros k Hk. apply elem_of_cons in Hk. destruct Hk as [->|Hk].
        -- rewrite H3; [exact Hsaved | |].
           ++ intros Hin. revert Hin. change (saved type ∉ rest).
              intros Hin. apply (Hnames type (saved type));
                [apply list_elem_of_here | now apply list_elem_of_further
                | reflexivity].
           ++ intros k Hk E. apply saved_inj in E. now subst k.
        -- rewrite H2 by exact Hk. apply Hget.
           ++ intros ->. contradiction.
           ++ intros E. symmetry in E. revert E.
              apply Hnames; [apply list_elem_of_here
                            | now apply list_elem_of_further].
      * intros key Hkey Hns.
        rewrite H3.
        -- apply Hget.
           ++ intros ->. apply Hkey. apply list_elem_of_here.
           ++ apply Hns. apply list_elem_of_here.
        -- intros Hin. apply Hkey. now apply list_elem_of_further.
        -- intros k Hk. apply Hns. now apply list_elem_of_further.
Qed.

(** The console after the loop of [restoreConsole]. *)
Lemma restoreConsole_loop_lookup kinds : forall console,
  NoDup kinds ->
  (forall k k', k ∈ kinds -> k' ∈ kinds -> saved k <> k') ->
  let r := restoreConsole_loop kinds console in
  (forall k, k ∈ kinds ->
     r !! k = match console !! saved k with
              | Some f => Some f
              | None => console !! k
              end)
  /\ (forall k, k ∈ kinds -> r !! saved k = None)
  /\ (forall key, key ∉ kinds -> (forall k, k ∈ kinds -> key <> saved k) ->
        r !! key = console !! key).
Proof.
  unfold restoreConsole_loop.
  induction kinds as [|type rest IH]; intros console Hnd Hnames.
  - cbn. repeat split; intros k Hk; try (now apply elem_of_nil in Hk).
  - cbn [fold_left].
    apply NoDup_cons in Hnd. destruct Hnd as [Hnotin Hnd].
    set (console1 := match console !! saved type with
                     | Some f => delete (saved type) (<[type := f]> console)
                     | None => console
                     end).
    assert (Hself : saved type <> type)
      by (apply Hnames; apply list_elem_of_here).
    assert (Hget : forall key, key <> type -> key <> saved type ->
                     console1 !! key = console !! key).
    { intros key H1 H2. unfold console1.
      destruct (console !! saved type); [|reflexivity].
      rewrite lookup_delete_ne, lookup_insert_ne; congruence. }
    assert (Hsaved : console1 !! saved type = None).
    { unfold console1. destruct (console !! saved type) eqn:E; [|exact E].
      now rewrite lookup_delete_eq. }
    assert (Htype : console1 !! type
                    = match console !! saved type with
                      | Some f => Some f
                      | None => console !! type
                      end).
    { unfold console1. destruct (console !! saved type); [|reflexivity].
      rewrite lookup_delete_ne by congruence. now rewrite lookup_insert_eq. }
    destruct (IH console1) as (H1 & H2 & H3).
    + exact Hnd.
    + intros k k' Hk Hk'. apply Hnames; now apply list_elem_of_further.
    + cbv zeta. split; [|split].
      * intros k Hk. apply elem_of_cons in Hk. destruct Hk as [->|Hk].
        -- rewrite H3; [exact Htype | exact Hnotin |].
           intros k Hk E. symmetry in E. revert E.
           apply Hnames; [now apply list_elem_of_further
                         | apply list_elem_of_here].
        -- rewrite H1 by exact Hk.
           rewrite !Hget; [reflexivity | | | |].
           ++ intros ->. contradiction.
           ++ intros E. symmetry in E. revert E.
              apply Hnames; [apply list_elem_of_here
                            | now apply list_elem_of_further].
           ++ apply Hnames; [now apply list_elem_of_further
                            | apply list_elem_of_here].
           ++ intros E. apply saved_inj in E. now subst k.
      * intros k Hk. apply elem_of_cons in Hk. destruct Hk as [->|Hk].
        -- rewrite H3; [exact Hsaved | |].
           ++ intros Hin. apply (Hnames type (saved type));
                [apply list_elem_of_here | now apply list_elem_of_further
                | reflexivity].
           ++ intros k Hk E. apply saved_inj in E. now subst k.
        -- now apply H2.
      * intros key Hkey Hns.
        rewrite H3.
        -- apply Hget.
           ++ intros ->. apply Hkey. apply list_elem_of_here.
           ++ apply Hns. apply list_elem_of_here.
        -- intros Hin. apply Hkey. now apply list_elem_of_further.
        -- intros k Hk. apply Hns. now apply list_elem_of_further.
Qed.

(** X21. [wrapConsole] followed by [restoreConsole] of the same instance,
    on a console that holds no saved method, for kinds that all have a
    call-site: the loop of [wrapConsole] reaches its end and puts the
    call-site of every kind in place; after [restoreConsole] every method
    the console had under the name of a kind is back and no saved method
    is left, but a kind the console had no method for keeps the call-site
    of the instance; all other properties are as before. *)
Theorem restoreConsole_after_wrapConsole
    (c : Consola) (console : gmap string method)
    (Hsites : forall k, k ∈ map fst (types (options c)) -> k ∈ sites)
    (Hnd : NoDup (map fst (types (options c))))
    (Hnames : forall k k', k ∈ map fst (types (options c)) ->
                k' ∈ map fst (types (options c)) -> saved k <> k')
    (Hfresh : forall k, k ∈ map fst (types (options c)) ->
                console !! saved k = None) :
  let kinds := map fst (types (options c)) in
  let wrapped := wrapConsole this sites c console in
  let restored := restoreConsole c (fst wrapped) in
  snd wrapped = true
  /\ (forall k, k ∈ kinds -> fst wrapped !! k = Some (RawSite this k))
  /\ (forall k f, k ∈ kinds -> console !! k = Some f ->
        restored !! k = Some f)
  /\ (forall k, k ∈ kinds -> console !! k = None ->
        restored !! k = Some (RawSite this k))
  /\ (forall k, k ∈ kinds -> restored !! saved k = None)
  /\ (forall key, key ∉ kinds -> (forall k, k ∈ kinds -> key <> saved k) ->
        restored !! key = console !! key).
Proof.
  intros kinds wrapped restored.
  destruct (wrapConsole_loop_lookup kinds console Hsites Hnd Hnames Hfresh)
    as (Hdone & W1 & W2 & W3).
  destruct (restoreConsole_loop_lookup kinds (fst wrapped) Hnd Hnames)
    as (R1 & R2 & R3).
  fold wrapped in Hdone, W1, W2, W3.
  split; [exact Hdone|]. split; [exact W1|].
  split; [|split; [|split]].
  - intros k f Hk E. unfold restored, restoreConsole. fold kinds.
    rewrite R1 by exact Hk. now rewrite W2, E by exact Hk.
  - intros k Hk E. unfold restored, restoreConsole. fold kinds.
    rewrite R1 by exact Hk. rewrite W2, E by exact Hk. now apply W1.
  - exact R2.
  - intros key Hkey Hns. unfold restored, restoreConsole. fold kinds.
    rewrite R3 by assumption. now apply W3.
Qed.

End ConsoleFacts.

(** X21, for an instance with the built-in kinds, on a console that has
    [log] and [warn] but no [success]. *)
Lemma restoreConsole_after_wrapConsole_witness :
  let console : gmap string method :=
    <["log" := Native "log"]> (<["warn" := Native "warn"]> ∅) in
  let wrapped :=
    wrapConsole 0 (map fst LogTypes) sample_instance console in
  let restored := restoreConsole sample_instance (fst wrapped) in
  snd wrapped = true
  /\ fst wrapped !! "log" = Some (RawSite 0 "log")
  /\ restored !! "log" = Some (Native "log")
  /\ restored !! "success" = Some (RawSite 0 "success")
  /\ restored !! saved "log" = None.
Proof.
  intros console wrapped restored.
  assert (Hin : forall k, bool_decide (k ∈ map fst LogTypes) = true ->
                  k ∈ map fst (types (options sample_instance)))
    by (intros k Hk; apply bool_decide_eq_true_1 in Hk; exact Hk).
  destruct (restoreConsole_after_wrapConsole 0 (map fst LogTypes)
              sample_instance console) as (H1 & H2 & H3 & H4 & H5 & _).
  - intros k Hk. exact Hk.
  - apply (bool_decide_unpack _). vm_compute. exact I.
  - assert (H : Forall (fun k => Forall (fun k' => saved k <> k')
                                   (map fst LogTypes)) (map fst LogTypes))
      by (apply (bool_decide_unpack _); vm_compute; exact I).
    intros k k' Hk Hk'.
    rewrite Forall_forall in H. specialize (H k Hk).
    rewrite Forall_forall in H. exact (H k' Hk').
  - assert (H : Forall (fun k => console !! saved k = None)
                       (map fst LogTypes))
      by (apply (bool_decide_unpack _); vm_compute; exact I).
    rewrite Forall_forall in H. exact H.
  - split; [exact H1|].
    split; [apply H2, Hin; reflexivity|].
    split; [apply H3; [apply Hin|]; reflexivity|].
    split; [apply H4; [apply Hin|]; reflexivity|].
    apply H5, Hin. reflexivity.
Defined.

Lemma wrapConsole_loop_stops this sites kinds : forall console,
  (exists k, k ∈ kinds /\ k ∉ sites) ->
  snd (wrapConsole_loop this sites kinds console) = false.
Proof.
  induction kinds as [|type rest IH]; intros console (k & Hk & Hno).
  - now apply elem_of_nil in Hk.
  - cbn [wrapConsole_loop]. case_bool_decide as Hsite; [|reflexivity].
    apply IH. exists k. split; [|exact Hno].
    apply elem_of_cons in Hk. destruct Hk as [->|Hk]; [contradiction|exact Hk].
Qed.

(** X22. [wrapConsole] of an instance constructed with custom kinds that
    lack one of the built-in kinds never reaches its end: the loop runs
    over the completed table of kinds, which holds every built-in kind,
    while the constructor defined a call-site only for the kinds it was
    given, and reading [raw] of the missing call-site throws. *)
Theorem wrapConsole_needs_every_builtin_kind
    (this : nat) (p : PartialOptions)
    (custom : list (string * InputLogObject)) (k : string)
    (console : gmap string method)
    (Htypes : p_types p = Some custom)
    (Hbuiltin : k ∈ map fst LogTypes)
    (Hcustom : k ∉ map fst custom) :
  snd (wrapConsole this (call_sites p) (new_Consola p) console) = false.
Proof.
  unfold wrapConsole, call_sites, new_Consola. cbn [options types].
  rewrite Htypes. cbn [default from_option id].
  apply wrapConsole_loop_stops. exists k. split; [|exact Hcustom].
  unfold defu_types. rewrite map_app. apply elem_of_app. left.
  rewrite map_map.
  rewrite (map_ext _ fst (defu_entry_key custom)). exact Hbuiltin.
Qed.

Lemma wrapConsole_needs_every_builtin_kind_witness :
  snd (wrapConsole 0
         (call_sites (mkPartial None (Some [("audit", withLevel (Fin 1))])
                                LUndef None None None))
         (new_Consola (mkPartial None (Some [("audit", withLevel (Fin 1))])
                                 LUndef None None None))
         (<["log" := Native "log"]> ∅))
  = false.
Proof.
  apply (wrapConsole_needs_every_builtin_kind 0
           (mkPartial None (Some [("audit", withLevel (Fin 1))])
                      LUndef None None None)
           [("audit", withLevel (Fin 1))] "log").
  - reflexivity.
  - apply (bool_decide_unpack _). vm_compute. exact I.
  - apply (bool_decide_unpack _). vm_compute. exact I.
Defined.

(** ** Wrapped streams *)

Lemma wrapped_by_saved ws : forall s f d,
  __write s = Some f ->
  wrapped_by ws (Some s)
  = Some (mkStream match ws with
                   | [] => write s
                   | _ => match List.last ws d with
                          | (this, type) => TrimToRaw this type
                          end
                   end
                   (Some f)).
Proof.
  induction ws as [|[this type] ws IH]; intros s f d Hs.
  - cbn. destruct s as [w sv]. cbn in *. now subst.
  - cbn [wrapped_by fold_left _wrapStream fst snd]. rewrite Hs.
    fold (wrapped_by ws (Some (mkStream (TrimToRaw this type) (Some f)))).
    rewrite (IH (mkStream (TrimToRaw this type) (Some f)) f d eq_refl).
    destruct ws as [|w' ws']; reflexivity.
Qed.

(** X23. A stream that is not wrapped, once wrapped by one or more
    instances in turn: a direct [write] goes to the wrapper of the last
    instance, whereas [writeStream], which the reporters use, still calls
    the function the stream came with; one [_restoreStream] undoes all the
    wrappings and gives the stream back as it was.  [_restoreStream] on a
    stream that is not wrapped changes nothing. *)
Theorem wrapped_stream_keeps_its_first_write
    (s : Stream) (this : nat) (type : string) (ws : list (nat * string))
    (data : string) (Hplain : __write s = None) :
  let wrapped := wrapped_by ((this, type) :: ws) (Some s) in
  (exists s', wrapped = Some s'
     /\ write s' = match List.last ws (this, type) with
                   | (this', type') => TrimToRaw this' type'
                   end
     /\ writeStream data s' = (write s, data))
  /\ _restoreStream wrapped = Some s
  /\ _restoreStream (Some s) = Some s.
Proof.
  intros wrapped. unfold wrapped.
  cbn [wrapped_by fold_left _wrapStream fst snd]. rewrite Hplain.
  fold (wrapped_by ws (Some (mkStream (TrimToRaw this type)
                                      (Some (write s))))).
  rewrite (wrapped_by_saved ws
             (mkStream (TrimToRaw this type) (Some (write s)))
             (write s) (this, type) eq_refl).
  split; [|split].
  - eexists. split; [reflexivity|]. cbn [write __write]. split.
    + destruct ws as [|w' ws']; reflexivity.
    + reflexivity.
  - cbn [_restoreStream __write]. destruct s as [w0 sv]. cbn in *.
    now subst sv.
  - cbn [_restoreStream]. now rewrite Hplain.
Qed.

(** X23, for [process.stdout] wrapped by instance 0 and then by
    instance 1. *)
Lemma wrapped_stream_keeps_its_first_write_witness :
  let s := mkStream (NativeWrite "stdout.write") None in
  let wrapped := wrapped_by [(0%nat, "log"); (1%nat, "log")] (Some s) in
  wrapped = Some (mkStream (TrimToRaw 1 "log")
                           (Some (NativeWrite "stdout.write")))
  /\ _restoreStream wrapped = Some s.
Proof.
  intros s wrapped.
  destruct (wrapped_stream_keeps_its_first_write s 0 "log"
              [(1%nat, "log")] "x" eq_refl) as (_ & Hrestore & _).
  split; [reflexivity | exact Hrestore].
Defined.
